(** * Bishop: pattern-matched dispatch (afoninsky/bishop)

    A shallow embedding of the pattern utilities ([src/utils.js]) and of
    the dispatcher instance, with the properties the specification states
    about them. The tree holds the utilities and the dispatcher in two
    revisions each; [Utils] and [Bishop] are the ones the statements are
    about, [UtilsAlt] and [BishopAlt] the others.

    Conventions.
    - A JavaScript string is a [list ascii] ([str]); literals are written
      [lit "..."].
    - A JavaScript object used as a pattern is an association list in key
      insertion order, the order [for .. in] and [_.keys] enumerate.
    - A regular expression is represented by its pattern text; only
      flag-less expressions occur, since [text2obj] builds no other.
    - Time is counted in whole milliseconds from the call. *)

From Stdlib Require Import List String Ascii ZArith Lia Bool Arith.
From Stdlib Require Import DecimalString Sorting.Permutation Sorting.Sorted.
Import ListNotations.

Set Implicit Arguments.
Set Warnings "-register-all".

(* ================================================================== *)
(** * Strings *)
(* ================================================================== *)

Definition str := list ascii.

Definition lit (s : string) : str := list_ascii_of_string s.

Definition str_eq_dec : forall a b : str, {a = b} + {a <> b} :=
  list_eq_dec ascii_dec.

Definition str_eqb (a b : str) : bool :=
  if str_eq_dec a b then true else false.

(** White space removed by [String.prototype.trim], restricted to the
    one-byte characters: space, tab, line feed, vertical tab, form feed and
    carriage return. *)
Definition is_space (c : ascii) : bool :=
  match c with
  | " "%char | "009"%char | "010"%char | "011"%char | "012"%char
  | "013"%char => true
  | _ => false
  end.

Fixpoint trimStart (s : str) : str :=
  match s with
  | [] => []
  | c :: r => if is_space c then trimStart r else s
  end.

Definition trimEnd (s : str) : str := rev (trimStart (rev s)).

(** [s.trim()] *)
Definition trim (s : str) : str := trimEnd (trimStart s).

(** [s.split(sep)] for a one-character separator: never empty. *)
Fixpoint split_on (sep : ascii) (s : str) : list str :=
  match s with
  | [] => [[]]
  | c :: r =>
      if Ascii.eqb c sep then [] :: split_on sep r
      else match split_on sep r with
           | [] => [[c]]
           | w :: ws => (c :: w) :: ws
           end
  end.

(** [parts.join(sep)] *)
Fixpoint join (sep : str) (parts : list str) : str :=
  match parts with
  | [] => []
  | [w] => w
  | w :: ws => w ++ sep ++ join sep ws
  end.

(** [s.slice(1, -1)]: the string without its first and last character. *)
Definition slice_1_m1 (s : str) : str := removelast (tl s).

(** [s.substring(1)] *)
Definition substring_1 (s : str) : str := tl s.

(** [field[0] === '$'] *)
Definition is_meta (field : str) : bool :=
  match field with
  | "$"%char :: _ => true
  | _ => false
  end.

(* ================================================================== *)
(** * Values and objects *)
(* ================================================================== *)

(** The values a pattern holds. Numbers are whole numbers, a regular
    expression is its pattern text, a nested mapping is a tree; objects
    with an identity of their own are the matter of [Store] below. *)
Inductive value : Type :=
| VUndefined
| VNull
| VBool (b : bool)
| VNum (n : Z)
| VStr (s : str)
| VRegExp (source : str)
| VObj (fields : list (str * value)).

Definition obj := list (str * value).

Section Properties.

(** The type of what a property holds. *)
Variable A : Type.

(** [o[k]]; [None] stands for an absent key. *)
Fixpoint get (o : list (str * A)) (k : str) : option A :=
  match o with
  | [] => None
  | (k', v) :: r => if str_eq_dec k' k then Some v else get r k
  end.

(** [o[k] = v]: an existing key keeps its place, a new key goes last. *)
Fixpoint put (o : list (str * A)) (k : str) (v : A) : list (str * A) :=
  match o with
  | [] => [(k, v)]
  | (k', v') :: r =>
      if str_eq_dec k' k then (k, v) :: r else (k', v') :: put r k v
  end.

Definition keys (o : list (str * A)) : list str := map fst o.

End Properties.


(** The value read from a property: [undefined] when the key is absent. *)
Definition prop (o : obj) (k : str) : value :=
  match get o k with
  | Some v => v
  | None => VUndefined
  end.

(** JavaScript truthiness ([NaN] is not represented). *)
Definition truthy (v : value) : bool :=
  match v with
  | VUndefined | VNull => false
  | VBool b => b
  | VNum n => negb (Z.eqb n 0)
  | VStr s => match s with [] => false | _ => true end
  | VRegExp _ | VObj _ => true
  end.

(** [a || b] *)
Definition js_or (a b : value) : value := if truthy a then a else b.

(** The text of a value, [String(value)]; [value.toString()] gives the
    same on the values that have the method. *)
Definition toString (v : value) : str :=
  match v with
  | VUndefined => lit "undefined"
  | VNull => lit "null"
  | VBool true => lit "true"
  | VBool false => lit "false"
  | VNum n => lit (NilZero.string_of_int (Z.to_int n))
  | VStr s => s
  | VRegExp src => "/"%char :: src ++ ["/"%char]
  | VObj _ => lit "[object Object]"
  end.

(** [_.cloneDeep] on a value tree: a structural copy. *)
Fixpoint cloneDeep (v : value) : value :=
  match v with
  | VObj fields => VObj (map (fun kv => (fst kv, cloneDeep (snd kv))) fields)
  | _ => v
  end.

(** The own enumerable properties [for .. in] walks through. *)
Definition entries (v : value) : obj :=
  match v with
  | VObj fields => fields
  | _ => []
  end.

(** No key occurs twice: what a JavaScript object guarantees. *)
Fixpoint distinct (ks : list str) : bool :=
  match ks with
  | [] => true
  | k :: r => negb (existsb (str_eqb k) r) && distinct r
  end.
(* ================================================================== *)
(** * Errors, handlers and what a caller observes *)
(* ================================================================== *)

(** The errors the dispatcher builds, and those a handler raises. *)
Inductive error : Type :=
| PatternNotSpecified                        (* 'pattern not specified' *)
| PatternNotFound (pattern : obj)            (* 'pattern not found: ...' *)
| TransportNotExists (type : str)            (* 'transport "..." not exists' *)
| PatternTimeout (timeout : value) (pattern : obj)
                                             (* 'pattern timeout after ...ms: ...' *)
| DuplicatePattern (pattern : obj)           (* '... pattern already exists: ...' *)
| NoRequestMethod (payload : str)            (* 'transport ... has no .request method' *)
| TransportExists (name : str)               (* '.register(transport): ... already exists' *)
| TypeError (message : str)                  (* raised by the runtime *)
| Raised (name message : str).               (* thrown or rejected by a handler *)

(** [err.name] *)
Definition error_name (e : error) : str :=
  match e with
  | Raised name _ => name
  | TypeError _ => lit "TypeError"
  | _ => lit "Error"
  end.

(** How the promise a handler returns settles. *)
Inductive settlement : Type :=
| Fulfils (v : value)
| Rejects (e : error).

(** What calling a handler does: it throws before returning, or returns
    something that settles [after] milliseconds later (a plain value
    settles at once), or returns a promise that never settles. *)
Inductive completion : Type :=
| Throws (e : error)
| Settles (after : nat) (s : settlement)
| Pending.

Definition fn : Type := obj -> completion.

(** The second argument of [add]: a function or the name of a transport. *)
Inductive handler : Type :=
| HFun (f : fn)
| HName (name : str).

(** [method(...input)]; a string is not callable. *)
Definition call (method : handler) (input : obj) : completion :=
  match method with
  | HFun f => f input
  | HName _ => Throws (TypeError (lit "method is not a function"))
  end.

(** [{ type, handler }] *)
Record payload : Type := { type : str; handler_of : handler }.

(** What the caller of an asynchronous entry point sees, with the time in
    milliseconds since the call: the promise resolves, rejects or stays
    pending, or the process has exited before it could settle. *)
Inductive outcome : Type :=
| Resolved (at_ms : nat) (v : value)
| Rejected (at_ms : nat) (e : error)
| Unsettled
| Exited (at_ms : nat).

(** Effects other than the returned promise. *)
Inductive event : Type :=
| Lookup (localOnly : bool) (query : obj)
| Invoke (type : str) (input : obj)
| Classify (e : error)                  (* [errorHandler(err)] was called *)
| LogError (e : error)
| LogWarn (elapsed : nat) (pattern : obj)
| Exit                                  (* [process.exit(1)] *)
| Hook (transport method : str).        (* a lifecycle method was invoked *)

Definition timeline : Type := list (nat * event).

Record run : Type := { result : outcome; events : timeline }.

(** [config.terminateOn]: a list of error names, or a function of the
    caller's own. *)
Inductive terminateOn : Type :=
| Names (names : list str)
| Custom (f : error -> value).

(** What [errorHandler(err)] comes to: the process exits, or the error is
    muted (truthy) or handed on (falsy). *)
Inductive verdict : Type :=
| Fatal
| Mute (muteError : bool).

Definition errorHandler (t : terminateOn) (err : error) : verdict :=
  match t with
  | Custom f => Mute (truthy (f err))
  | Names names =>
      if existsb (str_eqb (error_name err)) names then Fatal else Mute false
  end.

(** A number: none ([NaN]), an infinity, or the finite [m * 2 ^ e], which
    is how a double holds it. The sign of zero is not kept, and a number
    held in a value ([VNum]) is whole. *)
Inductive number : Type :=
| NaN
| Infinity (negative : bool)
| Dyadic (m e : Z).

(** [Math.floor] of [m * 2 ^ e]. *)
Definition floor (m e : Z) : Z :=
  if (0 <=? e)%Z then (m * 2 ^ e)%Z else (m / 2 ^ (- e))%Z.

(** [m * 2 ^ e] is a whole number. *)
Definition whole (m e : Z) : bool :=
  (0 <=? e)%Z || (m mod 2 ^ (- e) =? 0)%Z.

(** The fraction [n / (d * 2 ^ p)]. *)
Definition scaled (n d p : Z) : Z * Z :=
  if (0 <=? p)%Z then (n, d * 2 ^ p)%Z else (n * 2 ^ (- p), d)%Z.

(** The whole number nearest to [n / d], the even one of two. *)
Definition nearest (n d : Z) : Z :=
  let q := (n / d)%Z in
  let twice := (2 * (n mod d))%Z in
  if (twice <? d)%Z then q
  else if (d <? twice)%Z then (q + 1)%Z
  else if Z.even q then q else (q + 1)%Z.

(** The [k] with [2 ^ k <= n / d < 2 ^ (k + 1)], for positive [n] and [d]. *)
Definition binade (n d : Z) : Z :=
  let k := (Z.log2 n - Z.log2 d)%Z in
  let (a, b) := scaled n d k in
  if (b <=? a)%Z then k else (k - 1)%Z.

(** The double nearest to the positive [n / d]: 53 significant bits, fewer
    below [2 ^ -1022], and infinity from [2 ^ 1024 - 2 ^ 970] on. *)
Definition double_of (n d : Z) : number :=
  let p := (Z.max (binade n d) (-1022) - 52)%Z in
  let (a, b) := scaled n d p in
  let m := nearest a b in
  if (2 ^ 1024 <=? floor m p)%Z then Infinity false else Dyadic m p.

Definition negated (x : number) : number :=
  match x with
  | NaN => NaN
  | Infinity negative => Infinity (negb negative)
  | Dyadic m e => Dyadic (- m) e
  end.

(** The value of a digit in a base up to sixteen. *)
Definition digit_value (base : Z) (c : ascii) : option Z :=
  let n := Z.of_nat (nat_of_ascii c) in
  let v := if ((48 <=? n) && (n <=? 57))%Z then Some (n - 48)%Z
           else if ((97 <=? n) && (n <=? 102))%Z then Some (n - 87)%Z
           else if ((65 <=? n) && (n <=? 70))%Z then Some (n - 55)%Z
           else None in
  match v with
  | Some x => if (x <? base)%Z then Some x else None
  | None => None
  end.

(** The digits [s] starts with, read after [acc]: the number read, how many
    digits there were, and what follows them. *)
Fixpoint digits (base : Z) (s : str) (acc : Z) (count : nat) : Z * nat * str :=
  match s with
  | c :: r =>
      match digit_value base c with
      | Some v => digits base r (acc * base + v)%Z (S count)
      | None => (acc, count, s)
      end
  | [] => (acc, count, [])
  end.

(** [ExponentPart], or nothing: the exponent, [None] for any other text. *)
Definition exponent_part (s : str) : option Z :=
  match s with
  | [] => Some 0%Z
  | c :: r =>
      if Ascii.eqb c "e" || Ascii.eqb c "E" then
        let '(negative, r') := match r with
                               | "+"%char :: t => (false, t)
                               | "-"%char :: t => (true, t)
                               | _ => (false, r)
                               end in
        match digits 10 r' 0 0 with
        | (x, S _, []) => Some (if negative then - x else x)%Z
        | _ => None
        end
      else None
  end.

(** [mantissa * 10 ^ exponent] as a double. *)
Definition decimal (mantissa exponent : Z) : number :=
  if (mantissa =? 0)%Z then Dyadic 0 0
  else if (0 <=? exponent)%Z then double_of (mantissa * 10 ^ exponent) 1
  else double_of mantissa (10 ^ (- exponent)).

(** [StrUnsignedDecimalLiteral] *)
Definition unsigned_decimal (s : str) : number :=
  if str_eqb s (lit "Infinity") then Infinity false
  else
    let '(whole_part, whole_count, rest) := digits 10 s 0 0 in
    match rest with
    | "."%char :: fraction =>
        let '(mantissa, fraction_count, rest') := digits 10 fraction whole_part 0 in
        match whole_count + fraction_count, exponent_part rest' with
        | S _, Some x => decimal mantissa (x - Z.of_nat fraction_count)
        | _, _ => NaN
        end
    | _ =>
        match whole_count, exponent_part rest with
        | S _, Some x => decimal whole_part x
        | _, _ => NaN
        end
    end.

(** The digits of a binary, octal or hexadecimal literal after its
    prefix. *)
Definition integer_literal (base : Z) (s : str) : number :=
  match digits base s 0 0 with
  | (n, S _, []) => if (n =? 0)%Z then Dyadic 0 0 else double_of n 1
  | _ => NaN
  end.

(** The number a text converts to ([StringToNumber]): white space around
    it is dropped; the empty text is zero; a literal in base two, eight or
    sixteen has no sign; any text outside the grammar is [NaN]. *)
Definition string_to_number (s : str) : number :=
  match trim s with
  | [] => Dyadic 0 0
  | "0"%char :: c :: r =>
      if Ascii.eqb c "x" || Ascii.eqb c "X" then integer_literal 16 r
      else if Ascii.eqb c "o" || Ascii.eqb c "O" then integer_literal 8 r
      else if Ascii.eqb c "b" || Ascii.eqb c "B" then integer_literal 2 r
      else unsigned_decimal ("0"%char :: c :: r)
  | "+"%char :: r => unsigned_decimal r
  | "-"%char :: r => negated (unsigned_decimal r)
  | t => unsigned_decimal t
  end.

(** The number a value converts to ([ToNumber], the unary [+]): an object
    or a regular expression converts through its text, which is no
    number. *)
Definition to_number (v : value) : number :=
  match v with
  | VNum n => Dyadic n 0
  | VBool b => Dyadic (if b then 1 else 0) 0
  | VNull => Dyadic 0 0
  | VStr s => string_to_number s
  | VUndefined | VRegExp _ | VObj _ => NaN
  end.

(** The longest delay of a timer, [2 ^ 31 - 1] milliseconds. *)
Definition TIMEOUT_MAX : Z := 2147483647.

(** The delay of the timer behind [.timeout(ms)], which hands [+ms] to
    [setTimeout]: a delay below one millisecond or above [TIMEOUT_MAX], or
    none at all, is one millisecond, and the fraction of any other is
    dropped. *)
Definition timer_delay (ms : value) : nat :=
  match to_number ms with
  | Dyadic m e =>
      let after := floor m e in
      if ((1 <=? after) && ((after <? TIMEOUT_MAX)
                            || ((after =? TIMEOUT_MAX) && whole m e)))%Z
      then Z.to_nat after
      else 1
  | _ => 1
  end.

(** [elapsed > threshold] for a whole number of milliseconds [elapsed]. *)
Definition exceeds (elapsed : nat) (threshold : value) : bool :=
  match to_number threshold with
  | Dyadic m e => (floor m e <? Z.of_nat elapsed)%Z
  | Infinity negative => negative
  | NaN => false
  end.

(** When a promise settles, if it does. *)
Definition settled_at (o : outcome) : option nat :=
  match o with
  | Resolved t _ | Rejected t _ | Exited t => Some t
  | Unsettled => None
  end.

(** [ld.assign(target, ...sources)] on the fields. *)
Definition assign (target : obj) (sources : list obj) : obj :=
  fold_left (fun o src => fold_left (fun o kv => put o (fst kv) (snd kv)) src o)
            sources target.

(** [ld.isEqual]: deep equality, blind to the order of keys. *)
Fixpoint isEqual (a b : value) : bool :=
  match a, b with
  | VUndefined, VUndefined => true
  | VNull, VNull => true
  | VBool x, VBool y => Bool.eqb x y
  | VNum x, VNum y => Z.eqb x y
  | VStr x, VStr y => str_eqb x y
  | VRegExp x, VRegExp y => str_eqb x y
  | VObj fa, VObj fb =>
      Nat.eqb (List.length fa) (List.length fb)
      && forallb (fun kv => match get fb (fst kv) with
                            | Some vb => isEqual (snd kv) vb
                            | None => false
                            end) fa
  | _, _ => false
  end.

(* ================================================================== *)
(** * The pattern index *)
(* ================================================================== *)

Module Index.

(** The index is the [bloomrun] package, which is not part of the sources.
    Section 4.1 of the specification says what its operations do, and the
    comments of the configuration defaults say the same of the two match
    orders. *)

Inductive order : Type := Insertion | Depth.

Section Entries.

(** What is stored with a pattern. *)
Variable P : Type.

Definition entry : Type := obj * P.

(** Entries in insertion order, earliest first. *)
Definition t : Type := list entry.

(** Modelled from the spec: [add(pattern, payload)] of the index, which
    inserts. *)
Definition add (idx : t) (pattern : obj) (p : P) : t :=
  idx ++ [(pattern, p)].

(** Modelled from the spec: the match relation of the index. Entry pattern
    [e] matches query [q] iff for every non-meta key [k] of [e], [q[k]]
    exists and equals [e[k]] as strings. *)
Definition matches (e q : obj) : bool :=
  forallb (fun kv =>
             is_meta (fst kv)
             || match get q (fst kv) with
                | Some v => str_eqb (toString v) (toString (snd kv))
                | None => false
                end) e.

(** Modelled from the spec: the number of non-meta keys, by which the
    index orders matches under [depth]. *)
Definition depth (e : obj) : nat :=
  List.length (filter (fun kv => negb (is_meta (fst kv))) e).

(** Modelled from the spec: the step of the depth-ordered [lookup] of the
    index. Of the best match so far and the next entry, the later wins only
    with strictly more non-meta keys. *)
Definition deeper (q : obj) (best : option entry) (e : entry) : option entry :=
  if matches (fst e) q then
    match best with
    | None => Some e
    | Some b => if Nat.ltb (depth (fst b)) (depth (fst e)) then Some e else best
    end
  else best.

(** Modelled from the spec: [lookup(query, opts)] of the index. Under
    [insertion] it returns, among the matches, the one inserted earliest;
    under [depth] the one with the greatest number of non-meta keys, ties
    broken by earlier insertion; nothing when nothing matches. *)
Definition lookup (o : order) (idx : t) (q : obj) : option entry :=
  match o with
  | Insertion => find (fun e => matches (fst e) q) idx
  | Depth => fold_left (deeper q) idx None
  end.

End Entries.

End Index.
(* ================================================================== *)
(** * src/utils.js *)
(* ================================================================== *)

Module Utils.

(** [const regExpAll = /.*/] *)
Definition regExpAll : value := VRegExp (lit ".*").

(** The body of the reducer of [text2obj] on one comma-separated piece,
    up to the call of [new RegExp]: a [VRegExp] holds the text handed to
    it, which is the source of the expression where the engine takes the
    text as it is. What the engine makes of the text, and the key
    [__proto__], are in [Engine.segment] and [Engine.assign_field]. *)
Definition segment (cur : str) : str * value :=
  let parts := split_on ":" (trim cur) in
  let key := hd [] parts in
  let value := match tl parts with
               | [] => toString regExpAll
               | v :: _ => v
               end in
  let trimmedValue := trim value in
  (trim key,
   match trimmedValue with
   | "/"%char :: _ => VRegExp (slice_1_m1 trimmedValue)
   | _ => VStr trimmedValue
   end).

(** ['model:comments, target, action:create' =>
     { model: 'comments', target: /.*/, action: 'create' }]: the fields
    written, for a text every piece of which the engine takes and none of
    which is keyed [__proto__] ([Engine.text2obj] has the other
    texts). *)
Definition text2obj (input : str) : obj :=
  fold_left (fun prev cur => let (k, v) := segment cur in put prev k v)
            (split_on "," input) [].

(** [objectify(obj)]: a string is parsed, anything else is deep-cloned. *)
Definition objectify (item : value) : value :=
  match item with
  | VStr s => VObj (text2obj s)
  | _ => cloneDeep item
  end.

Definition triple : Type := obj * obj * obj.

(** The body of the [for (let field in partialPattern)] loop of [split]. *)
Definition split_field (acc : triple) (kv : str * value) : triple :=
  let '(message, meta, raw) := acc in
  let (field, v) := kv in
  if is_meta field
  then (message, put meta (substring_1 field) v, put raw field v)
  else (put message field v, meta, put raw field v).

Definition split_item (acc : triple) (item : value) : triple :=
  fold_left split_field (entries (objectify item)) acc.

(** [split(...args)]: returns [[ message, meta, raw ]]. *)
Definition split (args : list value) : triple :=
  fold_left split_item args ([], [], []).

(** One [key:value] piece of [beautify]. *)
Definition beautify_field (kv : str * value) : str :=
  let (key, value) := kv in
  match value with
  | VObj inner => key ++ lit ":{" ++ join (lit ",") (keys inner) ++ lit "}"
  | _ => if truthy value then key ++ lit ":" ++ toString value else key
  end.

Definition beautify (o : obj) : str :=
  join (lit ", ") (map beautify_field o).

(** What a transport storage keeps under a name: the [request] method of
    the transport, if it has one, and its options. *)
Record stored : Type := { request : option fn; options : obj }.

Definition storage : Type := list (str * stored).

Fixpoint stored_under (s : storage) (name : str) : option stored :=
  match s with
  | [] => None
  | (n, r) :: rest => if str_eq_dec n name then Some r else stored_under rest name
  end.

(** [registerTransport(transportsStorage, name, transportMethods, options = {})]:
    the error thrown, or the storage afterwards. Of the methods of the
    transport the [request] method is kept. *)
Definition registerTransport (transportsStorage : storage) (name : str)
           (transportMethods : option fn) (opts : obj) : error + storage :=
  match stored_under transportsStorage name with
  | Some _ => inl (TransportExists name)
  | None => inr (transportsStorage
                 ++ [(name, {| request := transportMethods; options := opts |})])
  end.

(** [throwIfPatternExists(matcher, pattern)]: the error thrown, if any. *)
Definition throwIfPatternExists (P : Type) (indexing : Index.order)
           (matcher : Index.t P) (pattern : obj) : option error :=
  match Index.lookup indexing matcher pattern with
  | Some foundPattern =>
      if isEqual (VObj (fst foundPattern)) (VObj pattern)
      then Some (DuplicatePattern pattern)
      else None
  | None => None
  end.

(** [createPayloadWrapper(payload, headers, remoteTransportsStorage)]: the
    error thrown or the pair returned, and [headers] afterwards. The first
    test, [headers.local || ld.isFunction(payload)], lets a function
    through whatever the headers and a name only under [headers.local]. *)
Definition createPayloadWrapper (payload : handler) (headers : obj)
           (remoteTransportsStorage : storage)
  : (error + handler * obj) * obj :=
  match payload with
  | HFun _ => (inr (payload, []), headers)
  | HName name =>
      if truthy (prop headers (lit "local")) then (inr (payload, []), headers)
      else
        match stored_under remoteTransportsStorage name with
        | Some {| request := Some req; options := opts |} =>
            (inr (HFun req, []),
             if truthy (prop opts (lit "timeout"))
                && negb (truthy (prop headers (lit "timeout")))
             then put headers (lit "timeout") (prop opts (lit "timeout"))
             else headers)
        | _ => (inl (NoRequestMethod name), headers)
        end
  end.

End Utils.

(* ================================================================== *)
(** * A second revision of the utilities *)
(* ================================================================== *)

Module UtilsAlt.

(** [text2obj] of this revision differs only in spelling the wildcard
    text ['/.*/'] out. *)
Definition text2obj : str -> obj := Utils.text2obj.

(** Here [split] neither clones its arguments nor strips the sigil. *)
Definition split_field (acc : Utils.triple) (kv : str * value) : Utils.triple :=
  let '(message, meta, raw) := acc in
  let (field, v) := kv in
  if is_meta field
  then (message, put meta field v, put raw field v)
  else (put message field v, meta, put raw field v).

Definition partialPattern (item : value) : value :=
  match item with
  | VStr s => VObj (text2obj s)
  | _ => item
  end.

Definition split (args : list value) : Utils.triple :=
  fold_left (fun acc item => fold_left split_field (entries (partialPattern item)) acc)
            args ([], [], []).

(** One [key:value] piece of [beautify] in this revision: the value is
    printed whatever it is; [None] when [value.toString()] throws, the
    value being [undefined] or [null]. *)
Definition beautify_field (kv : str * value) : option str :=
  let (key, value) := kv in
  match value with
  | VObj inner => Some (key ++ lit ":{" ++ join (lit ",") (keys inner) ++ lit "}")
  | VUndefined | VNull => None
  | _ => Some (key ++ lit ":" ++ toString value)
  end.

Fixpoint beautify_fields (o : obj) : option (list str) :=
  match o with
  | [] => Some []
  | kv :: r =>
      match beautify_field kv, beautify_fields r with
      | Some piece, Some pieces => Some (piece :: pieces)
      | _, _ => None
      end
  end.

Definition beautify (o : obj) : option str :=
  option_map (join (lit ", ")) (beautify_fields o).

End UtilsAlt.


(* ================================================================== *)
(** * The dispatcher instance *)
(* ================================================================== *)

(** A loaded transport: its [send] method, if it has one, the names of
    the lifecycle methods it declares, and its [options]. *)
Record transport : Type := {
  send : option fn;
  methods : list str;
  transport_options : obj
}.

Definition registry : Type := list (str * transport).

(** [registry[name]] *)
Fixpoint registered (r : registry) (name : str) : option transport :=
  match r with
  | [] => None
  | (n, t) :: rest => if str_eq_dec n name then Some t else registered rest name
  end.

(** Modelled from the spec: [runMethodsParallel] is imported from the
    utilities and is not part of the sources; section 4.5 has it invoke
    [record[method]] on every transport that has it. The invocations are
    recorded as [Hook] events. *)
Definition runMethodsParallel (transports : registry) (method : str) : timeline :=
  map (fun nt => (0, Hook (fst nt) method))
      (filter (fun nt => existsb (str_eqb method) (methods (snd nt))) transports).

(** What [executor(pattern)] does: it throws, or returns a promise. *)
Inductive envelope : Type :=
| Threw (e : error)
| Promised (r : run).

(** [Promise.resolve(p).timeout(ms).catch(Promise.TimeoutError, ...)]: the
    promise wins when it settles before the timer expires; the effects of
    the handler go on either way. *)
Definition race (timeout : value) (pattern : obj) (r : run) : run :=
  let expiry := timer_delay timeout in
  let timed_out := {| result := Rejected expiry (PatternTimeout timeout pattern);
                      events := events r |} in
  match settled_at (result r) with
  | Some t => if Nat.ltb t expiry then r else timed_out
  | None => timed_out
  end.

Module Bishop.

Record config : Type := {
  forbidSameRouteNames : value;
  matchOrder : Index.order;
  timeout : value;
  debug : value;
  slowPatternTimeout : value;
  terminateOn_ : terminateOn
}.

Definition defaultConfig : config := {|
  forbidSameRouteNames := VBool false;
  matchOrder := Index.Depth;
  timeout := VNum 500;
  debug := VBool false;
  slowPatternTimeout := VNull;
  terminateOn_ := Names [lit "ReferenceError"; lit "RangeError";
                         lit "SyntaxError"; lit "TypeError"]
|}.

(** The closure state of an instance and the properties the methods read
    through [this]. *)
Record instance : Type := {
  conf : config;
  pm : Index.t payload;
  pmLocal : Index.t payload;
  this_timeout : value;
  this_transport : registry
}.

Definition create (c : config) : instance := {|
  conf := c; pm := []; pmLocal := [];
  this_timeout := timeout c; this_transport := []
|}.

(** [add(_pattern, handler)]: the error thrown, if any, and the instance
    afterwards. *)
Definition add (i : instance) (_pattern : value) (h : handler)
  : option error * instance :=
  let type := match h with HFun _ => lit "local" | HName name => name end in
  let pattern := entries (Utils.objectify _pattern) in
  let payload := {| type := type; handler_of := h |} in
  let exists_already :=
    truthy (forbidSameRouteNames (conf i))
    && match Index.lookup (matchOrder (conf i)) (pm i) pattern with
       | Some foundPattern => isEqual (VObj (fst foundPattern)) (VObj pattern)
       | None => false
       end in
  if exists_already then (Some (DuplicatePattern pattern), i)
  else (None,
        {| conf := conf i;
           pm := Index.add (pm i) pattern payload;
           pmLocal := if str_eqb type (lit "local")
                      then Index.add (pmLocal i) pattern payload
                      else pmLocal i;
           this_timeout := this_timeout i;
           this_transport := this_transport i |}).

Section Act.

(** The storage the debugger of the call writes to; the debugger itself
    ([createDebugger]) is not part of the sources. *)
Variable debugStorage : obj.

Definition doPostOperations (slowTimeout : value) (pattern : obj) (elapsed : nat)
  : timeline :=
  if truthy slowTimeout && exceeds elapsed slowTimeout
  then [(elapsed, LogWarn elapsed pattern)]
  else [].

(** The [.catch] of the fire-and-forget executor. *)
Definition detached_catch (c : config) (t : nat) (err : error) : timeline :=
  (t, Classify err) ::
  match errorHandler (terminateOn_ c) err with
  | Fatal => [(t, LogError err); (t, Exit)]
  | Mute true => []
  | Mute false => [(t, LogError err)]
  end.

(** [isLocalPattern && pattern.$nowait ? (...input) => { ... }] *)
Definition executor_nowait (c : config) (isDebugEnabled slowTimeout : value)
           (method : handler) (input : obj) : envelope :=
  match call method input with
  | Throws e => Threw e
  | done =>
      let response := if truthy isDebugEnabled then VObj debugStorage
                      else VUndefined in
      Promised {| result := Resolved 0 response;
                  events := doPostOperations slowTimeout input 0
                            ++ match done with
                               | Settles t (Rejects err) => detached_catch c t err
                               | _ => []
                               end |}
  end.

(** The [catch] block of the awaiting executor. *)
Definition awaited_catch (c : config) (slowTimeout : value) (input : obj)
           (t : nat) (err : error) : run :=
  match errorHandler (terminateOn_ c) err with
  | Fatal => {| result := Exited t;
                events := [(t, Classify err); (t, LogError err); (t, Exit)] |}
  | Mute true => {| result := Resolved t VNull;
                    events := (t, Classify err)
                              :: doPostOperations slowTimeout input t |}
  | Mute false => {| result := Rejected t err; events := [(t, Classify err)] |}
  end.

(** [: async (...input) => { ... }] *)
Definition executor_await (c : config) (slowTimeout : value)
           (method : handler) (input : obj) : envelope :=
  match call method input with
  | Throws err => Promised (awaited_catch c slowTimeout input 0 err)
  | Settles t (Rejects err) => Promised (awaited_catch c slowTimeout input t err)
  | Settles t (Fulfils v) =>
      Promised {| result := Resolved t
                              match v with
                              | VObj fields => VObj (assign fields [debugStorage])
                              | _ => v
                              end;
                  events := doPostOperations slowTimeout input t |}
  | Pending => Promised {| result := Unsettled; events := [] |}
  end.

Definition rejected_now (e : error) (ev : timeline) : run :=
  {| result := Rejected 0 e; events := ev |}.

(** [pattern.$timeout || this.timeout] *)
Definition effective_timeout (i : instance) (pattern : obj) : value :=
  js_or (prop pattern (lit "$timeout")) (this_timeout i).

(** [ld.assign({}, objectify(_pattern), ...payloads)] *)
Definition compose (_pattern : value) (payloads : list obj) : obj :=
  assign [] (entries (Utils.objectify _pattern) :: payloads).

(** The method a matched payload stands for, if there is one. *)
Definition select_method (i : instance) (p : payload) : option handler :=
  if str_eqb (type p) (lit "local") then Some (handler_of p)
  else match registered (this_transport i) (type p) with
       | Some tr => option_map HFun (send tr)
       | None => None
       end.

(** [executor(pattern)] for the executor [act] picks. *)
Definition execute (i : instance) (pattern : obj) (p : payload) (method : handler)
  : envelope :=
  let slowTimeout := js_or (slowPatternTimeout (conf i)) (prop pattern (lit "$slow")) in
  let isDebugEnabled := js_or (prop pattern (lit "$debug")) (debug (conf i)) in
  if str_eqb (type p) (lit "local") && truthy (prop pattern (lit "$nowait"))
  then executor_nowait (conf i) isDebugEnabled slowTimeout method pattern
  else executor_await (conf i) slowTimeout method pattern.

(** [act(_pattern, ...payloads)]: an absent first argument is
    [VUndefined]. *)
Definition act_run (i : instance) (_pattern : value) (payloads : list obj) : run :=
  if negb (truthy _pattern) then rejected_now PatternNotSpecified [] else
  let pattern := compose _pattern payloads in
  let timeout := effective_timeout i pattern in
  let localOnly := truthy (prop pattern (lit "$local")) in
  let looked := [(0, Lookup localOnly pattern)] in
  match Index.lookup (matchOrder (conf i))
                     (if localOnly then pmLocal i else pm i) pattern with
  | None => rejected_now (PatternNotFound pattern) looked
  | Some matchResult =>
      let p := snd matchResult in
      match select_method i p with
      | None => rejected_now (TransportNotExists (type p)) looked
      | Some method =>
          let invoked := looked ++ [(0, Invoke (type p) pattern)] in
          match execute i pattern p method with
          | Threw e => rejected_now e invoked
          | Promised r =>
              let r' := if negb (truthy timeout) then r
                        else race timeout pattern r in
              {| result := result r'; events := invoked ++ events r' |}
          end
      end
  end.

(** [act] assigns to none of [pm], [pmLocal], [timeout] and [transport]:
    the instance afterwards is the instance before. *)
Definition act (i : instance) (_pattern : value) (payloads : list obj)
  : run * instance :=
  (act_run i _pattern payloads, i).

End Act.

Definition connect (i : instance) : timeline :=
  runMethodsParallel (this_transport i) (lit "connect").

Definition disconnect (i : instance) : timeline :=
  runMethodsParallel (this_transport i) (lit "disconnect").

Definition listen (i : instance) : timeline :=
  runMethodsParallel (this_transport i) (lit "listen").

Definition close (i : instance) : timeline :=
  runMethodsParallel (this_transport i) (lit "close").

End Bishop.

(* ================================================================== *)
(** * A second revision of the dispatcher instance *)
(* ================================================================== *)

Module BishopAlt.

Record config : Type := {
  matchOrder : Index.order;
  timeout : value;
  terminateOn_ : terminateOn
}.

Definition defaultConfig : config := {|
  matchOrder := Index.Insertion;
  timeout := VNum 500;
  terminateOn_ := Names [lit "ReferenceError"; lit "RangeError";
                         lit "SyntaxError"; lit "TypeError"]
|}.

Record instance : Type := {
  conf : config;
  pm : Index.t payload;
  pmLocal : Index.t payload;
  this_timeout : value;
  this_transport : registry
}.

Definition add (i : instance) (_pattern : value) (h : handler) : instance :=
  let type := match h with HFun _ => lit "local" | HName name => name end in
  let pattern := entries (Utils.objectify _pattern) in
  let payload := {| type := type; handler_of := h |} in
  {| conf := conf i;
     pm := Index.add (pm i) pattern payload;
     pmLocal := if str_eqb type (lit "local")
                then Index.add (pmLocal i) pattern payload
                else pmLocal i;
     this_timeout := this_timeout i;
     this_transport := this_transport i |}.

(** What [errorHandler(err)] comes to here. The default classifier reads
    [this.log] inside arrow functions of the module body, where [this] is
    not the instance: for a listed name it fails with a [TypeError] of its
    own before it logs or exits. *)
Definition errorHandler (t : terminateOn) (err : error) : error + bool :=
  match t with
  | Custom f => inr (truthy (f err))
  | Names names =>
      if existsb (str_eqb (error_name err)) names
      then inl (TypeError (lit "Cannot read property 'fatal' of undefined"))
      else inr false
  end.

Definition detached_catch (c : config) (t : nat) (err : error) : timeline :=
  (t, Classify err) ::
  match errorHandler (terminateOn_ c) err with
  | inr false => [(t, LogError err)]
  | _ => []
  end.

Definition executor_nowait (c : config) (method : handler) (input : obj)
  : envelope :=
  match call method input with
  | Throws e => Threw e
  | done =>
      Promised {| result := Resolved 0 VUndefined;
                  events := match done with
                            | Settles t (Rejects err) => detached_catch c t err
                            | _ => []
                            end |}
  end.

Definition executor_await (c : config) (method : handler) (input : obj)
  : envelope :=
  match call method input with
  | Throws e => Threw e
  | Settles t (Fulfils v) => Promised {| result := Resolved t v; events := [] |}
  | Settles t (Rejects err) =>
      Promised {| result := match errorHandler (terminateOn_ c) err with
                            | inl crash => Rejected t crash
                            | inr true => Resolved t VUndefined
                            | inr false => Rejected t err
                            end;
                  events := [(t, Classify err)] |}
  | Pending => Promised {| result := Unsettled; events := [] |}
  end.

Definition select_method (i : instance) (p : payload) : option handler :=
  if str_eqb (type p) (lit "local") then Some (handler_of p)
  else match registered (this_transport i) (type p) with
       | Some tr => option_map HFun (send tr)
       | None => None
       end.

(** [ld.assign({}, objectify(_pattern), payload)] *)
Definition compose (_pattern : value) (payload : obj) : obj :=
  assign [] [entries (Utils.objectify _pattern); payload].

(** [pattern.$timeout || this.timeout] *)
Definition effective_timeout (i : instance) (pattern : obj) : value :=
  js_or (prop pattern (lit "$timeout")) (this_timeout i).

(** [executor(pattern)] for the executor [act] picks. *)
Definition execute (i : instance) (pattern : obj) (p : payload) (method : handler)
  : envelope :=
  if str_eqb (type p) (lit "local") && truthy (prop pattern (lit "$nowait"))
  then executor_nowait (conf i) method pattern
  else executor_await (conf i) method pattern.

(** [act(_pattern, payload = {})] *)
Definition act_run (i : instance) (_pattern : value) (payload : obj) : run :=
  if negb (truthy _pattern)
  then {| result := Rejected 0 PatternNotSpecified; events := [] |} else
  let pattern := compose _pattern payload in
  let localOnly := truthy (prop pattern (lit "$local")) in
  let looked := [(0, Lookup localOnly pattern)] in
  match Index.lookup (matchOrder (conf i))
                     (if localOnly then pmLocal i else pm i) pattern with
  | None => {| result := Rejected 0 (PatternNotFound pattern); events := looked |}
  | Some matchResult =>
      let p := snd matchResult in
      match select_method i p with
      | None => {| result := Rejected 0 (TransportNotExists (type p));
                   events := looked |}
      | Some method =>
          let invoked := looked ++ [(0, Invoke (type p) pattern)] in
          let timeout := effective_timeout i pattern in
          match execute i pattern p method with
          | Threw e => {| result := Rejected 0 e; events := invoked |}
          | Promised r =>
              let r' := if negb (truthy timeout) then r
                        else race timeout pattern r in
              {| result := result r'; events := invoked ++ events r' |}
          end
      end
  end.

Definition act (i : instance) (_pattern : value) (payload : obj)
  : run * instance :=
  (act_run i _pattern payload, i).

Definition connect (i : instance) : timeline :=
  runMethodsParallel (this_transport i) (lit "connect").

(** [// disconnect from all remote instances] *)
Definition disconnect (i : instance) : timeline :=
  runMethodsParallel (this_transport i) (lit "connect").

Definition listen (i : instance) : timeline :=
  runMethodsParallel (this_transport i) (lit "listen").

Definition close (i : instance) : timeline :=
  runMethodsParallel (this_transport i) (lit "close").

End BishopAlt.


(* ================================================================== *)
(** * Objects in a store *)
(* ================================================================== *)

(** The caller's pattern is an object the caller keeps a reference to. To
    say what [add] and [act] leave of it, objects live in a store here and
    values refer to them by location; nested objects are shared the way
    references share them. *)

Module Store.

(** A location is a number. *)
Abbreviation loc := nat (only parsing).

(** A value as the program holds it: an atom, or a reference. *)
Inductive hval : Type :=
| HUndefined
| HNull
| HBool (b : bool)
| HNum (n : Z)
| HStr (s : str)
| HRegExp (source : str)
| HRef (l : loc).

Definition hobj : Type := list (str * hval).

(** The object at location [l] is the [l]-th of the list. *)
Definition heap : Type := list hobj.

Definition deref (h : heap) (l : loc) : option hobj := nth_error h l.

(** A new object: it gets the next location. *)
Definition alloc (h : heap) (o : hobj) : loc * heap := (List.length h, h ++ [o]).

(** The fields of the object at [l] are replaced. *)
Fixpoint store (h : heap) (l : loc) (o : hobj) : heap :=
  match h, l with
  | [], _ => []
  | _ :: r, 0 => o :: r
  | c :: r, S l' => c :: store r l' o
  end.

(** The objects cloned so far, each with its clone: the [stack] that
    [_.cloneDeep] threads through the traversal, which lets it end on
    cyclic objects and keep shared parts shared. *)
Definition stack : Type := list (loc * loc).

Fixpoint stacked (s : stack) (l : loc) : option loc :=
  match s with
  | [] => None
  | (x, y) :: r => if Nat.eqb x l then Some y else stacked r l
  end.

Section Fields.

Variable clone : heap -> stack -> hval -> option (hval * heap * stack).

(** The fields of an object cloned one after the other. *)
Fixpoint cloneFields (fs : hobj) (h : heap) (s : stack)
  : option (hobj * heap * stack) :=
  match fs with
  | [] => Some ([], h, s)
  | (k, subValue) :: r =>
      match clone h s subValue with
      | Some (v', h1, s1) =>
          match cloneFields r h1 s1 with
          | Some (r', h2, s2) => Some ((k, v') :: r', h2, s2)
          | None => None
          end
      | None => None
      end
  end.

End Fields.

(** The recursion of [_.cloneDeep]. An object met before gives the clone
    made then. A new one gets a fresh empty object, registered on the stack
    before its fields are cloned; the cloned fields are written to it one
    by one, and as nothing reads it meanwhile they are written together
    here. [None]: out of fuel, or a reference to no object. *)
Fixpoint baseClone (fuel : nat) (h : heap) (s : stack) (v : hval)
  : option (hval * heap * stack) :=
  match v with
  | HRef l =>
      match stacked s l with
      | Some l' => Some (HRef l', h, s)
      | None =>
          match fuel, deref h l with
          | S n, Some o =>
              let (l', h0) := alloc h [] in
              match cloneFields (baseClone n) o h0 ((l, l') :: s) with
              | Some (o', h', s') => Some (HRef l', store h' l' o', s')
              | None => None
              end
          | _, _ => None
          end
      end
  | _ => Some (v, h, s)
  end.

(** [_.cloneDeep(v)]: one unit of fuel for each object there is, and
    one more. *)
Definition cloneDeep (h : heap) (v : hval) : option (hval * heap) :=
  match baseClone (S (List.length h)) h [] v with
  | Some (v', h', _) => Some (v', h')
  | None => None
  end.

(** An atom of a parsed pattern as a stored value; [text2obj] yields
    strings and regexes only. *)
Definition inject (v : value) : hval :=
  match v with
  | VUndefined => HUndefined
  | VNull => HNull
  | VBool b => HBool b
  | VNum n => HNum n
  | VStr s => HStr s
  | VRegExp src => HRegExp src
  | VObj _ => HUndefined
  end.

(** [objectify(obj)]: parsing a string builds a new object. *)
Definition objectify (h : heap) (item : hval) : option (hval * heap) :=
  match item with
  | HStr s =>
      let (l, h') := alloc h (map (fun kv => (fst kv, inject (snd kv)))
                                  (Utils.text2obj s)) in
      Some (HRef l, h')
  | _ => cloneDeep h item
  end.

(** The own fields of what [v] refers to. *)
Definition own (h : heap) (v : hval) : hobj :=
  match v with
  | HRef l => match deref h l with Some o => o | None => [] end
  | _ => []
  end.

(** [ld.assign({}, ...sources)]: a new object that receives the fields of
    the sources, values copied as they are, references included. *)
Definition assign_new (h : heap) (sources : list hval) : hval * heap :=
  let (l, h') :=
    alloc h (fold_left
               (fun o src => fold_left (fun o kv => put o (fst kv) (snd kv))
                                       (own h src) o)
               sources []) in
  (HRef l, h').

(** [ld.assign({}, objectify(_pattern), ...payloads)], the payloads being
    objects. *)
Definition compose (h : heap) (_pattern : hval) (payloads : list loc)
  : option (hval * heap) :=
  match objectify h _pattern with
  | Some (partial, h1) => Some (assign_new h1 (partial :: map HRef payloads))
  | None => None
  end.

(** What is reachable from [v] down to depth [fuel], as a value tree. *)
Fixpoint reify (fuel : nat) (h : heap) (v : hval) : value :=
  match v with
  | HUndefined => VUndefined
  | HNull => VNull
  | HBool b => VBool b
  | HNum n => VNum n
  | HStr s => VStr s
  | HRegExp src => VRegExp src
  | HRef l =>
      match fuel with
      | 0 => VUndefined
      | S n =>
          match deref h l with
          | Some o => VObj (map (fun kv => (fst kv, reify n h (snd kv))) o)
          | None => VUndefined
          end
      end
  end.

(** The pattern [v] refers to, as the index reads it. *)
Definition view (h : heap) (v : hval) : obj :=
  entries (reify (List.length h) h v).

(** The indices hold references to the patterns they were given. *)
Record instance : Type := {
  conf : Bishop.config;
  pm : list (loc * payload);
  pmLocal : list (loc * payload)
}.

Definition indexed (h : heap) (idx : list (loc * payload)) : Index.t payload :=
  map (fun e => (view h (HRef (fst e)), snd e)) idx.

(** [{ type, handler }] for the handler given to [add]. *)
Definition payload_for (hd : handler) : payload :=
  {| type := match hd with HFun _ => lit "local" | HName name => name end;
     handler_of := hd |}.

(** The probe of [forbidSameRouteNames]. *)
Definition exists_already (h : heap) (i : instance) (pattern : obj) : bool :=
  truthy (Bishop.forbidSameRouteNames (conf i))
  && match Index.lookup (Bishop.matchOrder (conf i)) (indexed h (pm i)) pattern with
     | Some foundPattern => isEqual (VObj (fst foundPattern)) (VObj pattern)
     | None => false
     end.

(** [add(_pattern, handler)] for a pattern given as an object or as a
    string: the error thrown, if any, the instance and the store
    afterwards. [None]: the clone could not be made, or the argument is
    neither an object nor a string. *)
Definition add (h : heap) (i : instance) (_pattern : hval) (hd : handler)
  : option (option error * instance * heap) :=
  match objectify h _pattern with
  | Some (HRef l, h') =>
      let payload := payload_for hd in
      let pattern := view h' (HRef l) in
      if exists_already h' i pattern
      then Some (Some (DuplicatePattern pattern), i, h')
      else Some (None,
                 {| conf := conf i;
                    pm := pm i ++ [(l, payload)];
                    pmLocal := if str_eqb (type payload) (lit "local")
                               then pmLocal i ++ [(l, payload)]
                               else pmLocal i |},
                 h')
  | _ => None
  end.

(** A reference below [n], or an atom. *)
Definition in_range (n : nat) (v : hval) : bool :=
  match v with
  | HRef l => Nat.ltb l n
  | _ => true
  end.

(** Every object has each of its keys once, and every reference in the
    store is to an object of the store. *)
Definition well_formed (h : heap) : bool :=
  forallb (fun o => distinct (keys o)
                    && forallb (fun kv => in_range (List.length h) (snd kv)) o) h.

(** What the payloads of a call give for the key [k]: the last one that
    has the key decides. *)
Definition overriding (h : heap) (payloads : list loc) (k : str) : option hval :=
  fold_left (fun given q => match get (own h (HRef q)) k with
                            | Some v => Some v
                            | None => given
                            end) payloads None.

(** [v'] is [v] with every reference replaced by the clone the stack
    gives for it. *)
Definition renamed (s : stack) (v v' : hval) : Prop :=
  match v with
  | HRef l => exists l', v' = HRef l' /\ In (l, l') s
  | _ => v' = v
  end.

(** [o'] has the fields of [o], in order, with the values renamed. *)
Definition copy_of (s : stack) (o o' : hobj) : Prop :=
  Forall2 (fun kv kv' => fst kv' = fst kv /\ renamed s (snd kv) (snd kv')) o o'.

(** The stack [s] maps objects of [h0] to objects made since in [h'],
    each the copy of its original with the references renamed. *)
Definition clone_map (h0 : heap) (s : stack) (h' : heap) : Prop :=
  forall l l', In (l, l') s ->
    l < List.length h0
    /\ List.length h0 <= l' < List.length h'
    /\ exists o o', deref h0 l = Some o /\ deref h' l' = Some o' /\ copy_of s o o'.

(** [h''] has kept the objects made since [h0] as they are in [h']: the
    objects of [h0] may have changed and new ones may have come. *)
Definition clones_untouched (h0 h' h'' : heap) : Prop :=
  forall y, List.length h0 <= y < List.length h' -> deref h'' y = deref h' y.

(** The invariant of the traversal that starts in the store [h0]: the
    store has only grown; the stack maps objects of the start to objects
    made since, one clone each; a clone is either still being filled by a
    pending call or holds the renamed fields of its original. *)
Record invariant (h0 h : heap) (s : stack) (pending : list loc) : Prop := {
  inv_grown : exists ext, h = h0 ++ ext;
  inv_keys : NoDup (map fst s);
  inv_range : forall l l', In (l, l') s ->
                           l < List.length h0 /\ List.length h0 <= l' < List.length h;
  inv_filled : forall l l', In (l, l') s ->
                            In l' pending
                            \/ exists o o', deref h0 l = Some o
                                            /\ deref h l' = Some o'
                                            /\ copy_of s o o'
}.

(** What a call of the traversal achieves when [budget] objects may still
    be met. *)
Definition achieves (h0 : heap)
           (clone : heap -> stack -> hval -> option (hval * heap * stack))
           (budget : nat) : Prop :=
  forall h s pending v,
    invariant h0 h s pending ->
    in_range (List.length h0) v = true ->
    List.length h0 < budget + List.length s ->
    exists v' ext s_new,
      clone h s v = Some (v', h ++ ext, s_new ++ s)
      /\ invariant h0 (h ++ ext) (s_new ++ s) pending
      /\ renamed (s_new ++ s) v v'
      /\ (forall x y, In (x, y) s_new -> List.length h <= y).

End Store.
(* ================================================================== *)
(** * [text2obj] on the objects and regular expressions of the engine *)
(* ================================================================== *)

Module Engine.

(** What [text2obj] returns: an object with the own fields written to it,
    or an object whose prototype a piece has replaced by a regular
    expression, of which no more is told. *)
Inductive built : Type :=
| Plain (o : obj)
| Reprototyped.

(** [prev[key] = value] on an object made by [{}]: [__proto__] names the
    accessor of [Object.prototype], whose setter makes an object or [null]
    the prototype and ignores every other value; any other name becomes, or
    stays, an own field. *)
Definition assign_field (prev : built) (key : str) (v : value) : built :=
  match prev with
  | Reprototyped => Reprototyped
  | Plain o =>
      if str_eqb key (lit "__proto__")
      then match v with
           | VRegExp _ | VObj _ | VNull => Reprototyped
           | VUndefined | VBool _ | VNum _ | VStr _ => Plain o
           end
      else Plain (put o key v)
  end.

Section WithEngine.

(** [new RegExp(text)]: the source of the expression built, [None] where
    the text is no regular expression and the call throws a
    [SyntaxError]. *)
Variable newRegExp : str -> option str.

(** The body of the reducer of [text2obj] up to the assignment: the key
    and the value of one comma-separated piece, [None] where
    [new RegExp] throws. *)
Definition segment (cur : str) : option (str * value) :=
  let parts := split_on ":" (trim cur) in
  let key := hd [] parts in
  let value := match tl parts with
               | [] => toString Utils.regExpAll
               | v :: _ => v
               end in
  let trimmedValue := trim value in
  match trimmedValue with
  | "/"%char :: _ =>
      match newRegExp (slice_1_m1 trimmedValue) with
      | Some source => Some (trim key, VRegExp source)
      | None => None
      end
  | _ => Some (trim key, VStr trimmedValue)
  end.

(** A value the reducer writes: a trimmed string that does not start with
    a slash, or an expression the engine built. *)
Definition written (v : value) : Prop :=
  (exists s, v = VStr s /\ trim s = s /\ hd_error s <> Some "/"%char)
  \/ (exists text source, newRegExp text = Some source /\ v = VRegExp source).

(** One turn of the reducer; [None] is the [SyntaxError] thrown, which
    ends the call. *)
Definition step (prev : option built) (cur : str) : option built :=
  match prev with
  | None => None
  | Some b =>
      match segment cur with
      | Some (key, v) => Some (assign_field b key v)
      | None => None
      end
  end.

(** [text2obj(input)]: the object returned, [None] for the [SyntaxError]
    thrown. *)
Definition text2obj (input : str) : option built :=
  fold_left step (split_on "," input) (Some (Plain [])).

End WithEngine.

End Engine.
(* ================================================================== *)
(** * Reference readings of the parser and splitter *)
(* ================================================================== *)

(** The binding a left-to-right merge leaves for [k]: the last one. *)
Fixpoint last_binding (l : obj) (k : str) : option value :=
  match l with
  | [] => None
  | (k', v) :: r =>
      match last_binding r k with
      | Some w => Some w
      | None => if str_eq_dec k' k then Some v else None
      end
  end.

(** What a part of [split] contributes: a string is parsed, an object
    gives its own fields. *)
Definition part_entries (item : value) : obj :=
  match item with
  | VStr s => Utils.text2obj s
  | _ => entries item
  end.

(** All fields of all parts, left to right. *)
Definition merged (args : list value) : obj := flat_map part_entries args.

(** One [key[:value]] segment of the pattern string grammar. *)
Inductive seg : Type :=
| KeyOnly (k : str)
| KeyValue (k v : str).

Definition render_seg (s : seg) : str :=
  match s with
  | KeyOnly k => k
  | KeyValue k v => k ++ ":"%char :: v
  end.

(** [s] holds no occurrence of [c]. *)
Definition lacks (c : ascii) (s : str) : bool :=
  negb (existsb (Ascii.eqb c) s).

Definition seg_ok (s : seg) : bool :=
  match s with
  | KeyOnly k => lacks "," k && lacks ":" k
  | KeyValue k v => (lacks "," k && lacks ":" k) && (lacks "," v && lacks ":" v)
  end.

(** A value read as the specification words it: a regex literal exactly
    when the text both starts and ends with a slash. *)
Definition slash_delimited (t : str) : value :=
  match t with
  | "/"%char :: _ =>
      match last t " "%char with
      | "/"%char => VRegExp (slice_1_m1 t)
      | _ => VStr t
      end
  | _ => VStr t
  end.

(** A value read on its first character alone. *)
Definition slash_led (t : str) : value :=
  match t with
  | "/"%char :: _ => VRegExp (slice_1_m1 t)
  | _ => VStr t
  end.

Definition parsed_seg (s : seg) : str * value :=
  match s with
  | KeyOnly k => (trim k, Utils.regExpAll)
  | KeyValue k v => (trim k, slash_led (trim v))
  end.

Definition put_seg (o : obj) (s : seg) : obj :=
  put o (fst (parsed_seg s)) (snd (parsed_seg s)).

(** The segment the specification's reading of a value would yield. *)
Definition specified_seg (s : seg) : str * value :=
  match s with
  | KeyOnly k => (trim k, Utils.regExpAll)
  | KeyValue k v => (trim k, slash_delimited (trim v))
  end.



(** A field whose rendering the parser reads back: neither key nor value
    holds a separator, a string value is not empty and does not start,
    once trimmed, with a slash. *)
Definition flat_field (kv : str * value) : bool :=
  lacks "," (fst kv) && lacks ":" (fst kv) &&
  match snd kv with
  | VStr s =>
      lacks "," s && lacks ":" s && truthy (VStr s) &&
      match trim s with
      | "/"%char :: _ => false
      | _ => true
      end
  | VRegExp src => lacks "," src && lacks ":" src
  | _ => false
  end.


Definition free_of (c : ascii) (s : str) : Prop := ~ In c s.

(** What a property lookup gives once the bindings [l] were written over
    an object where it gave [before]. *)
Definition overlay (l : obj) (k : str) (before : option value) : option value :=
  match last_binding l k with
  | Some w => Some w
  | None => before
  end.

(** A pattern as the specification has it: each key once, no meta key,
    string values. *)
Definition plain (p : obj) : bool :=
  distinct (keys p)
  && forallb (fun kv => negb (is_meta (fst kv))
                        && match snd kv with VStr _ => true | _ => false end) p.

(** Invariant (I3): no entry of the index holds a pattern equal to that
    of a later entry. *)
Definition one_entry_per_pattern (P : Type) (idx : Index.t P) : Prop :=
  forall n m e f,
    n < m -> nth_error idx n = Some e -> nth_error idx m = Some f ->
    isEqual (VObj (fst e)) (VObj (fst f)) = false.

(* ================================================================== *)
(** * Sample registrations *)
(* ================================================================== *)

(** A registration used in the examples: one local handler under
    [{role: 'a'}] that fulfils with [5] after 200 ms. *)
Definition slow200 : fn := fun _ => Settles 200 (Fulfils (VNum 5)).

Definition role_a : value := VObj [(lit "role", VStr (lit "a"))].

Definition sample_instance : Bishop.instance :=
  snd (Bishop.add (Bishop.create Bishop.defaultConfig) role_a (HFun slow200)).

(** A local handler whose promise is rejected after 5 ms. *)
Definition boom : error := Raised (lit "Error") (lit "boom").

Definition failing5 : fn := fun _ => Settles 5 (Rejects boom).

Definition role_n : value := VObj [(lit "role", VStr (lit "n"))].

Definition nowait_call : value :=
  VObj [(lit "role", VStr (lit "n")); (lit "$nowait", VBool true)].

Definition failing_instance (c : Bishop.config) : Bishop.instance :=
  snd (Bishop.add (Bishop.create c) role_n (HFun failing5)).

(** A configuration whose classifier mutes every error. *)
Definition muting_config : Bishop.config := {|
  Bishop.forbidSameRouteNames := VBool false;
  Bishop.matchOrder := Index.Depth;
  Bishop.timeout := VNum 500;
  Bishop.debug := VBool false;
  Bishop.slowPatternTimeout := VNull;
  Bishop.terminateOn_ := Custom (fun _ => VBool true)
|}.

(** A transport with a [connect] and a [disconnect] method. *)
Definition http_client : transport :=
  {| send := None; methods := [lit "connect"; lit "disconnect"];
     transport_options := [] |}.

Definition connected_instance : BishopAlt.instance := {|
  BishopAlt.conf := BishopAlt.defaultConfig;
  BishopAlt.pm := [];
  BishopAlt.pmLocal := [];
  BishopAlt.this_timeout := VNum 500;
  BishopAlt.this_transport := [(lit "http-client", http_client)]
|}.

Definition forbidding (o : Index.order) : Bishop.config := {|
  Bishop.forbidSameRouteNames := VBool true;
  Bishop.matchOrder := o;
  Bishop.timeout := VNum 500;
  Bishop.debug := VBool false;
  Bishop.slowPatternTimeout := VNull;
  Bishop.terminateOn_ := Names []
|}.

Definition pattern_a : value := VObj [(lit "a", VStr (lit "1"))].

Definition pattern_ab : value :=
  VObj [(lit "a", VStr (lit "1")); (lit "b", VStr (lit "2"))].

Definition echo : fn := fun p => Settles 0 (Fulfils (VObj p)).

(** The instance after [add({a:'1'}, echo)] and [add({a:'1', b:'2'}, echo)]. *)
Definition two_routes (o : Index.order) : Bishop.instance :=
  snd (Bishop.add (snd (Bishop.add (Bishop.create (forbidding o))
                                   pattern_a (HFun echo)))
                  pattern_ab (HFun echo)).

(** A transport storage with one transport that answers after 10 ms and
    declares a timeout of one second. *)
Definition remote_echo : fn := fun p => Settles 10 (Fulfils (VObj p)).

Definition sample_storage : Utils.storage :=
  match Utils.registerTransport [] (lit "http-client") (Some remote_echo)
                                [(lit "timeout", VNum 1000)] with
  | inr s => s
  | inl _ => []
  end.

(** A store with the caller's pattern [{role: 'a', where: {x: 1}}] at
    location 0, its nested object at 1, and a payload [{y: 2}] at 2. *)
Definition caller_store : Store.heap :=
  [ [(lit "role", Store.HStr (lit "a")); (lit "where", Store.HRef 1)];
    [(lit "x", Store.HNum 1)];
    [(lit "y", Store.HNum 2)] ].

Definition empty_instance : Store.instance :=
  {| Store.conf := Bishop.defaultConfig; Store.pm := []; Store.pmLocal := [] |}.

(** The same registrations in the other revision of the dispatcher. *)
Definition alt_instance (c : BishopAlt.config) : BishopAlt.instance := {|
  BishopAlt.conf := c;
  BishopAlt.pm := [];
  BishopAlt.pmLocal := [];
  BishopAlt.this_timeout := BishopAlt.timeout c;
  BishopAlt.this_transport := []
|}.

Definition slow_alt_instance : BishopAlt.instance :=
  BishopAlt.add (alt_instance BishopAlt.defaultConfig) role_a (HFun slow200).

Definition muting_alt_instance : BishopAlt.instance :=
  BishopAlt.add
    (alt_instance {| BishopAlt.matchOrder := Index.Insertion;
                     BishopAlt.timeout := VNum 500;
                     BishopAlt.terminateOn_ := Custom (fun _ => VBool true) |})
    role_n (HFun failing5).




(* ================================================================== *)
(** * src/utils.js: routing keys and registration *)
(* ================================================================== *)

(** [a <= b] in the order of [Array.prototype.sort] without a comparator:
    character by character, by code. *)
Fixpoint str_leb (a b : str) : bool :=
  match a, b with
  | [], _ => true
  | _ :: _, [] => false
  | x :: a', y :: b' =>
      if Nat.ltb (nat_of_ascii x) (nat_of_ascii y) then true
      else if Nat.ltb (nat_of_ascii y) (nat_of_ascii x) then false
      else str_leb a' b'
  end.

Fixpoint insert_sorted (k : str) (l : list str) : list str :=
  match l with
  | [] => [k]
  | x :: r => if str_leb k x then k :: l else x :: insert_sorted k r
  end.

(** [keys.sort()] *)
Fixpoint sort (l : list str) : list str :=
  match l with
  | [] => []
  | k :: r => insert_sorted k (sort r)
  end.

Module Routing.

(** One item of the routing key: [`${key}.${value}`], the value being the
    property when it is a string and the wildcard otherwise. *)
Definition routing_item (pattern : obj) (replaceWild : str) (key : str) : str :=
  let value := match prop pattern key with
               | VStr s => s
               | _ => replaceWild
               end in
  key ++ "."%char :: value.

(** [routingKeyFromPattern(pattern, replaceWild = '*')] *)
Definition routingKeyFromPattern (pattern : obj) (replaceWild : str) : list str :=
  map (routing_item pattern replaceWild) (sort (keys pattern)).

End Routing.

Module Registration.

(** What [registerRemoteTransport] keeps under a name. *)
Record remote : Type := { options : obj; wrapper : fn }.

Definition remotes : Type := list (str * remote).

(** The error of [registerRemoteTransport]:
    ['.register(remote): ... already exists']. *)
Inductive register_error : Type :=
| RemoteExists (name : str).

(** [registerRemoteTransport(remoteTransportsStorage, name, wrapper, options = {})]:
    the error thrown, or the storage afterwards. *)
Definition registerRemoteTransport (remoteTransportsStorage : remotes) (name : str)
           (w : fn) (opts : obj) : register_error + remotes :=
  match get remoteTransportsStorage name with
  | Some _ => inl (RemoteExists name)
  | None => inr (put remoteTransportsStorage name {| options := opts; wrapper := w |})
  end.

(** The storage as [createPayloadWrapper] reads it: it takes [request] and
    [options] of an entry, and an entry written by
    [registerRemoteTransport] has no [request]. *)
Definition as_read (rs : remotes) : Utils.storage :=
  map (fun e => (fst e, {| Utils.request := None;
                           Utils.options := options (snd e) |})) rs.

(** The first argument of [registerInMatcher]: an array
    [[pattern, options]], or a pattern still to be split. *)
Inductive message : Type :=
| Pair (pattern options : obj)
| Whole (pattern : value).

(** [const [ pattern, options ] = ld.isArray(message) ? message : split(message)] *)
Definition pattern_and_options (m : message) : obj * obj :=
  match m with
  | Pair pattern opts => (pattern, opts)
  | Whole v => let '(msg, meta, _) := Utils.split [v] in (msg, meta)
  end.

(** [registerInMatcher(matcher, message, payload)]: the matcher keeps
    [[ payload, options ]] under the pattern. *)
Definition registerInMatcher (P : Type) (matcher : Index.t (P * obj))
           (m : message) (p : P) : Index.t (P * obj) :=
  let (pattern, opts) := pattern_and_options m in
  Index.add matcher pattern (p, opts).

(** [registerGlobal(globalQueue, payload)] *)
Definition registerGlobal (P : Type) (globalQueue : list (P * obj)) (p : P)
  : list (P * obj) :=
  globalQueue ++ [(p, [])].

End Registration.
(* ================================================================== *)
(** * src/utils.js: the execution chain and its listeners *)
(* ================================================================== *)

Module Chain.

(** The headers object of a call, by the properties the chain runner and
    the notifier read: [break], [notify] (absent, or the array of names
    [normalizeHeaders] leaves) and [pattern]. One such object is shared by
    all handlers of a chain, which may write to it. *)
Record headers : Type := {
  break_ : value;
  notify : option (list str);
  pattern : obj
}.

(** What [handlerAsync(input, headers)] comes to: the value its promise is
    fulfilled with, the error it throws or rejects with (the errors of
    [error], none of which is a [CancellationError]), or a promise that
    never settles. *)
Inductive answer : Type :=
| Returns (v : value)
| Fails (e : error)
| Hangs.

(** A handler: its answer, and [headers] as it leaves them. *)
Definition handlerAsync : Type := value -> headers -> answer * headers.

(** [[ handlerAsync, options ]] *)
Definition chainItem : Type := handlerAsync * obj.

(** A call one of the listeners receives: the emitter under an event name,
    or the [notify] method of a transport. *)
Inductive notice : Type :=
| Emit (event : str) (message : value)
| Forward (transport : str) (message : value).

(** [`${routingKeyFromPattern(headers.pattern, '#').join('.')}`] *)
Definition uniqueEvent (h : headers) : str :=
  join (lit ".") (Routing.routingKeyFromPattern (pattern h) (lit "#")).

(** [notifyListenersAboutEvent({ message, headers }, transports, globalEmitter)]:
    the calls it makes, in order, where every transport it names has a
    [notify] method and no listener throws. *)
Definition notifyListenersAboutEvent (message : value) (h : headers) : list notice :=
  match notify h with
  | None => []
  | Some names =>
      (if existsb (str_eqb (lit "local")) names
       then [Emit (uniqueEvent h) message] else [])
      ++ map (fun transportName => Forward transportName message)
             (filter (fun transportName => negb (str_eqb transportName (lit "local")))
                     names)
  end.

(** [headers.notify] as a caller may give it: an array of names, or any
    other value. *)
Inductive notify_option : Type :=
| Listed (names : list str)
| Other (v : value).

(** The part of [normalizeHeaders] that brings [headers.notify] to an
    array of names: [true], ['true'] and a regular expression stand for
    ['local']; another text is split at its commas, the pieces trimmed and
    the empty ones dropped; a falsy value is left as it is ([None]); any
    other value has no [split] method, and the call throws. *)
Definition normalizeNotify (given : notify_option) : error + option (list str) :=
  match given with
  | Listed names => inr (Some names)
  | Other v =>
      if negb (truthy v) then inr None
      else
        match v with
        | VBool _ => inr (Some [lit "local"])
        | VRegExp _ => inr (Some [lit "local"])
        | VStr s =>
            if str_eqb s (lit "true") then inr (Some [lit "local"])
            else inr (Some (filter (fun item => truthy (VStr item))
                                   (map trim (split_on "," s))))
        | _ => inl (TypeError (lit "headers.notify.split is not a function"))
        end
  end.

(** How the reduction over the chain ends: every handler has run; a
    [CancellationError] was thrown on [headers.break]; a handler failed;
    or a handler never settled. *)
Inductive stop : Type :=
| Completed (message : value) (h : headers)
| Cancelled (message : value) (h : headers)
| Failed (e : error) (h : headers)
| Hung.

(** [Promise.reduce(executionChain, (input, chainItem) => { ... }, pattern)]:
    how it ends, and the handlers called, by position in the chain
    counted from [position], each with its input. *)
Fixpoint reduce (executionChain : list chainItem) (input : value) (h : headers)
         (position : nat) : stop * list (nat * value) :=
  match executionChain with
  | [] => (Completed input h, [])
  | (handler, _) :: rest =>
      if truthy (break_ h) then (Cancelled input h, [])
      else
        match handler input h with
        | (Returns output, h') =>
            let (s, calls) := reduce rest output h' (S position) in
            (s, (position, input) :: calls)
        | (Fails e, h') => (Failed e h', [(position, input)])
        | (Hangs, _) => (Hung, [(position, input)])
        end
  end.

(** [{ message, headers }] *)
Record reply : Type := { message : value; headers_of : headers }.

(** What running a chain does: the promise is fulfilled with [reply], if
    it settles; [called] are the handlers invoked, [notices] the calls to
    listeners. *)
Record chain_run : Type := {
  replied : option reply;
  called : list (nat * value);
  notices : list notice
}.

(** [createChainRunnerPromise({ executionChain, pattern, headers, errorHandler, ... })()]:
    [errorHandler] is the classifier of the caller, whose return value
    stands for the message of a failed chain. *)
Definition createChainRunnerPromise (executionChain : list chainItem)
           (pattern : value) (h : headers) (errorHandler : error -> value)
  : chain_run :=
  let (s, calls) := reduce executionChain pattern h 0 in
  match s with
  | Completed message h' =>
      {| replied := Some {| message := message; headers_of := h' |};
         called := calls;
         notices := notifyListenersAboutEvent message h' |}
  | Cancelled message h' =>
      {| replied := Some {| message := message; headers_of := h' |};
         called := calls; notices := [] |}
  | Failed e h' =>
      {| replied := Some {| message := errorHandler e; headers_of := h' |};
         called := calls; notices := [] |}
  | Hung => {| replied := None; called := calls; notices := [] |}
  end.

End Chain.
(* ================================================================== *)
(** * The dispatcher instance: plugins and registrations in sequence *)
(* ================================================================== *)

Module Host.

(** The instance with the [routes] property [use] writes to. *)
Record host : Type := {
  inst : Bishop.instance;
  routes : list (str * obj)
}.

Definition create (c : Bishop.config) : host :=
  {| inst := Bishop.create c; routes := [] |}.

(** What a plugin returns, by the properties [use] reads ([type], [name],
    [routes], an absent [routes] being [None]) and those a transport is
    later used through. *)
Record data : Type := {
  data_type : value;
  name : value;
  data_routes : option obj;
  as_transport : transport
}.

(** What [await plugin(this, ...params)] comes to: the value returned,
    [None] for a falsy one, or the error thrown or rejected with. *)
Inductive answer : Type :=
| Gives (d : option data)
| Refuses (e : error).

(** A plugin, applied to its parameters: its answer and the instance as it
    leaves it. *)
Definition plugin : Type := host -> answer * host.

(** [v === 'text'] *)
Definition is_string (v : value) (text : str) : bool :=
  match v with
  | VStr s => str_eqb s text
  | _ => false
  end.

(** The errors of [use]. *)
Inductive use_error : Type :=
| FunctionExpected        (* 'unable to load plugin: function expected, but not found' *)
| NameExpected            (* 'transport plugins should return .name property' *)
| PluginFailed (e : error).

(** [this.transport[name] = data] *)
Definition install (h : host) (key : str) (tr : transport) : host :=
  {| inst := {| Bishop.conf := Bishop.conf (inst h);
                Bishop.pm := Bishop.pm (inst h);
                Bishop.pmLocal := Bishop.pmLocal (inst h);
                Bishop.this_timeout := Bishop.this_timeout (inst h);
                Bishop.this_transport := put (Bishop.this_transport (inst h)) key tr |};
     routes := routes h |}.

(** [this.routes[name] = this.routes[name] || {}; ld.assign(this.routes[name], routes)] *)
Definition merge_routes (h : host) (key : str) (r : obj) : host :=
  {| inst := inst h;
     routes := put (routes h) key
                   (assign (match get (routes h) key with
                            | Some known => known
                            | None => []
                            end) [r]) |}.

(** [use(path, ...params)], from the plugin [requirePlugin(path)] gives
    ([None] when it is not a function): the error thrown or the value
    returned, and the instance afterwards. *)
Definition use (h : host) (required : option plugin)
  : (use_error + option data) * host :=
  match required with
  | None => (inl FunctionExpected, h)
  | Some p =>
      match p h with
      | (Refuses e, h') => (inl (PluginFailed e), h')
      | (Gives None, h') => (inr None, h')
      | (Gives (Some d), h') =>
          if is_string (data_type d) (lit "transport")
          then
            if truthy (name d)
            then (inr (Some d), install h' (toString (name d)) (as_transport d))
            else (inl NameExpected, h')
          else
            match data_routes d with
            | Some r =>
                if truthy (name d)
                then (inr (Some d), merge_routes h' (toString (name d)) r)
                else (inr (Some d), h')
            | None => (inr (Some d), h')
            end
      end
  end.

(** [add] on the instance of the host. *)
Definition add (h : host) (_pattern : value) (hd : handler) : option error * host :=
  let (e, i) := Bishop.add (inst h) _pattern hd in
  (e, {| inst := i; routes := routes h |}).

End Host.

(** A sequence of [add] calls, the failed ones leaving the instance as it
    was. *)
Definition adds (i : Bishop.instance) (l : list (value * handler)) : Bishop.instance :=
  fold_left (fun i ph => snd (Bishop.add i (fst ph) (snd ph))) l i.

(** A payload is of the local type. *)
Definition local_type (e : Index.entry payload) : bool :=
  str_eqb (type (snd e)) (lit "local").
(* ================================================================== *)
(** * Views of split objects *)
(* ================================================================== *)

(** The fields of an object with the first character of every key
    dropped: meta fields without their sigil. *)
Definition without_sigil (o : obj) : obj :=
  map (fun kv => (substring_1 (fst kv), snd kv)) o.

(** Every key carries the sigil. *)
Definition all_meta (o : obj) : bool := forallb (fun kv => is_meta (fst kv)) o.

(** No key carries the sigil. *)
Definition none_meta (o : obj) : bool :=
  forallb (fun kv => negb (is_meta (fst kv))) o.

(** The effects of an executor: warnings, and what the classifier leads
    to. *)
Definition executor_effect (e : event) : bool :=
  match e with
  | Classify _ | LogError _ | LogWarn _ _ | Exit => true
  | _ => false
  end.
(* ================================================================== *)
(** * Sample chains, plugins and routes *)
(* ================================================================== *)

(** Headers that ask for the emitter and one transport to be notified. *)
Definition notifying : Chain.headers := {|
  Chain.break_ := VUndefined;
  Chain.notify := Some [lit "local"; lit "amqp"];
  Chain.pattern := [(lit "role", VStr (lit "a"))]
|}.

(** A handler that answers from a cache and sets [headers.break]. *)
Definition cached : Chain.chainItem :=
  (fun _ h => (Chain.Returns (VStr (lit "cached")),
               {| Chain.break_ := VBool true;
                  Chain.notify := Chain.notify h;
                  Chain.pattern := Chain.pattern h |}),
   []).

(** A handler that hands its input on. *)
Definition pass_on : Chain.chainItem :=
  (fun input h => (Chain.Returns input, h), []).

(** A handler that fails. *)
Definition failing : Chain.chainItem :=
  (fun _ h => (Chain.Fails boom, h), []).

(** A classifier that hands every error on. *)
Definition hand_on : error -> value := fun _ => VBool false.

(** A transport plugin: it returns a transport named ['amqp'] that sends
    through [remote_echo]. *)
Definition amqp_data : Host.data := {|
  Host.data_type := VStr (lit "transport");
  Host.name := VStr (lit "amqp");
  Host.data_routes := None;
  Host.as_transport := {| send := Some remote_echo; methods := [lit "connect"];
                          transport_options := [] |}
|}.

Definition amqp_plugin : Host.plugin := fun h => (Host.Gives (Some amqp_data), h).

(** A plugin with business logic: it returns the routes of ['users']. *)
Definition users_data : Host.data := {|
  Host.data_type := VUndefined;
  Host.name := VStr (lit "users");
  Host.data_routes := Some [(lit "create", VStr (lit "role:users, cmd:create"))];
  Host.as_transport := {| send := None; methods := []; transport_options := [] |}
|}.

Definition users_plugin : Host.plugin := fun h => (Host.Gives (Some users_data), h).

(** An instance with [{role: 'a'}] routed to a transport first and to a
    local handler second, and the transport loaded. *)
Definition mixed_instance : Bishop.instance :=
  Host.inst
    (snd (Host.use
            {| Host.inst := adds (Bishop.create Bishop.defaultConfig)
                                 [(role_a, HName (lit "amqp")); (role_a, HFun echo)];
               Host.routes := [] |}
            (Some amqp_plugin))).

Definition local_call : value :=
  VObj [(lit "role", VStr (lit "a")); (lit "$local", VBool true)].

(** A handler that throws before it returns. *)
Definition throwing : fn := fun _ => Throws boom.

(** A handler whose promise is rejected with a type error after 5 ms. *)
Definition type_error : error := Raised (lit "TypeError") (lit "x is not a function").

Definition mistyped5 : fn := fun _ => Settles 5 (Rejects type_error).

(** The same after 600 ms, later than the default timeout. *)
Definition mistyped600 : fn := fun _ => Settles 600 (Rejects type_error).
(* ================================================================== *)
(** * Properties of the string helpers *)
(* ================================================================== *)

Section StringFacts.

Lemma lacks_free (c : ascii) (s : str) : lacks c s = true <-> free_of c s.
Proof.
  unfold lacks, free_of. rewrite negb_true_iff. split.
  - intros H Hin. assert (E : existsb (Ascii.eqb c) s = true).
    { apply existsb_exists. exists c. split; [exact Hin | apply Ascii.eqb_refl]. }
    congruence.
  - intros H. destruct (existsb (Ascii.eqb c) s) eqn:E; [|reflexivity].
    apply existsb_exists in E. destruct E as [x [Hin Hx]].
    apply Ascii.eqb_eq in Hx. subst x. contradiction.
Qed.

Lemma trimStart_app (a b : str) :
  trimStart (a ++ b)
  = match trimStart a with [] => trimStart b | _ => trimStart a ++ b end.
Proof.
  induction a as [|c a IH]; simpl.
  - destruct (trimStart b); reflexivity.
  - destruct (is_space c); [exact IH | reflexivity].
Qed.

Lemma trimStart_idem (s : str) : trimStart (trimStart s) = trimStart s.
Proof.
  induction s as [|c s IH]; simpl; [reflexivity|].
  destruct (is_space c) eqn:E; [exact IH | simpl; rewrite E; reflexivity].
Qed.

Lemma trimStart_suffix (s : str) : exists p, s = p ++ trimStart s.
Proof.
  induction s as [|c s [p Hp]]; simpl.
  - exists []; reflexivity.
  - destruct (is_space c).
    + exists (c :: p). simpl. f_equal. exact Hp.
    + exists []; reflexivity.
Qed.

Lemma trimEnd_cons (c : ascii) (r : str) :
  trimEnd (c :: r)
  = match trimEnd r with
    | [] => if is_space c then [] else [c]
    | t => c :: t
    end.
Proof.
  unfold trimEnd. simpl rev at 2. rewrite trimStart_app.
  destruct (trimStart (rev r)) as [|x t] eqn:E.
  - simpl. destruct (is_space c); reflexivity.
  - rewrite rev_app_distr. simpl rev at 1. simpl.
    destruct (rev t ++ [x]) eqn:E2; [destruct (rev t); discriminate|].
    reflexivity.
Qed.

Lemma trimEnd_nil : trimEnd [] = [].
Proof. reflexivity. Qed.

Lemma trim_comm (s : str) : trimStart (trimEnd s) = trimEnd (trimStart s).
Proof.
  induction s as [|c r IH]; [reflexivity|].
  rewrite trimEnd_cons. simpl trimStart at 2.
  destruct (is_space c) eqn:E.
  - rewrite <- IH. destruct (trimEnd r); simpl; [reflexivity|].
    rewrite E. reflexivity.
  - rewrite trimEnd_cons. destruct (trimEnd r); simpl; rewrite E; reflexivity.
Qed.

Lemma trimEnd_idem (s : str) : trimEnd (trimEnd s) = trimEnd s.
Proof.
  unfold trimEnd. rewrite rev_involutive, trimStart_idem. reflexivity.
Qed.

Lemma trim_idem (s : str) : trim (trim s) = trim s.
Proof.
  unfold trim. rewrite trim_comm, trimEnd_idem, trimStart_idem.
  reflexivity.
Qed.

Lemma trim_trimStart (s : str) : trim (trimStart s) = trim s.
Proof. unfold trim. rewrite trimStart_idem. reflexivity. Qed.

Lemma trim_trimEnd (s : str) : trim (trimEnd s) = trim s.
Proof. unfold trim. rewrite trim_comm, trimEnd_idem. reflexivity. Qed.

Lemma trimStart_keeps (c : ascii) (a b : str) :
  is_space c = false -> trimStart (a ++ c :: b) = trimStart a ++ c :: b.
Proof.
  intros Hc. rewrite trimStart_app. destruct (trimStart a); [|reflexivity].
  simpl. rewrite Hc. reflexivity.
Qed.

Lemma trimEnd_keeps (c : ascii) (a b : str) :
  is_space c = false -> trimEnd (a ++ c :: b) = a ++ c :: trimEnd b.
Proof.
  intros Hc. unfold trimEnd.
  rewrite rev_app_distr. simpl rev at 2. rewrite <- app_assoc. simpl app at 2.
  rewrite trimStart_keeps by exact Hc.
  rewrite rev_app_distr. simpl. rewrite rev_involutive, <- app_assoc.
  reflexivity.
Qed.

Lemma trim_around (c : ascii) (a b : str) :
  is_space c = false -> trim (a ++ c :: b) = trimStart a ++ c :: trimEnd b.
Proof.
  intros Hc. unfold trim. rewrite trimStart_keeps by exact Hc.
  apply trimEnd_keeps; exact Hc.
Qed.

Lemma free_of_trimStart (c : ascii) (s : str) :
  free_of c s -> free_of c (trimStart s).
Proof.
  intros H Hin. apply H. destruct (trimStart_suffix s) as [p Hp].
  rewrite Hp. apply in_or_app. right. exact Hin.
Qed.

Lemma free_of_trimEnd (c : ascii) (s : str) :
  free_of c s -> free_of c (trimEnd s).
Proof.
  intros H Hin. unfold trimEnd in Hin. apply in_rev in Hin.
  apply free_of_trimStart with (c := c) (s := rev s) in Hin; [exact Hin|].
  intros Hr. apply H. apply in_rev. exact Hr.
Qed.

Lemma free_of_trim (c : ascii) (s : str) : free_of c s -> free_of c (trim s).
Proof. intros H. apply free_of_trimEnd, free_of_trimStart, H. Qed.

Lemma split_on_free (sep : ascii) (s : str) :
  free_of sep s -> split_on sep s = [s].
Proof.
  induction s as [|c s IH]; intros H; simpl; [reflexivity|].
  destruct (Ascii.eqb_spec c sep) as [->|Hne].
  - exfalso. apply H. left. reflexivity.
  - rewrite IH; [reflexivity|]. intros Hin. apply H. right. exact Hin.
Qed.

Lemma split_on_app (sep : ascii) (a b : str) :
  free_of sep a -> split_on sep (a ++ sep :: b) = a :: split_on sep b.
Proof.
  induction a as [|c a IH]; intros H; simpl.
  - rewrite Ascii.eqb_refl. reflexivity.
  - destruct (Ascii.eqb_spec c sep) as [->|Hne].
    + exfalso. apply H. left. reflexivity.
    + rewrite IH; [reflexivity|]. intros Hin. apply H. right. exact Hin.
Qed.

Lemma split_on_join (sep : ascii) (parts : list str) :
  parts <> [] -> Forall (free_of sep) parts ->
  split_on sep (join [sep] parts) = parts.
Proof.
  induction parts as [|w ws IH]; intros Hne Hall; [congruence|].
  inversion Hall as [|? ? Hw Hws]; subst.
  destruct ws as [|w' ws'].
  - simpl. apply split_on_free. exact Hw.
  - change (join [sep] (w :: w' :: ws')) with (w ++ sep :: join [sep] (w' :: ws')).
    rewrite split_on_app by exact Hw. f_equal. apply IH; [discriminate | exact Hws].
Qed.

End StringFacts.

(* ================================================================== *)
(** * Properties of objects *)
(* ================================================================== *)

Section ObjectFacts.

Section Generic.

Variable A : Type.

Lemma get_put (o : list (str * A)) (k k' : str) (v : A) :
  get (put o k v) k' = if str_eq_dec k k' then Some v else get o k'.
Proof.
  induction o as [|[k0 v0] r IH]; simpl.
  - reflexivity.
  - destruct (str_eq_dec k0 k) as [->|Hne]; simpl.
    + destruct (str_eq_dec k k'); reflexivity.
    + destruct (str_eq_dec k0 k') as [->|Hne'].
      * destruct (str_eq_dec k k'); [congruence | reflexivity].
      * exact IH.
Qed.

Lemma put_fresh (o : list (str * A)) (k : str) (v : A) :
  ~ In k (keys o) -> put o k v = o ++ [(k, v)].
Proof.
  induction o as [|[k0 v0] r IH]; simpl; intros H; [reflexivity|].
  destruct (str_eq_dec k0 k) as [->|Hne].
  - exfalso. apply H. left. reflexivity.
  - f_equal. apply IH. intros Hin. apply H. right. exact Hin.
Qed.

Lemma distinct_NoDup (ks : list str) : distinct ks = true -> NoDup ks.
Proof.
  induction ks as [|k r IH]; simpl; intros H; [constructor|].
  apply andb_true_iff in H. destruct H as [Hk Hr].
  constructor; [|apply IH; exact Hr].
  intros Hin. apply negb_true_iff in Hk.
  assert (E : existsb (str_eqb k) r = true).
  { apply existsb_exists. exists k. split; [exact Hin|].
    unfold str_eqb. destruct (str_eq_dec k k); congruence. }
  congruence.
Qed.

Lemma fold_put_fresh (l acc : list (str * A)) :
  NoDup (keys (acc ++ l)) ->
  fold_left (fun o kv => put o (fst kv) (snd kv)) l acc = acc ++ l.
Proof.
  revert acc. induction l as [|[k v] r IH]; intros acc H; simpl.
  - rewrite app_nil_r. reflexivity.
  - assert (Hk : ~ In k (keys acc)).
    { unfold keys in *. rewrite map_app in H. simpl in H.
      apply NoDup_remove_2 in H. intros Hin. apply H.
      apply in_or_app. left. exact Hin. }
    rewrite put_fresh by exact Hk.
    rewrite IH; rewrite <- app_assoc; [reflexivity | exact H].
Qed.

End Generic.

Lemma cloneDeep_id (v : value) : cloneDeep v = v.
Proof.
  revert v. fix self 1. intros v.
  destruct v as [| | | | | |fields]; simpl; try reflexivity.
  f_equal. induction fields as [|[k x] r IH]; simpl; [reflexivity|].
  rewrite (self x), IH. reflexivity.
Qed.

Lemma entries_objectify (item : value) :
  entries (Utils.objectify item) = part_entries item.
Proof.
  destruct item; simpl; try reflexivity.
  rewrite map_ext with (g := fun kv => kv).
  - rewrite map_id. reflexivity.
  - intros [k x]. simpl. rewrite cloneDeep_id. reflexivity.
Qed.

End ObjectFacts.

(* ================================================================== *)
(** * The splitter *)
(* ================================================================== *)

Section Split.

Lemma overlay_cons (k0 : str) (v0 : value) (l : obj) (k : str) (o : obj) :
  overlay l k (get (put o k0 v0) k) = overlay ((k0, v0) :: l) k (get o k).
Proof.
  unfold overlay. simpl. rewrite get_put.
  destruct (last_binding l k); [reflexivity|].
  destruct (str_eq_dec k0 k); reflexivity.
Qed.

Lemma is_meta_shape (field : str) :
  is_meta field = true -> field = "$"%char :: substring_1 field.
Proof.
  destruct field as [|c r]; simpl; [discriminate|].
  destruct (ascii_dec c "$") as [->|Hne]; [reflexivity|].
  destruct c as [[] [] [] [] [] [] [] []]; simpl; try discriminate.
  congruence.
Qed.


Lemma fold_left_flat_map (A B C : Type) (f : A -> C -> A) (g : B -> list C)
      (l : list B) (a : A) :
  fold_left f (flat_map g l) a = fold_left (fun a x => fold_left f (g x) a) l a.
Proof.
  revert a. induction l as [|x r IH]; intros a; simpl; [reflexivity|].
  rewrite fold_left_app. apply IH.
Qed.

Lemma split_as_fold (args : list value) :
  Utils.split args = fold_left Utils.split_field (merged args) ([], [], []).
Proof.
  unfold Utils.split, merged. rewrite fold_left_flat_map.
  generalize (@nil (str * value), @nil (str * value), @nil (str * value)).
  induction args as [|item r IH]; intros acc; simpl; [reflexivity|].
  unfold Utils.split_item at 2. rewrite entries_objectify. apply IH.
Qed.


(** The other revision of [split] keeps the sigil on the keys of [meta]. *)
Example split_alt_keeps_sigil :
  UtilsAlt.split [VObj [(lit "role", VStr (lit "a")); (lit "$timeout", VNum 5)]]
  = ([(lit "role", VStr (lit "a"))],
     [(lit "$timeout", VNum 5)],
     [(lit "role", VStr (lit "a")); (lit "$timeout", VNum 5)]).
Proof. reflexivity. Qed.

Example split_sample :
  Utils.split [VStr (lit "role:a, $timeout:/x/"); VObj [(lit "role", VStr (lit "b")); (lit "$nowait", VBool true)]]
  = ([(lit "role", VStr (lit "b"))],
     [(lit "timeout", VRegExp (lit "x")); (lit "nowait", VBool true)],
     [(lit "role", VStr (lit "b")); (lit "$timeout", VRegExp (lit "x"));
      (lit "$nowait", VBool true)]).
Proof. reflexivity. Qed.

End Split.

(* ================================================================== *)
(** * The parser *)
(* ================================================================== *)

Section Parser.

Lemma segment_key_value (kp vp : str) :
  free_of ":" kp -> free_of ":" vp ->
  Utils.segment (kp ++ ":"%char :: vp) = (trim kp, slash_led (trim vp)).
Proof.
  intros Hk Hv. unfold Utils.segment.
  rewrite trim_around by reflexivity.
  rewrite split_on_app by (apply free_of_trimStart; exact Hk).
  rewrite split_on_free by (apply free_of_trimEnd; exact Hv).
  cbn [hd tl]. rewrite trim_trimStart, trim_trimEnd. reflexivity.
Qed.

Lemma segment_key_only (k : str) :
  free_of ":" k -> Utils.segment k = (trim k, Utils.regExpAll).
Proof.
  intros Hk. unfold Utils.segment.
  rewrite split_on_free by (apply free_of_trim; exact Hk).
  cbn [hd tl]. rewrite trim_idem. reflexivity.
Qed.

Lemma segment_render (s : seg) :
  seg_ok s = true -> Utils.segment (render_seg s) = parsed_seg s.
Proof.
  destruct s as [k|k v]; simpl; intros H.
  - apply andb_true_iff in H. destruct H as [_ H].
    apply segment_key_only, lacks_free, H.
  - apply andb_true_iff in H. destruct H as [Hk Hv].
    apply andb_true_iff in Hk. apply andb_true_iff in Hv.
    apply segment_key_value; apply lacks_free; [apply Hk | apply Hv].
Qed.

Lemma render_free_of_comma (s : seg) :
  seg_ok s = true -> free_of "," (render_seg s).
Proof.
  destruct s as [k|k v]; simpl; intros H.
  - apply andb_true_iff in H. apply lacks_free, H.
  - apply andb_true_iff in H. destruct H as [Hk Hv].
    apply andb_true_iff in Hk. apply andb_true_iff in Hv.
    destruct Hk as [Hk _]. destruct Hv as [Hv _].
    apply lacks_free in Hk. apply lacks_free in Hv.
    intros Hin. apply in_app_or in Hin. destruct Hin as [Hin|[Hin|Hin]].
    + exact (Hk Hin).
    + discriminate.
    + exact (Hv Hin).
Qed.

Lemma text2obj_join (parts : list str) :
  parts <> [] -> Forall (free_of ",") parts ->
  Utils.text2obj (join [","%char] parts)
  = fold_left (fun prev cur => let (k, v) := Utils.segment cur in put prev k v)
              parts [].
Proof.
  intros Hne Hall. unfold Utils.text2obj.
  rewrite split_on_join by assumption. reflexivity.
Qed.

(** Segments whose keys and values hold neither a comma nor a colon parse
    one by one: key and value are trimmed, a segment without value maps
    its key to the wildcard regex, a value whose first character is a
    slash is handed to [new RegExp] without its first and last character,
    every other value stays a string. *)
Lemma text2obj_segments (segs : list seg) :
  segs <> [] -> forallb seg_ok segs = true ->
  Utils.text2obj (join [","%char] (map render_seg segs))
  = fold_left put_seg segs [].
Proof.
  intros Hne Hok. rewrite forallb_forall in Hok.
  rewrite text2obj_join.
  - generalize (@nil (str * value)).
    induction segs as [|s r IH]; intros acc; [congruence|].
    cbn [map fold_left]. rewrite segment_render by (apply Hok; left; reflexivity).
    unfold put_seg at 2. destruct (parsed_seg s) as [k v]. cbn [fst snd].
    destruct r as [|s' r']; [reflexivity|].
    apply IH; [discriminate|]. intros x Hx. apply Hok. right. exact Hx.
  - destruct segs; [congruence | discriminate].
  - apply Forall_forall. intros x Hx. apply in_map_iff in Hx.
    destruct Hx as [sg [<- Hsg]]. apply render_free_of_comma, Hok, Hsg.
Qed.

Lemma text2obj_segments_witness :
  Utils.text2obj (lit " model : comments ,target, path:/a/ ")
  = [(lit "model", VStr (lit "comments"));
     (lit "target", VRegExp (lit ".*"));
     (lit "path", VRegExp (lit "a"))].
Proof.
  exact (@text2obj_segments
           [KeyValue (lit " model ") (lit " comments "); KeyOnly (lit "target");
            KeyValue (lit " path") (lit "/a/ ")]
           ltac:(discriminate) eq_refl).
Defined.

(** A value that starts with a slash and does not end with one is made a
    regex all the same, losing its last character; read as the specification
    words it, it would have stayed the string [/abc]. *)
Lemma text2obj_regex_without_closing_slash :
  Utils.text2obj (join [","%char] (map render_seg [KeyValue (lit "k") (lit "/abc")]))
  = [(lit "k", VRegExp (lit "ab"))]
  /\ Utils.text2obj (join [","%char] (map render_seg [KeyValue (lit "k") (lit "/abc")]))
     <> [specified_seg (KeyValue (lit "k") (lit "/abc"))].
Proof. split; [reflexivity | discriminate]. Qed.

(** C7, where the code departs from it. In ['k:/abc'] the value starts
    with a slash and does not end with one, so that, read as the
    specification words it, it stays the string ['/abc']. [text2obj] tests
    the first character alone and hands ['ab'], the value without its
    first and its last character, to [new RegExp]: the field is the regular
    expression the engine builds from ['ab'], or the call throws, and with
    no engine is it the string. A value closed by a slash loses the two
    slashes only. *)
Theorem text2obj_cuts_unclosed_value (newRegExp : str -> option str) :
  Engine.text2obj newRegExp (lit "k:/abc")
  = match newRegExp (lit "ab") with
    | Some source => Some (Engine.Plain [(lit "k", VRegExp source)])
    | None => None
    end
  /\ Engine.text2obj newRegExp (lit "k:/abc")
     <> Some (Engine.Plain [(lit "k", VStr (lit "/abc"))])
  /\ specified_seg (KeyValue (lit "k") (lit "/abc")) = (lit "k", VStr (lit "/abc"))
  /\ Engine.text2obj newRegExp (lit "k:/abc/")
     = match newRegExp (lit "abc") with
       | Some source => Some (Engine.Plain [(lit "k", VRegExp source)])
       | None => None
       end.
Proof.
  assert (Hcut : Engine.text2obj newRegExp (lit "k:/abc")
                 = match newRegExp (lit "ab") with
                   | Some source => Some (Engine.Plain [(lit "k", VRegExp source)])
                   | None => None
                   end).
  { unfold Engine.text2obj. cbn. destruct (newRegExp _); reflexivity. }
  split; [exact Hcut|]. split.
  - rewrite Hcut. destruct (newRegExp _); discriminate.
  - split; [reflexivity|]. clear Hcut.
    unfold Engine.text2obj. cbn. destruct (newRegExp _); reflexivity.
Qed.

(** Where the value does end with a slash the two readings agree. *)
Lemma slash_led_delimited (t : str) :
  last t " "%char = "/"%char -> slash_led t = slash_delimited t.
Proof.
  intros H. unfold slash_led, slash_delimited. rewrite H. reflexivity.
Qed.

End Parser.

(* ================================================================== *)
(** * Rendering and parsing back *)
(* ================================================================== *)

Section RoundTrip.











(** The other restrictions are needed as well: a colon in a value, a
    leading slash, an empty string value, an empty pattern. *)
Example parse_beautify_other_losses :
  Utils.text2obj (Utils.beautify [(lit "k", VStr (lit "a:b"))]) = [(lit "k", VStr (lit "a"))]
  /\ Utils.text2obj (Utils.beautify [(lit "k", VStr (lit "/tmp"))]) = [(lit "k", VRegExp (lit "tm"))]
  /\ Utils.text2obj (Utils.beautify [(lit "k", VStr [])]) = [(lit "k", VRegExp (lit ".*"))]
  /\ Utils.text2obj (Utils.beautify []) = [([], VRegExp (lit ".*"))].
Proof. repeat split. Qed.

(** On the fields of the theorem the other revision of [beautify] prints
    the same text. *)
Lemma beautify_alt_same (p : obj) :
  forallb flat_field p = true ->
  UtilsAlt.beautify p = Some (Utils.beautify p).
Proof.
  intros H. unfold UtilsAlt.beautify, Utils.beautify.
  assert (E : UtilsAlt.beautify_fields p = Some (map Utils.beautify_field p)).
  { induction p as [|[k v] r IH]; [reflexivity|].
    cbn [forallb] in H. apply andb_true_iff in H. destruct H as [Hkv Hr].
    cbn [UtilsAlt.beautify_fields map]. rewrite (IH Hr).
    unfold flat_field in Hkv. cbn [fst snd] in Hkv.
    apply andb_true_iff in Hkv. destruct Hkv as [_ Hv].
    destruct v as [| | | |s|src|]; try discriminate.
    - apply andb_true_iff in Hv. destruct Hv as [Hv _].
      apply andb_true_iff in Hv. destruct Hv as [_ Ht].
      cbn [UtilsAlt.beautify_field Utils.beautify_field]. rewrite Ht. reflexivity.
    - reflexivity. }
  rewrite E. reflexivity.
Qed.

End RoundTrip.

(* ================================================================== *)
(** * Dispatch: the absent pattern *)
(* ================================================================== *)

Section ActGuard.

Variable debugStorage : obj.

(** C9. With a falsy first argument [act] rejects with 'pattern not
    specified' at once: no lookup has been made, no handler invoked, and
    the instance, both indices included, is the one before the call. *)
Theorem act_pattern_not_specified
        (i : Bishop.instance) (_pattern : value) (payloads : list obj) :
  truthy _pattern = false ->
  Bishop.act debugStorage i _pattern payloads
  = ({| result := Rejected 0 PatternNotSpecified; events := [] |}, i).
Proof.
  intros H. unfold Bishop.act, Bishop.act_run. rewrite H. reflexivity.
Qed.

(** The other revision has the same guard. *)
Lemma act_pattern_not_specified_alt
      (i : BishopAlt.instance) (_pattern : value) (payload : obj) :
  truthy _pattern = false ->
  BishopAlt.act i _pattern payload
  = ({| result := Rejected 0 PatternNotSpecified; events := [] |}, i).
Proof.
  intros H. unfold BishopAlt.act, BishopAlt.act_run. rewrite H. reflexivity.
Qed.

End ActGuard.

Lemma act_pattern_not_specified_witness :
  truthy VUndefined = false
  /\ Bishop.act [] (Bishop.create Bishop.defaultConfig) VUndefined []
     = ({| result := Rejected 0 PatternNotSpecified; events := [] |},
        Bishop.create Bishop.defaultConfig)
  /\ Bishop.act [] (Bishop.create Bishop.defaultConfig) (VStr []) []
     = ({| result := Rejected 0 PatternNotSpecified; events := [] |},
        Bishop.create Bishop.defaultConfig).
Proof.
  split; [reflexivity|]. split.
  - apply (@act_pattern_not_specified [] (Bishop.create Bishop.defaultConfig)
                                      VUndefined [] eq_refl).
  - apply (@act_pattern_not_specified [] (Bishop.create Bishop.defaultConfig)
                                      (VStr []) [] eq_refl).
Defined.

(* ================================================================== *)
(** * Dispatch: the execution envelope and its timer *)
(* ================================================================== *)

Section Timer.

Variable pattern : obj.
Variable r : run.

Lemma floor_whole (n : Z) : floor n 0 = n /\ whole n 0 = true.
Proof.
  unfold floor, whole. cbn [Z.leb Z.compare orb Z.pow Z.pow_pos Pos.iter Z.mul Pos.mul].
  split; [apply Z.mul_1_r | reflexivity].
Qed.

Lemma timer_delay_positive (v : value) : 0 < timer_delay v.
Proof.
  unfold timer_delay. destruct (to_number v) as [| |m e]; try lia.
  destruct (1 <=? floor m e)%Z eqn:H; cbn [andb]; [|lia].
  destruct (_ || _); [|lia]. apply Z.leb_le in H. lia.
Qed.

(** A whole number of milliseconds from 1 to [TIMEOUT_MAX] is the delay of
    the timer. *)
Lemma timer_delay_number (ms : Z) :
  (1 <= ms <= TIMEOUT_MAX)%Z ->
  truthy (VNum ms) = true /\ timer_delay (VNum ms) = Z.to_nat ms.
Proof.
  intros Hms. split.
  - simpl. destruct (Z.eqb_spec ms 0); [lia | reflexivity].
  - unfold timer_delay. cbn [to_number].
    destruct (floor_whole ms) as [-> ->].
    destruct (Z.leb_spec 1 ms); [|lia]. cbn [andb].
    destruct (Z.ltb_spec ms TIMEOUT_MAX); cbn [orb]; [reflexivity|].
    destruct (Z.eqb_spec ms TIMEOUT_MAX); [reflexivity | lia].
Qed.


(** The timer wins against an envelope that settles later, or never. *)
Lemma race_late (timeout : value) :
  (forall t, settled_at (result r) = Some t -> timer_delay timeout < t) ->
  result (race timeout pattern r)
  = Rejected (timer_delay timeout) (PatternTimeout timeout pattern).
Proof.
  intros Hslow. unfold race.
  destruct (settled_at (result r)) as [t|] eqn:Hs; [|reflexivity].
  specialize (Hslow t eq_refl).
  destruct (Nat.ltb_spec t (timer_delay timeout)); [lia | reflexivity].
Qed.

(** An envelope that settles earlier wins against the timer. *)
Lemma race_early (timeout : value) (t : nat) :
  settled_at (result r) = Some t -> t < timer_delay timeout ->
  result (race timeout pattern r) = result r.
Proof.
  intros Hs Hfast. unfold race. rewrite Hs.
  destruct (Nat.ltb_spec t (timer_delay timeout)); [reflexivity | lia].
Qed.

Lemma race_lost (ms : Z) :
  (1 <= ms <= TIMEOUT_MAX)%Z ->
  (forall t, settled_at (result r) = Some t -> (ms < Z.of_nat t)%Z) ->
  result (race (VNum ms) pattern r)
  = Rejected (Z.to_nat ms) (PatternTimeout (VNum ms) pattern).
Proof.
  intros Hms Hslow. rewrite <- (proj2 (timer_delay_number Hms)).
  apply race_late. intros t Ht. rewrite (proj2 (timer_delay_number Hms)).
  specialize (Hslow t Ht). lia.
Qed.

Lemma race_won (ms : Z) (t : nat) :
  (1 <= ms <= TIMEOUT_MAX)%Z ->
  settled_at (result r) = Some t -> (Z.of_nat t < ms)%Z ->
  result (race (VNum ms) pattern r) = result r.
Proof.
  intros Hms Hs Hfast. apply race_early with (t := t); [exact Hs|].
  rewrite (proj2 (timer_delay_number Hms)). lia.
Qed.

(** An envelope that has settled at once wins against every timer. *)
Lemma race_settled_at_once (timeout : value) :
  settled_at (result r) = Some 0 -> race timeout pattern r = r.
Proof.
  intros Hs. unfold race. rewrite Hs.
  pose proof (timer_delay_positive timeout) as Hd.
  destruct (Nat.ltb_spec 0 (timer_delay timeout)); [reflexivity | lia].
Qed.

(** The race leaves the effects of the envelope as they are. *)
Lemma race_events (timeout : value) : events (race timeout pattern r) = events r.
Proof.
  unfold race. destruct (settled_at (result r)) as [t|]; [|reflexivity].
  destruct (Nat.ltb t (timer_delay timeout)); reflexivity.
Qed.

End Timer.

Section ActEnvelope.

Variable debugStorage : obj.
Variable i : Bishop.instance.
Variable _pattern : value.
Variable payloads : list obj.

Let pattern : obj := Bishop.compose _pattern payloads.
Let timeout : value := Bishop.effective_timeout i pattern.
Let localOnly : bool := truthy (prop pattern (lit "$local")).
Let index : Index.t payload := if localOnly then Bishop.pmLocal i else Bishop.pm i.

Variable m : Index.entry payload.
Variable method : handler.

Hypothesis given : truthy _pattern = true.
Hypothesis found :
  Index.lookup (Bishop.matchOrder (Bishop.conf i)) index pattern = Some m.
Hypothesis selected : Bishop.select_method i (snd m) = Some method.

Lemma act_run_promised (r : run) :
  Bishop.execute debugStorage i pattern (snd m) method = Promised r ->
  Bishop.act_run debugStorage i _pattern payloads
  = {| result := result (if negb (truthy timeout) then r
                         else race timeout pattern r);
       events := [(0, Lookup localOnly pattern);
                  (0, Invoke (type (snd m)) pattern)] ++ events r |}.
Proof.
  intros He. unfold Bishop.act_run. rewrite given. cbn [negb].
  fold pattern. fold localOnly. fold index. rewrite found, selected.
  rewrite He. fold timeout. f_equal.
  destruct (truthy timeout); cbn [negb]; [|reflexivity].
  rewrite race_events. reflexivity.
Qed.

Lemma act_run_threw (e : error) :
  Bishop.execute debugStorage i pattern (snd m) method = Threw e ->
  Bishop.act_run debugStorage i _pattern payloads
  = {| result := Rejected 0 e;
       events := [(0, Lookup localOnly pattern);
                  (0, Invoke (type (snd m)) pattern)] |}.
Proof.
  intros He. unfold Bishop.act_run. rewrite given. cbn [negb].
  fold pattern. fold localOnly. fold index. rewrite found, selected.
  rewrite He. reflexivity.
Qed.


End ActEnvelope.



(* ================================================================== *)
(** * Dispatch: fire and forget *)
(* ================================================================== *)

Section ActNowait.

Variable debugStorage : obj.
Variable i : Bishop.instance.
Variable _pattern : value.
Variable payloads : list obj.

Let pattern : obj := Bishop.compose _pattern payloads.
Let localOnly : bool := truthy (prop pattern (lit "$local")).
Let index : Index.t payload := if localOnly then Bishop.pmLocal i else Bishop.pm i.
Let isDebugEnabled : value :=
  js_or (prop pattern (lit "$debug")) (Bishop.debug (Bishop.conf i)).

Variable m : Index.entry payload.
Variable f : fn.

Hypothesis given : truthy _pattern = true.
Hypothesis found :
  Index.lookup (Bishop.matchOrder (Bishop.conf i)) index pattern = Some m.
Hypothesis is_local : type (snd m) = lit "local".
Hypothesis is_function : handler_of (snd m) = HFun f.
Hypothesis nowait : truthy (prop pattern (lit "$nowait")) = true.

Lemma post_operations_log_no_error (slow : value) (p : obj) (t t' : nat) (e : error) :
  ~ In (t', LogError e) (Bishop.doPostOperations slow p t).
Proof.
  unfold Bishop.doPostOperations.
  destruct (truthy slow && exceeds t slow); simpl; [|tauto].
  intros [H|[]]. discriminate.
Qed.

(** C2, as the code has it. For a local handler and a pattern with
    [$nowait], a handler that returns (a value or a promise) is invoked and
    not awaited: [act] resolves at once, with [undefined] or with the debug
    storage when debugging is enabled, whatever the handler does later. An
    error the handler's promise is rejected with is passed to the error
    classifier, and it is logged exactly when the classifier does not mute
    it; the caller never sees it. *)
Theorem act_nowait :
  (forall e, f pattern <> Throws e) ->
  let r := Bishop.act_run debugStorage i _pattern payloads in
  In (0, Invoke (lit "local") pattern) (events r)
  /\ result r = Resolved 0 (if truthy isDebugEnabled then VObj debugStorage
                            else VUndefined)
  /\ forall t err, f pattern = Settles t (Rejects err) ->
       In (t, Classify err) (events r)
       /\ (In (t, LogError err) (events r)
           <-> errorHandler (Bishop.terminateOn_ (Bishop.conf i)) err <> Mute true).
Proof.
  intros Hreturns r.
  assert (Hsel : Bishop.select_method i (snd m) = Some (HFun f)).
  { unfold Bishop.select_method. rewrite is_local, is_function. reflexivity. }
  set (slow := js_or (Bishop.slowPatternTimeout (Bishop.conf i))
                     (prop pattern (lit "$slow"))).
  set (detached := match f pattern with
                   | Settles t (Rejects err) => Bishop.detached_catch (Bishop.conf i) t err
                   | _ => []
                   end).
  set (r0 := {| result := Resolved 0 (if truthy isDebugEnabled
                                      then VObj debugStorage else VUndefined);
                events := Bishop.doPostOperations slow pattern 0 ++ detached |}).
  assert (Hexec : Bishop.execute debugStorage i pattern (snd m) (HFun f) = Promised r0).
  { unfold Bishop.execute. rewrite is_local. fold pattern in nowait |- *.
    rewrite nowait. cbn [str_eqb andb]. unfold str_eqb.
    destruct (str_eq_dec (lit "local") (lit "local")) as [_|Hne]; [|congruence].
    unfold Bishop.executor_nowait. cbn [call].
    destruct (f pattern) as [e|t s|] eqn:Hf.
    - exfalso. exact (Hreturns e eq_refl).
    - reflexivity.
    - reflexivity. }
  pose proof (act_run_promised debugStorage i _pattern payloads given found Hsel Hexec) as Hrun.
  fold pattern in Hrun. fold r in Hrun. rewrite is_local in Hrun.
  assert (Hres : result r = result r0).
  { rewrite Hrun. cbn [result].
    destruct (truthy (Bishop.effective_timeout i pattern)); cbn [negb]; [|reflexivity].
    rewrite race_settled_at_once; reflexivity. }
  assert (Hev : events r = [(0, Lookup localOnly pattern);
                            (0, Invoke (lit "local") pattern)]
                           ++ Bishop.doPostOperations slow pattern 0 ++ detached).
  { rewrite Hrun. reflexivity. }
  split; [rewrite Hev; right; left; reflexivity|].
  split; [exact Hres|].
  intros t err Hf. rewrite Hev. unfold detached. rewrite Hf.
  unfold Bishop.detached_catch. split.
  - apply in_or_app. right. apply in_or_app. right. left. reflexivity.
  - split.
    + intros Hin Hmute. rewrite Hmute in Hin.
      apply in_app_or in Hin. destruct Hin as [[H|[H|[]]]|Hin]; try discriminate.
      apply in_app_or in Hin. destruct Hin as [Hin|[H|[]]]; [|discriminate].
      exact (post_operations_log_no_error _ _ _ _ _ Hin).
    + intros Hmute. apply in_or_app. right. apply in_or_app. right. right.
      destruct (errorHandler (Bishop.terminateOn_ (Bishop.conf i)) err) as [|[]].
      * left. reflexivity.
      * congruence.
      * left. reflexivity.
Qed.

End ActNowait.

(** Scenario S6 under the default configuration: the call resolves at
    once, the error is classified and logged at 5 ms. *)
Lemma act_nowait_witness :
  let r := Bishop.act_run [] (failing_instance Bishop.defaultConfig) nowait_call [] in
  result r = Resolved 0 VUndefined
  /\ In (5, Classify boom) (events r)
  /\ In (5, LogError boom) (events r).
Proof.
  pose proof (@act_nowait [] (failing_instance Bishop.defaultConfig) nowait_call []
                ([(lit "role", VStr (lit "n"))],
                 {| type := lit "local"; handler_of := HFun failing5 |})
                failing5 eq_refl eq_refl eq_refl eq_refl eq_refl
                ltac:(intros e; discriminate)) as H.
  destruct H as (_ & Hres & Herr).
  destruct (Herr 5 boom eq_refl) as [Hc Hl].
  split; [exact Hres|]. split; [exact Hc|].
  apply Hl. discriminate.
Defined.

(** With a classifier that mutes the error nothing is logged: the error is
    classified and that is all. *)
Lemma act_nowait_muted_not_logged :
  let r := Bishop.act_run [] (failing_instance muting_config) nowait_call [] in
  result r = Resolved 0 VUndefined
  /\ In (5, Classify boom) (events r)
  /\ ~ In (5, LogError boom) (events r).
Proof.
  split; [reflexivity|]. split.
  - right. right. left. reflexivity.
  - intros [H|[H|[H|[]]]]; discriminate.
Qed.

(** A handler that throws before it returns is outside the theorem: its
    error reaches the caller unclassified. *)
Example act_nowait_synchronous_throw :
  Bishop.act_run []
    (snd (Bishop.add (Bishop.create Bishop.defaultConfig) role_n
                     (HFun (fun _ => Throws boom))))
    nowait_call []
  = {| result := Rejected 0 boom;
       events := [(0, Lookup false (entries nowait_call));
                  (0, Invoke (lit "local") (entries nowait_call))] |}.
Proof. reflexivity. Qed.

(* ================================================================== *)
(** * Lifecycle entry points *)
(* ================================================================== *)

Section Lifecycle.

Lemma runMethodsParallel_hooks (reg : registry) (method : str) (t : nat)
      (name meth : str) :
  In (t, Hook name meth) (runMethodsParallel reg method)
  <-> t = 0 /\ meth = method
      /\ exists tr, In (name, tr) reg
                    /\ existsb (str_eqb method) (methods tr) = true.
Proof.
  unfold runMethodsParallel. rewrite in_map_iff. split.
  - intros [[n tr] [E Hin]]. cbn [fst] in E. injection E as <- <- <-.
    apply filter_In in Hin. destruct Hin as [Hin Hd]. cbn [snd] in Hd.
    repeat split. exists tr. split; assumption.
  - intros (-> & -> & tr & Hin & Hd). exists (name, tr). split; [reflexivity|].
    apply filter_In. split; assumption.
Qed.

(** In [Bishop] each entry point invokes the hook of its own
    name, on the transports that declare it, and no other hook. *)
Lemma lifecycle_same_name (i : Bishop.instance) (t : nat) (name meth : str) :
  (In (t, Hook name meth) (Bishop.connect i) -> meth = lit "connect")
  /\ (In (t, Hook name meth) (Bishop.listen i) -> meth = lit "listen")
  /\ (In (t, Hook name meth) (Bishop.disconnect i) -> meth = lit "disconnect")
  /\ (In (t, Hook name meth) (Bishop.close i) -> meth = lit "close").
Proof.
  repeat split; intros H; apply runMethodsParallel_hooks in H; apply H.
Qed.

(** C5, where the code departs from it. In [BishopAlt]
    [disconnect] runs the [connect] hook of the transport and leaves its
    [disconnect] hook alone. *)
Theorem disconnect_invokes_connect_hook :
  BishopAlt.disconnect connected_instance
  = [(0, Hook (lit "http-client") (lit "connect"))]
  /\ ~ In (0, Hook (lit "http-client") (lit "disconnect"))
          (BishopAlt.disconnect connected_instance).
Proof.
  split; [reflexivity|]. intros [H|[]]. discriminate.
Qed.

(** The same holds of every instance. *)
Lemma disconnect_is_connect (i : BishopAlt.instance) :
  BishopAlt.disconnect i = BishopAlt.connect i.
Proof. reflexivity. Qed.

End Lifecycle.

(* ================================================================== *)
(** * Registration with [forbidSameRouteNames] *)
(* ================================================================== *)

(** C4, where the code departs from it. Under insertion order the probe
    for [{a:'1', b:'2'}] answers with the earlier [{a:'1'}], which is not
    equal to it, so the pattern is registered a second time. *)
Theorem add_duplicate_under_insertion_order :
  let again := Bishop.add (two_routes Index.Insertion) pattern_ab (HFun echo) in
  fst again = None
  /\ map fst (Bishop.pm (snd again))
     = [entries pattern_a; entries pattern_ab; entries pattern_ab].
Proof. split; reflexivity. Qed.

(** Under depth order the same registration is refused. *)
Example add_duplicate_under_depth_order :
  Bishop.add (two_routes Index.Depth) pattern_ab (HFun echo)
  = (Some (DuplicatePattern (entries pattern_ab)), two_routes Index.Depth).
Proof. reflexivity. Qed.


(* ================================================================== *)
(** * The timeout a transport declares *)
(* ================================================================== *)

Section TransportTimeout.

Variable headers : obj.
Variable remoteTransportsStorage : Utils.storage.
Variable name : str.
Variable req : fn.
Variable opts : obj.

Hypothesis remote : truthy (prop headers (lit "local")) = false.
Hypothesis known :
  Utils.stored_under remoteTransportsStorage name
  = Some {| Utils.request := Some req; Utils.options := opts |}.
Hypothesis declared : truthy (prop opts (lit "timeout")) = true.
Hypothesis unset : truthy (prop headers (lit "timeout")) = false.

(** The helper of the utilities: when the payload names a transport that
    has a [request] method and declares [options.timeout], and the headers
    it is given carry no timeout of the caller's, it returns the
    transport's method and sets [headers.timeout] to the transport's
    [options.timeout]; no other header changes. *)
Lemma createPayloadWrapper_adopts_transport_timeout :
  let '(returned, headers') :=
    Utils.createPayloadWrapper (HName name) headers remoteTransportsStorage in
  returned = inr (HFun req, [])
  /\ prop headers' (lit "timeout") = prop opts (lit "timeout")
  /\ (forall k, k <> lit "timeout" -> get headers' k = get headers k).
Proof.
  unfold Utils.createPayloadWrapper. rewrite remote, known, declared, unset.
  cbn [andb negb].
  assert (Hp : prop (put headers (lit "timeout") (prop opts (lit "timeout")))
                    (lit "timeout") = prop opts (lit "timeout")).
  { unfold prop at 1. rewrite get_put.
    destruct (str_eq_dec (lit "timeout") (lit "timeout")); congruence. }
  repeat split.
  - exact Hp.
  - intros k Hk. rewrite get_put.
    destruct (str_eq_dec (lit "timeout") k); congruence.
Qed.

End TransportTimeout.

Lemma createPayloadWrapper_adopts_transport_timeout_witness :
  Utils.createPayloadWrapper (HName (lit "http-client"))
                             [(lit "id", VStr (lit "q1"))] sample_storage
  = (inr (HFun remote_echo, []),
     [(lit "id", VStr (lit "q1")); (lit "timeout", VNum 1000)]).
Proof.
  pose proof (@createPayloadWrapper_adopts_transport_timeout
                [(lit "id", VStr (lit "q1"))] sample_storage (lit "http-client")
                remote_echo [(lit "timeout", VNum 1000)]
                eq_refl eq_refl eq_refl eq_refl) as H.
  destruct (Utils.createPayloadWrapper (HName (lit "http-client"))
                                       [(lit "id", VStr (lit "q1"))] sample_storage)
    as [returned headers'] eqn:E.
  destruct H as (-> & _). cbv in E. injection E as <-. reflexivity.
Defined.

(** The caller's own timeout is kept. *)
Example createPayloadWrapper_keeps_caller_timeout :
  snd (Utils.createPayloadWrapper (HName (lit "http-client"))
                                  [(lit "timeout", VNum 50)] sample_storage)
  = [(lit "timeout", VNum 50)].
Proof. reflexivity. Qed.

Section RemoteTimeout.

Variable debugStorage : obj.
Variable i : Bishop.instance.
Variable _pattern : value.
Variable payloads : list obj.

Let pattern : obj := Bishop.compose _pattern payloads.
Let localOnly : bool := truthy (prop pattern (lit "$local")).
Let index : Index.t payload := if localOnly then Bishop.pmLocal i else Bishop.pm i.

Variable m : Index.entry payload.
Variable tr : transport.
Variable s : fn.

Hypothesis given : truthy _pattern = true.
Hypothesis found :
  Index.lookup (Bishop.matchOrder (Bishop.conf i)) index pattern = Some m.
Hypothesis remote : type (snd m) <> lit "local".
Hypothesis loaded : registered (Bishop.this_transport i) (type (snd m)) = Some tr.
Hypothesis sends : send tr = Some s.


End RemoteTimeout.



(* ================================================================== *)
(** * The duplicate probe under depth order *)
(* ================================================================== *)

Section DepthProbe.

Variable P : Type.

Lemma plain_parts (p : obj) :
  plain p = true ->
  NoDup (keys p)
  /\ forall k v, In (k, v) p -> is_meta k = false /\ exists s, v = VStr s.
Proof.
  unfold plain. intros H. apply andb_true_iff in H. destruct H as [Hd Hf].
  split; [apply distinct_NoDup, Hd|].
  intros k v Hin. rewrite forallb_forall in Hf. specialize (Hf _ Hin).
  cbn [fst snd] in Hf. apply andb_true_iff in Hf. destruct Hf as [Hm Hv].
  split; [apply negb_true_iff, Hm|].
  destruct v; try discriminate. eexists. reflexivity.
Qed.

Lemma plain_depth (p : obj) : plain p = true -> Index.depth p = List.length p.
Proof.
  intros H. destruct (plain_parts p H) as [_ Hf]. unfold Index.depth.
  induction p as [|[k v] r IH]; [reflexivity|].
  cbn [filter fst]. destruct (Hf k v (or_introl eq_refl)) as [-> _].
  cbn [negb List.length]. f_equal. apply IH.
  - unfold plain in H |- *. apply andb_true_iff in H. destruct H as [Hd Hall].
    cbn [keys map distinct forallb] in Hd, Hall.
    apply andb_true_iff in Hd. apply andb_true_iff in Hall.
    apply andb_true_iff. split; [apply Hd | apply Hall].
  - intros k' v' Hin. apply Hf. right. exact Hin.
Qed.

Lemma get_In (A : Type) (o : list (str * A)) (k : str) (v : A) :
  get o k = Some v -> In (k, v) o.
Proof.
  induction o as [|[k0 v0] r IH]; simpl; [discriminate|].
  destruct (str_eq_dec k0 k) as [->|Hne].
  - intros E. injection E as <-. left. reflexivity.
  - intros E. right. apply IH, E.
Qed.

Lemma str_eqb_eq (a b : str) : str_eqb a b = true <-> a = b.
Proof.
  unfold str_eqb. destruct (str_eq_dec a b); split; congruence.
Qed.

(** Between plain patterns, a match that is not shallower than the query
    is the query. *)
Lemma full_match_is_equal (e q : obj) :
  plain e = true -> plain q = true ->
  Index.matches e q = true -> List.length q <= List.length e ->
  isEqual (VObj e) (VObj q) = true.
Proof.
  intros He Hq Hm Hlen.
  destruct (plain_parts e He) as [Hnd Hfe]. destruct (plain_parts q Hq) as [_ Hfq].
  unfold Index.matches in Hm. rewrite forallb_forall in Hm.
  assert (Hfield : forall k v, In (k, v) e -> get q k = Some v).
  { intros k v Hin. specialize (Hm _ Hin). cbn [fst snd] in Hm.
    destruct (Hfe k v Hin) as [Hk [s ->]]. rewrite Hk in Hm. cbn [orb] in Hm.
    destruct (get q k) as [w|] eqn:Hg; [|discriminate].
    destruct (Hfq k w (get_In _ _ Hg)) as [_ [t ->]].
    cbn [toString] in Hm. apply str_eqb_eq in Hm. subst t. reflexivity. }
  assert (Hle : List.length e <= List.length q).
  { rewrite <- (length_map fst e), <- (length_map fst q).
    apply NoDup_incl_length; [exact Hnd|].
    intros k Hk. apply in_map_iff in Hk. destruct Hk as [[k' v] [<- Hin]].
    apply in_map_iff. exists (k', v). split; [reflexivity|].
    apply get_In, Hfield, Hin. }
  cbn [isEqual]. apply andb_true_iff. split; [apply Nat.eqb_eq; lia|].
  apply forallb_forall. intros [k v] Hin. cbn [fst snd].
  rewrite (Hfield k v Hin). destruct (Hfe k v Hin) as [_ [s ->]].
  cbn [isEqual]. apply str_eqb_eq. reflexivity.
Qed.

(** An equal plain pattern matches, with the depth of the query. *)
Lemma equal_is_match (e q : obj) :
  plain e = true -> plain q = true ->
  isEqual (VObj e) (VObj q) = true ->
  Index.matches e q = true /\ List.length e = List.length q.
Proof.
  intros He Hq Heq. destruct (plain_parts e He) as [_ Hfe].
  cbn [isEqual] in Heq. apply andb_true_iff in Heq. destruct Heq as [Hlen Hall].
  apply Nat.eqb_eq in Hlen. split; [|exact Hlen].
  unfold Index.matches. rewrite forallb_forall in Hall |- *.
  intros [k v] Hin. specialize (Hall _ Hin). cbn [fst snd] in Hall |- *.
  destruct (Hfe k v Hin) as [-> [s ->]]. cbn [orb].
  destruct (get q k) as [w|]; [|discriminate].
  destruct w; cbn [isEqual] in Hall; try discriminate.
  apply str_eqb_eq in Hall. subst. cbn [toString]. apply str_eqb_eq. reflexivity.
Qed.

(** What the depth-ordered lookup returns: a match that no match of the
    index is deeper than. *)
Lemma lookup_depth_best (q : obj) (idx : Index.t P) (best : option (Index.entry P)) :
  (forall b, best = Some b -> Index.matches (fst b) q = true) ->
  match fold_left (Index.deeper q) idx best with
  | Some f =>
      Index.matches (fst f) q = true
      /\ (forall e, In e idx -> Index.matches (fst e) q = true ->
                    Index.depth (fst e) <= Index.depth (fst f))
      /\ (forall b, best = Some b -> Index.depth (fst b) <= Index.depth (fst f))
  | None => best = None /\ forall e, In e idx -> Index.matches (fst e) q = false
  end.
Proof.
  revert best. induction idx as [|e r IH]; intros best Hbest.
  - cbn [fold_left]. destruct best as [b|].
    + split; [apply Hbest; reflexivity|]. split; [intros e []|].
      intros b' E. injection E as <-. lia.
    + split; [reflexivity | intros e []].
  - cbn [fold_left].
    assert (Hnext : forall b, Index.deeper q best e = Some b ->
                              Index.matches (fst b) q = true).
    { intros b. unfold Index.deeper.
      destruct (Index.matches (fst e) q) eqn:Hm; [|apply Hbest].
      destruct best as [b0|].
      - destruct (Nat.ltb _ _); intros E; injection E as <-;
          [exact Hm | apply Hbest; reflexivity].
      - intros E. injection E as <-. exact Hm. }
    specialize (IH (Index.deeper q best e) Hnext).
    destruct (fold_left (Index.deeper q) r (Index.deeper q best e)) as [f|].
    + destruct IH as (Hf & Hall & Hprev). split; [exact Hf|]. split.
      * intros x [<-|Hin] Hx; [|apply Hall; assumption].
        unfold Index.deeper in Hprev. rewrite Hx in Hprev.
        destruct best as [b0|].
        -- destruct (Nat.ltb_spec (Index.depth (fst b0)) (Index.depth (fst e))).
           ++ apply (Hprev e eq_refl).
           ++ specialize (Hprev b0 eq_refl). lia.
        -- apply (Hprev e eq_refl).
      * intros b ->. unfold Index.deeper in Hprev.
        destruct (Index.matches (fst e) q); [|apply (Hprev b eq_refl)].
        destruct (Nat.ltb_spec (Index.depth (fst b)) (Index.depth (fst e))).
        -- specialize (Hprev e eq_refl). lia.
        -- apply (Hprev b eq_refl).
    + destruct IH as [Hnone Hall]. unfold Index.deeper in Hnone.
      destruct (Index.matches (fst e) q) eqn:Hm.
      * destruct best as [b0|]; [destruct (Nat.ltb _ _)|]; discriminate.
      * split; [exact Hnone|]. intros x [<-|Hin]; [exact Hm | apply Hall, Hin].
Qed.

Lemma lookup_depth_In (q : obj) (idx : Index.t P) (best : option (Index.entry P))
      (f : Index.entry P) :
  fold_left (Index.deeper q) idx best = Some f -> best = Some f \/ In f idx.
Proof.
  revert best. induction idx as [|e r IH]; intros best; cbn [fold_left].
  - intros ->. left. reflexivity.
  - intros H. destruct (IH _ H) as [Hd|Hin]; [|right; right; exact Hin].
    unfold Index.deeper in Hd. destruct (Index.matches (fst e) q).
    + destruct best as [b|].
      * destruct (Nat.ltb _ _).
        -- injection Hd as <-. right. left. reflexivity.
        -- left. exact Hd.
      * injection Hd as <-. right. left. reflexivity.
    + left. exact Hd.
Qed.

(** Under depth order the probe finds an equal pattern whenever the index
    holds one. *)
Lemma probe_finds_equal (idx : Index.t P) (q : obj) (e : Index.entry P) :
  plain q = true ->
  forallb (fun x => plain (fst x)) idx = true ->
  In e idx -> isEqual (VObj (fst e)) (VObj q) = true ->
  exists f, Index.lookup Index.Depth idx q = Some f
            /\ isEqual (VObj (fst f)) (VObj q) = true.
Proof.
  intros Hq Hidx Hin Heq. rewrite forallb_forall in Hidx.
  destruct (equal_is_match (fst e) q (Hidx _ Hin) Hq Heq) as [Hm Hlen].
  cbn [Index.lookup].
  pose proof (@lookup_depth_best q idx None ltac:(discriminate)) as Hbest.
  destruct (fold_left (Index.deeper q) idx None) as [f|] eqn:Hf.
  - exists f. split; [reflexivity|].
    destruct Hbest as (Hfm & Hall & _).
    destruct (lookup_depth_In _ _ _ Hf) as [|Hfin]; [discriminate|].
    apply full_match_is_equal; [apply Hidx, Hfin | exact Hq | exact Hfm |].
    specialize (Hall e Hin Hm).
    rewrite (plain_depth _ (Hidx _ Hin)), (plain_depth _ (Hidx _ Hfin)) in Hall.
    lia.
  - destruct Hbest as [_ Hnone]. rewrite (Hnone e Hin) in Hm. discriminate.
Qed.

End DepthProbe.

Section DepthInvariant.

Variable i : Bishop.instance.
Variable p : obj.
Variable h : handler.

Hypothesis forbidden : truthy (Bishop.forbidSameRouteNames (Bishop.conf i)) = true.
Hypothesis by_depth : Bishop.matchOrder (Bishop.conf i) = Index.Depth.
Hypothesis plain_index : forallb (fun x => plain (fst x)) (Bishop.pm i) = true.
Hypothesis plain_pattern : plain p = true.

(** Under depth order, with plain patterns, [add] refuses a pattern the
    index holds and leaves the instance as it is. *)
Lemma add_refuses_duplicate_under_depth (e : Index.entry payload) :
  In e (Bishop.pm i) -> isEqual (VObj (fst e)) (VObj p) = true ->
  Bishop.add i (VObj p) h = (Some (DuplicatePattern p), i).
Proof.
  intros Hin Heq. unfold Bishop.add. cbn [Utils.objectify].
  rewrite cloneDeep_id. cbn [entries]. rewrite forbidden, by_depth.
  destruct (probe_finds_equal (Bishop.pm i) p e plain_pattern plain_index Hin Heq)
    as (f & -> & ->).
  reflexivity.
Qed.

(** So invariant (I3) is kept by [add] under depth order. *)
Lemma add_keeps_one_entry_per_pattern :
  one_entry_per_pattern (Bishop.pm i) ->
  one_entry_per_pattern (Bishop.pm (snd (Bishop.add i (VObj p) h))).
Proof.
  intros Hone.
  destruct (fst (Bishop.add i (VObj p) h)) as [err|] eqn:Hres.
  - (* refused: the instance is the same *)
    unfold Bishop.add in *. destruct (_ && _); [exact Hone | discriminate].
  - assert (Hfresh : forall e, In e (Bishop.pm i) ->
                               isEqual (VObj (fst e)) (VObj p) = false).
    { intros e Hin. destruct (isEqual (VObj (fst e)) (VObj p)) eqn:Heq; [|reflexivity].
      rewrite (add_refuses_duplicate_under_depth e Hin Heq) in Hres. discriminate. }
    unfold Bishop.add in *. cbn [Utils.objectify] in *.
    rewrite cloneDeep_id in *. cbn [entries] in *.
    destruct (_ && _); [discriminate|]. cbn [snd Bishop.pm]. unfold Index.add.
    intros n m e f Hnm Hn Hm.
    assert (Hcases : forall k x, nth_error (Bishop.pm i ++ [(p, {| type := match h with HFun _ => lit "local" | HName name => name end; handler_of := h |})]) k = Some x ->
                                 nth_error (Bishop.pm i) k = Some x
                                 \/ (k = List.length (Bishop.pm i) /\ fst x = p)).
    { intros k x Hk. destruct (Nat.lt_ge_cases k (List.length (Bishop.pm i))).
      - left. rewrite nth_error_app1 in Hk by assumption. exact Hk.
      - right. rewrite nth_error_app2 in Hk by assumption.
        destruct (k - List.length (Bishop.pm i)) as [|d] eqn:Hd.
        + cbn in Hk. injection Hk as <-. split; [lia | reflexivity].
        + cbn in Hk. destruct d; discriminate. }
    destruct (Hcases n e Hn) as [Hn'|[Hn' He]]; destruct (Hcases m f Hm) as [Hm'|[Hm' Hf]].
    + exact (Hone n m e f Hnm Hn' Hm').
    + rewrite Hf. apply Hfresh. apply (nth_error_In _ _ Hn').
    + pose proof (proj1 (nth_error_Some (Bishop.pm i) m)) as Hlt.
      rewrite Hm' in Hlt. specialize (Hlt ltac:(discriminate)). lia.
    + lia.
Qed.

End DepthInvariant.

(* ================================================================== *)
(** * The other revisions *)
(* ================================================================== *)

(** [throwIfPatternExists] of the utilities makes the same probe as [add]
    and misses the same duplicate under insertion order. *)
Example throwIfPatternExists_under_insertion_order :
  Utils.throwIfPatternExists Index.Insertion
                             (Bishop.pm (two_routes Index.Insertion))
                             (entries pattern_ab) = None
  /\ Utils.throwIfPatternExists Index.Depth
                                (Bishop.pm (two_routes Index.Depth))
                                (entries pattern_ab)
     = Some (DuplicatePattern (entries pattern_ab)).
Proof. split; reflexivity. Qed.

(** [BishopAlt.act] has the same test on the timeout and the same
    fire-and-forget executor: a negative timeout is raced, and a muted
    error is not logged. *)
Example act_alt_negative_timeout :
  result (BishopAlt.act_run slow_alt_instance role_a [(lit "$timeout", VNum (-1))])
  = Rejected 1 (PatternTimeout (VNum (-1))
                  [(lit "role", VStr (lit "a")); (lit "$timeout", VNum (-1))]).
Proof. reflexivity. Qed.

Example act_alt_nowait_muted :
  BishopAlt.act_run muting_alt_instance nowait_call []
  = {| result := Resolved 0 VUndefined;
       events := [(0, Lookup false (entries nowait_call));
                  (0, Invoke (lit "local") (entries nowait_call));
                  (5, Classify boom)] |}.
Proof. reflexivity. Qed.

Section ActAlt.

Variable i : BishopAlt.instance.
Variable _pattern : value.
Variable overrides : obj.

Let pattern : obj := BishopAlt.compose _pattern overrides.
Let timeout : value := BishopAlt.effective_timeout i pattern.
Let localOnly : bool := truthy (prop pattern (lit "$local")).
Let index : Index.t payload :=
  if localOnly then BishopAlt.pmLocal i else BishopAlt.pm i.

Variable m : Index.entry payload.
Variable method : handler.

Hypothesis given : truthy _pattern = true.
Hypothesis found :
  Index.lookup (BishopAlt.matchOrder (BishopAlt.conf i)) index pattern = Some m.
Hypothesis selected : BishopAlt.select_method i (snd m) = Some method.

Lemma act_alt_promised (r : run) :
  BishopAlt.execute i pattern (snd m) method = Promised r ->
  BishopAlt.act_run i _pattern overrides
  = {| result := result (if negb (truthy timeout) then r
                         else race timeout pattern r);
       events := [(0, Lookup localOnly pattern);
                  (0, Invoke (type (snd m)) pattern)] ++ events r |}.
Proof.
  intros He. unfold BishopAlt.act_run. rewrite given. cbn [negb].
  fold pattern. fold localOnly. fold index. rewrite found, selected.
  rewrite He. fold timeout. f_equal.
  destruct (truthy timeout); cbn [negb]; [|reflexivity].
  rewrite race_events. reflexivity.
Qed.

(** The timer of [BishopAlt.act] is applied on the same test. *)
Lemma act_alt_timeout (r : run) :
  BishopAlt.execute i pattern (snd m) method = Promised r ->
  let actual := result (BishopAlt.act_run i _pattern overrides) in
  (truthy timeout = true -> actual = result (race timeout pattern r))
  /\ (forall ms, timeout = VNum ms -> (1 <= ms <= TIMEOUT_MAX)%Z ->
      (forall t, settled_at (result r) = Some t -> (ms < Z.of_nat t)%Z) ->
      actual = Rejected (Z.to_nat ms) (PatternTimeout timeout pattern))
  /\ (forall ms t, timeout = VNum ms -> (1 <= ms <= TIMEOUT_MAX)%Z ->
      settled_at (result r) = Some t -> (Z.of_nat t < ms)%Z ->
      actual = result r)
  /\ (truthy timeout = false -> actual = result r).
Proof.
  intros He actual. unfold actual. rewrite (act_alt_promised He). cbn [result].
  split; [intros ->; reflexivity|].
  split; [|split].
  - intros ms Hm Hms Hslow. rewrite Hm.
    rewrite (proj1 (timer_delay_number Hms)). cbn [negb].
    apply race_lost; assumption.
  - intros ms t Hm Hms Hs Hfast. rewrite Hm.
    rewrite (proj1 (timer_delay_number Hms)). cbn [negb].
    apply race_won with (t := t); assumption.
  - intros ->. reflexivity.
Qed.

(** Its fire-and-forget executor resolves at once as well; the error of
    the handler is logged when the classifier returns a falsy value, and
    not when it mutes the error or fails itself. *)
Lemma act_alt_nowait (f : fn) :
  type (snd m) = lit "local" ->
  method = HFun f ->
  truthy (prop pattern (lit "$nowait")) = true ->
  (forall e, f pattern <> Throws e) ->
  let r := BishopAlt.act_run i _pattern overrides in
  result r = Resolved 0 VUndefined
  /\ forall t err, f pattern = Settles t (Rejects err) ->
       In (t, Classify err) (events r)
       /\ (In (t, LogError err) (events r)
           <-> BishopAlt.errorHandler (BishopAlt.terminateOn_ (BishopAlt.conf i)) err
               = inr false).
Proof.
  intros Hlocal Hmethod Hnowait Hreturns r.
  set (detached := match f pattern with
                   | Settles t (Rejects err) =>
                       BishopAlt.detached_catch (BishopAlt.conf i) t err
                   | _ => []
                   end).
  set (r0 := {| result := Resolved 0 VUndefined; events := detached |}).
  assert (Hexec : BishopAlt.execute i pattern (snd m) method = Promised r0).
  { rewrite Hmethod. unfold BishopAlt.execute. rewrite Hlocal, Hnowait. unfold str_eqb.
    destruct (str_eq_dec (lit "local") (lit "local")) as [_|Hne]; [|congruence].
    cbn [andb]. unfold BishopAlt.executor_nowait. cbn [call].
    destruct (f pattern) as [e|t s|] eqn:Hf; [|reflexivity|reflexivity].
    exfalso. exact (Hreturns e eq_refl). }
  pose proof (act_alt_promised Hexec) as Hrun. fold r in Hrun.
  split.
  - rewrite Hrun. cbn [result].
    destruct (truthy timeout); cbn [negb]; [|reflexivity].
    rewrite race_settled_at_once; reflexivity.
  - intros t err Hf. rewrite Hrun. cbn [events r0]. unfold detached. rewrite Hf.
    unfold BishopAlt.detached_catch. split.
    + right. right. left. reflexivity.
    + split.
      * intros [H|[H|[H|Hin]]]; try discriminate.
        destruct (BishopAlt.errorHandler _ err) as [crash|[]];
          try (destruct Hin); try reflexivity; discriminate.
      * intros ->. right. right. right. left. reflexivity.
Qed.

End ActAlt.

(* ================================================================== *)
(** * The store: cloning *)
(* ================================================================== *)

Section StoreFacts.

Import Store.

Lemma deref_app_l (h ext : heap) (l : loc) :
  l < List.length h -> deref (h ++ ext) l = deref h l.
Proof. intros H. unfold deref. apply nth_error_app1. exact H. Qed.

Lemma deref_in_range (h : heap) (l : loc) :
  l < List.length h -> exists o, deref h l = Some o.
Proof.
  intros H. unfold deref. destruct (nth_error h l) as [o|] eqn:E.
  - exists o. reflexivity.
  - apply nth_error_None in E. lia.
Qed.

Lemma deref_some_range (h : heap) (l : loc) (o : hobj) :
  deref h l = Some o -> l < List.length h.
Proof.
  unfold deref. intros H. apply nth_error_Some. congruence.
Qed.

Lemma store_middle (h ext : heap) (c o : hobj) :
  store (h ++ c :: ext) (List.length h) o = h ++ o :: ext.
Proof.
  induction h as [|x h IH]; simpl; [reflexivity|]. rewrite IH. reflexivity.
Qed.

Lemma deref_middle (h ext : heap) (o : hobj) :
  deref (h ++ o :: ext) (List.length h) = Some o.
Proof.
  unfold deref. rewrite nth_error_app2 by lia.
  rewrite Nat.sub_diag. reflexivity.
Qed.

Lemma deref_middle_other (h ext : heap) (c o : hobj) (l : loc) :
  l <> List.length h -> deref (h ++ o :: ext) l = deref (h ++ c :: ext) l.
Proof.
  intros Hne. unfold deref. destruct (Nat.lt_ge_cases l (List.length h)).
  - rewrite !nth_error_app1 by assumption. reflexivity.
  - rewrite !nth_error_app2 by assumption.
    destruct (l - List.length h) eqn:E; [lia | reflexivity].
Qed.

Lemma stacked_In (s : stack) (l l' : loc) :
  stacked s l = Some l' -> In (l, l') s.
Proof.
  induction s as [|[x y] r IH]; simpl; [discriminate|].
  destruct (Nat.eqb_spec x l) as [->|Hne].
  - intros E. injection E as <-. left. reflexivity.
  - intros E. right. apply IH, E.
Qed.

Lemma stacked_None (s : stack) (l : loc) :
  stacked s l = None -> ~ In l (map fst s).
Proof.
  induction s as [|[x y] r IH]; simpl; [tauto|].
  destruct (Nat.eqb_spec x l) as [->|Hne]; [discriminate|].
  intros E [H|H]; [congruence | exact (IH E H)].
Qed.

Lemma bounded_length (ks : list nat) (n : nat) :
  NoDup ks -> (forall k, In k ks -> k < n) -> List.length ks <= n.
Proof.
  intros Hnd Hb. pose proof (@NoDup_incl_length _ ks (seq 0 n) Hnd) as H.
  rewrite length_seq in H. apply H.
  intros k Hk. apply in_seq. specialize (Hb k Hk). lia.
Qed.

Lemma renamed_mono (s t : stack) (v v' : hval) :
  incl s t -> renamed s v v' -> renamed t v v'.
Proof.
  intros Hi. destruct v; simpl; try (intros H; exact H).
  intros [l' [E Hin]]. exists l'. split; [exact E | apply Hi, Hin].
Qed.

Lemma copy_of_mono (s t : stack) (o o' : hobj) :
  incl s t -> copy_of s o o' -> copy_of t o o'.
Proof.
  intros Hi H. induction H as [|kv kv' o o' [Hk Hv] _ IH]; constructor.
  - split; [exact Hk | apply (@renamed_mono s t); assumption].
  - exact IH.
Qed.

Lemma well_formed_object (h : heap) (l : loc) (o : hobj) :
  well_formed h = true -> deref h l = Some o ->
  distinct (keys o) = true
  /\ forallb (fun kv => in_range (List.length h) (snd kv)) o = true.
Proof.
  unfold well_formed. intros Hc Hd. rewrite forallb_forall in Hc.
  apply andb_true_iff. apply Hc. unfold deref in Hd.
  apply nth_error_In in Hd. exact Hd.
Qed.

Lemma closed_refs (h : heap) (l : loc) (o : hobj) :
  well_formed h = true -> deref h l = Some o ->
  forallb (fun kv => in_range (List.length h) (snd kv)) o = true.
Proof. intros Hc Hd. apply (@well_formed_object h l o Hc Hd). Qed.

(** ** The invariant of the traversal *)

Section Traversal.

(** The store at the start, with the objects of the caller. *)
Variable h0 : heap.
Hypothesis h0_closed : well_formed h0 = true.

Lemma cloneFields_achieves clone n :
  achieves h0 clone n ->
  forall fs h s pending,
    invariant h0 h s pending ->
    forallb (fun kv => in_range (List.length h0) (snd kv)) fs = true ->
    List.length h0 < n + List.length s ->
    exists fs' ext s_new,
      cloneFields clone fs h s = Some (fs', h ++ ext, s_new ++ s)
      /\ invariant h0 (h ++ ext) (s_new ++ s) pending
      /\ copy_of (s_new ++ s) fs fs'
      /\ (forall x y, In (x, y) s_new -> List.length h <= y).
Proof.
  intros Hclone. induction fs as [|[k v] r IH]; intros h s pending Hinv Hfs Hb.
  - exists [], [], []. cbn [cloneFields app]. rewrite app_nil_r.
    split; [reflexivity|]. split; [exact Hinv|]. split; [constructor|].
    intros x y [].
  - cbn [forallb snd] in Hfs. apply andb_true_iff in Hfs. destruct Hfs as [Hv Hr].
    destruct (Hclone h s pending v Hinv Hv Hb)
      as (v' & e1 & s1 & Hc & Hinv1 & Hren & Hnew1).
    assert (Hb1 : List.length h0 < n + List.length (s1 ++ s)).
    { rewrite length_app. lia. }
    destruct (IH (h ++ e1) (s1 ++ s) pending Hinv1 Hr Hb1)
      as (r' & e2 & s2 & Hf & Hinv2 & Hcopy & Hnew2).
    exists ((k, v') :: r'), (e1 ++ e2), (s2 ++ s1).
    cbn [cloneFields]. rewrite Hc, Hf. rewrite <- !app_assoc in *.
    split; [reflexivity|]. split; [exact Hinv2|]. split.
    + constructor; [|exact Hcopy]. split; [reflexivity|]. cbn [snd].
      apply renamed_mono with (s := s1 ++ s); [|exact Hren].
      intros e He. apply in_or_app. right. exact He.
    + intros x y Hin. apply in_app_or in Hin. destruct Hin as [Hin|Hin].
      * specialize (Hnew2 x y Hin). rewrite length_app in Hnew2. lia.
      * exact (Hnew1 x y Hin).
Qed.

Lemma invariant_reserve (h : heap) (s : stack) (pending : list loc) (l : loc) :
  invariant h0 h s pending -> l < List.length h0 -> ~ In l (map fst s) ->
  invariant h0 (h ++ [([] : hobj)]) ((l, List.length h) :: s) (List.length h :: pending).
Proof.
  intros [[ext0 Hext] Hk Hr Hf] Hl Hfresh. constructor.
  - exists (ext0 ++ [([] : hobj)]). rewrite Hext, app_assoc. reflexivity.
  - cbn [map fst]. constructor; assumption.
  - intros x y [E|Hin].
    + injection E as <- <-. rewrite length_app. cbn [List.length].
      rewrite Hext, length_app. lia.
    + specialize (Hr x y Hin). rewrite length_app. cbn [List.length]. lia.
  - intros x y [E|Hin].
    + injection E as <- <-. left. left. reflexivity.
    + destruct (Hf x y Hin) as [Hp|(o & o' & Ho & Ho' & Hc)].
      * left. right. exact Hp.
      * right. exists o, o'. split; [exact Ho|]. split.
        -- rewrite deref_app_l; [exact Ho'|]. apply (Hr x y Hin).
        -- apply copy_of_mono with (s := s); [|exact Hc].
           intros e He. right. exact He.
Qed.

Lemma baseClone_achieves (fuel : nat) : achieves h0 (baseClone fuel) fuel.
Proof.
  induction fuel as [|n IH]; intros h s pending v Hinv Hv Hb.
  - (* no fuel: every object of the start sits on the stack already *)
    assert (Hfull : List.length s <= List.length h0).
    { rewrite <- length_map with (f := fst). apply bounded_length.
      - apply (inv_keys Hinv).
      - intros k Hk. apply in_map_iff in Hk. destruct Hk as [[x y] [<- Hin]].
        apply (inv_range Hinv x y Hin). }
    lia.
  - destruct v as [| | | | | |l];
      try (eexists _, [], []; cbn [baseClone app]; rewrite app_nil_r;
           split; [reflexivity|]; split; [exact Hinv|];
           split; [reflexivity | intros x y []]).
    cbn [baseClone]. destruct (stacked s l) as [l'|] eqn:Hst.
    + exists (HRef l'), [], []. cbn [app]. rewrite app_nil_r.
      split; [reflexivity|]. split; [exact Hinv|]. split.
      * exists l'. split; [reflexivity | apply stacked_In, Hst].
      * intros x y [].
    + cbn [in_range] in Hv. apply Nat.ltb_lt in Hv.
      destruct (inv_grown Hinv) as [ext0 Hext].
      assert (Hold : deref h l = deref h0 l).
      { rewrite Hext. apply deref_app_l. exact Hv. }
      destruct (@deref_in_range h0 l Hv) as [o Ho]. rewrite Hold, Ho.
      cbn [alloc].
      pose proof (@invariant_reserve h s pending l Hinv Hv (@stacked_None s l Hst)) as Hinv1.
      assert (Hb1 : List.length h0 < n + List.length ((l, List.length h) :: s)).
      { change (List.length ((l, List.length h) :: s)) with (S (List.length s)).
        lia. }
      destruct (@cloneFields_achieves _ n IH o _ _ _ Hinv1 (@closed_refs h0 l o h0_closed Ho) Hb1)
        as (o' & ef & sf & Hf & Hinv2 & Hcopy & Hnew).
      exists (HRef (List.length h)), (o' :: ef), (sf ++ [(l, List.length h)]).
      rewrite Hf. rewrite <- app_assoc. cbn [app]. rewrite store_middle.
      rewrite <- (app_assoc sf). cbn [app].
      rewrite <- app_assoc in Hinv2. cbn [app] in Hinv2.
      assert (Hin_l : In (l, List.length h) (sf ++ (l, List.length h) :: s)).
      { apply in_or_app. right. left. reflexivity. }
      split; [reflexivity|]. split; [|split].
      * destruct Hinv2 as [_ Hk Hr Hfill]. constructor.
        -- exists (ext0 ++ o' :: ef). rewrite Hext, <- app_assoc. reflexivity.
        -- exact Hk.
        -- intros x y Hin. specialize (Hr x y Hin).
           rewrite length_app in Hr |- *. cbn [List.length] in Hr |- *. exact Hr.
        -- intros x y Hin. destruct (Nat.eq_dec y (List.length h)) as [->|Hne].
           ++ (* the clone just filled *)
              assert (x = l) as ->.
              { apply in_app_or in Hin. destruct Hin as [Hin|[E|Hin]].
                - specialize (Hnew x _ Hin). rewrite length_app in Hnew.
                  cbn [List.length] in Hnew. lia.
                - congruence.
                - pose proof (inv_range Hinv x _ Hin). lia. }
              right. exists o, o'. split; [exact Ho|]. split; [|exact Hcopy].
              apply deref_middle.
           ++ destruct (Hfill x y Hin) as [[E|Hp]|(q & q' & Hq & Hq' & Hc)].
              ** congruence.
              ** left. exact Hp.
              ** right. exists q, q'. split; [exact Hq|]. split; [|exact Hc].
                 rewrite deref_middle_other with (c := []) by exact Hne. exact Hq'.
      * exists (List.length h). split; [reflexivity | exact Hin_l].
      * intros x y Hin. apply in_app_or in Hin. destruct Hin as [Hin|[E|[]]].
        -- specialize (Hnew x y Hin). rewrite length_app in Hnew.
           cbn [List.length] in Hnew. lia.
        -- injection E as <- <-. lia.
Qed.

End Traversal.

(** ** The clone *)

Section Clone.

Variable h0 : heap.
Hypothesis h0_closed : well_formed h0 = true.

(** [cloneDeep] ends with a result, leaves the objects there were in
    place, and what it made is a copy of what was reachable. *)
Lemma cloneDeep_copies (v : hval) :
  in_range (List.length h0) v = true ->
  exists v' ext s,
    cloneDeep h0 v = Some (v', h0 ++ ext)
    /\ renamed s v v'
    /\ clone_map h0 s (h0 ++ ext).
Proof.
  intros Hv.
  assert (Hinv : invariant h0 h0 [] []).
  { constructor.
    - exists []. rewrite app_nil_r. reflexivity.
    - constructor.
    - intros l l' [].
    - intros l l' []. }
  destruct (@baseClone_achieves h0 h0_closed (S (List.length h0)) h0 [] [] v Hinv Hv)
    as (v' & ext & s & Hc & Hinv' & Hren & _).
  { cbn [List.length]. lia. }
  rewrite app_nil_r in *. exists v', ext, s. unfold cloneDeep. rewrite Hc.
  split; [reflexivity|]. split; [exact Hren|].
  intros l l' Hin. destruct (inv_range Hinv' l l' Hin) as [Hl Hl'].
  split; [exact Hl|]. split; [exact Hl'|].
  destruct (inv_filled Hinv' l l' Hin) as [[]|H]. exact H.
Qed.

Variable s : stack.
Variable h' : heap.
Hypothesis cloned : clone_map h0 s h'.

(** The clone is deeply equal to the original. *)
Lemma reify_clone (fuel : nat) (v v' : hval) :
  renamed s v v' -> reify fuel h' v' = reify fuel h0 v.
Proof.
  revert v v'. induction fuel as [|n IH]; intros v v' Hren.
  - destruct v; cbn [renamed] in Hren; try (subst v'; reflexivity).
    destruct Hren as [l' [-> _]]. reflexivity.
  - destruct v; cbn [renamed] in Hren; try (subst v'; reflexivity).
    destruct Hren as [l' [-> Hin]].
    destruct (cloned _ _ Hin) as (_ & _ & o & o' & Ho & Ho' & Hcopy).
    cbn [reify]. rewrite Ho, Ho'. f_equal. clear Ho Ho'.
    induction Hcopy as [|kv kv' o o' [Hk Hv] _ IHc]; [reflexivity|].
    cbn [map]. rewrite Hk, (IH _ _ Hv). f_equal. exact IHc.
Qed.

(** What the clone holds does not depend on the objects there were. *)
Lemma reify_untouched (h'' : heap) (fuel : nat) (v v' : hval) :
  clones_untouched h0 h' h'' ->
  renamed s v v' -> reify fuel h'' v' = reify fuel h' v'.
Proof.
  intros Hsame. revert v v'. induction fuel as [|n IH]; intros v v' Hren.
  - destruct v; cbn [renamed] in Hren; try (subst v'; reflexivity).
    destruct Hren as [l' [-> _]]. reflexivity.
  - destruct v; cbn [renamed] in Hren; try (subst v'; reflexivity).
    destruct Hren as [l' [-> Hin]].
    destruct (cloned _ _ Hin) as (_ & Hl' & o & o' & Ho & Ho' & Hcopy).
    cbn [reify]. rewrite (Hsame l' Hl'), Ho'. f_equal. clear Ho Ho'.
    induction Hcopy as [|kv kv' o o' [Hk Hv] _ IHc]; [reflexivity|].
    cbn [map]. rewrite (IH _ _ Hv). f_equal. exact IHc.
Qed.

End Clone.

(** ** Merging into a new object *)

Section Merge.

Lemma get_absent (A : Type) (o : list (str * A)) (k : str) :
  ~ In k (keys o) -> get o k = None.
Proof.
  induction o as [|[k0 v0] r IH]; simpl; intros H; [reflexivity|].
  destruct (str_eq_dec k0 k) as [->|Hne].
  - exfalso. apply H. left. reflexivity.
  - apply IH. intros Hin. apply H. right. exact Hin.
Qed.

Lemma get_fold_put (A : Type) (fs acc : list (str * A)) (k : str) :
  NoDup (keys fs) ->
  get (fold_left (fun o kv => put o (fst kv) (snd kv)) fs acc) k
  = match get fs k with Some v => Some v | None => get acc k end.
Proof.
  revert acc. induction fs as [|[k0 v0] r IH]; intros acc Hnd; [reflexivity|].
  cbn [keys map fst] in Hnd. inversion Hnd as [|? ? Hk Hr]; subst.
  cbn [fold_left fst snd get]. rewrite (IH _ Hr), get_put.
  destruct (str_eq_dec k0 k) as [->|Hne]; [|reflexivity].
  rewrite (get_absent _ _ Hk). reflexivity.
Qed.

Lemma copy_of_keys (s : stack) (o o' : hobj) : copy_of s o o' -> keys o' = keys o.
Proof.
  intros H. induction H as [|kv kv' o o' [Hk _] _ IH]; [reflexivity|].
  cbn [keys map]. rewrite Hk. f_equal. exact IH.
Qed.

Lemma overriding_from (h : heap) (payloads : list loc) (k : str) (given : option hval) :
  fold_left (fun given q => match get (own h (HRef q)) k with
                            | Some v => Some v
                            | None => given
                            end) payloads given
  = match overriding h payloads k with Some v => Some v | None => given end.
Proof.
  unfold overriding. revert given.
  induction payloads as [|q r IH]; intros given; [reflexivity|].
  cbn [fold_left]. rewrite IH. rewrite (IH (match get _ k with Some v => Some v | None => None end)).
  destruct (fold_left _ r None); [reflexivity|].
  destruct (get (own h (HRef q)) k); reflexivity.
Qed.

Lemma get_assigned (h : heap) (payloads : list loc) (acc : hobj) (k : str) :
  well_formed h = true ->
  get (fold_left (fun o src => fold_left (fun o kv => put o (fst kv) (snd kv))
                                         (own h src) o)
                 (map HRef payloads) acc) k
  = match overriding h payloads k with Some v => Some v | None => get acc k end.
Proof.
  intros Hwf. rewrite <- overriding_from. revert acc.
  induction payloads as [|q r IH]; intros acc; [reflexivity|].
  cbn [map fold_left]. rewrite IH. f_equal.
  rewrite get_fold_put; [reflexivity|].
  cbn [own]. destruct (deref h q) as [o|] eqn:Hq; [|constructor].
  apply distinct_NoDup. apply (@well_formed_object h q o Hwf Hq).
Qed.

Lemma own_app_l (h ext : heap) (q : loc) :
  q < List.length h -> own (h ++ ext) (HRef q) = own h (HRef q).
Proof. intros H. cbn [own]. rewrite deref_app_l by exact H. reflexivity. Qed.

End Merge.

(** ** Registration and dispatch *)

Section CallerPattern.

Variable h : heap.
Variable i : instance.
Variable p : loc.

Hypothesis h_well_formed : well_formed h = true.
Hypothesis p_is_object : p < List.length h.

Lemma add_stores_clone (hd : handler) :
  exists l' ext s,
    In (p, l') s
    /\ clone_map h s (h ++ ext)
    /\ Store.add h i (HRef p) hd
       = Some (if exists_already (h ++ ext) i (view (h ++ ext) (HRef l'))
               then (Some (DuplicatePattern (view (h ++ ext) (HRef l'))), i, h ++ ext)
               else (None,
                     {| conf := conf i;
                        pm := pm i ++ [(l', payload_for hd)];
                        pmLocal := if str_eqb (type (payload_for hd)) (lit "local")
                                   then pmLocal i ++ [(l', payload_for hd)]
                                   else pmLocal i |},
                     h ++ ext)).
Proof.
  assert (Hv : in_range (List.length h) (HRef p) = true).
  { apply Nat.ltb_lt. exact p_is_object. }
  destruct (@cloneDeep_copies h h_well_formed (HRef p) Hv)
    as (v' & ext & s & Hc & Hren & Hmap).
  destruct Hren as [l' [-> Hin]].
  exists l', ext, s. split; [exact Hin|]. split; [exact Hmap|].
  unfold Store.add. cbn [objectify]. rewrite Hc.
  destruct (exists_already (h ++ ext) i (view (h ++ ext) (HRef l'))); reflexivity.
Qed.

(** C10. For a pattern given as an object of a well-formed store, [add]
    ends, changes none of the objects there were, and makes a new object
    that is deeply equal to the pattern and stays as it is whatever
    becomes of the objects there were. Unless the duplicate check refuses
    the pattern, which it cannot do when [forbidSameRouteNames] is falsy,
    a reference to that new object is what [add] appends to the index of
    all patterns, and to the index of local patterns when the handler is
    of the local type; the indices are otherwise as they were, and the
    caller's own reference is in neither entry. When the check refuses the
    pattern the instance is unchanged. The pattern [act] composes is again
    a new object, made without a change to the objects there were: a key
    the payloads give has the value of the last payload that gives it,
    every other key has the field of a copy of the caller's pattern whose
    references are all to objects made by the call. *)
Theorem add_and_act_leave_the_pattern (hd : handler) (payloads : list loc) :
  forallb (fun q => Nat.ltb q (List.length h)) payloads = true ->
  (exists thrown i' h' l',
      Store.add h i (HRef p) hd = Some (thrown, i', h')
      /\ (forall x, x < List.length h -> deref h' x = deref h x)
      /\ List.length h <= l' < List.length h'
      /\ l' <> p
      /\ (forall fuel, reify fuel h' (HRef l') = reify fuel h (HRef p))
      /\ (forall h'', clones_untouched h h' h'' ->
                      forall fuel, reify fuel h'' (HRef l') = reify fuel h' (HRef l'))
      /\ match thrown with
         | None =>
             exists_already h' i (view h' (HRef l')) = false
             /\ i' = {| conf := conf i;
                        pm := pm i ++ [(l', payload_for hd)];
                        pmLocal := if str_eqb (type (payload_for hd)) (lit "local")
                                   then pmLocal i ++ [(l', payload_for hd)]
                                   else pmLocal i |}
         | Some e =>
             exists_already h' i (view h' (HRef l')) = true
             /\ e = DuplicatePattern (view h' (HRef l'))
             /\ i' = i
         end
      /\ (truthy (Bishop.forbidSameRouteNames (conf i)) = false -> thrown = None))
  /\ (exists l h' s o o' merged,
        Store.compose h (HRef p) payloads = Some (HRef l, h')
        /\ (forall x, x < List.length h -> deref h' x = deref h x)
        /\ List.length h <= l < List.length h'
        /\ deref h' l = Some merged
        /\ deref h p = Some o
        /\ copy_of s o o'
        /\ (forall x y, In (x, y) s -> List.length h <= y)
        /\ (forall k, get merged k
                      = match overriding h payloads k with
                        | Some v => Some v
                        | None => get o' k
                        end)).
Proof.
  intros Hpayloads. split.
  - destruct (add_stores_clone hd) as (l' & ext & s & Hin & Hmap & Hadd).
    destruct (Hmap _ _ Hin) as (_ & Hl' & _).
    assert (Hren : renamed s (HRef p) (HRef l')).
    { exists l'. split; [reflexivity | exact Hin]. }
    destruct (exists_already (h ++ ext) i (view (h ++ ext) (HRef l'))) eqn:Hprobe.
    + exists (Some (DuplicatePattern (view (h ++ ext) (HRef l')))), i, (h ++ ext), l'.
      split; [exact Hadd|]. split; [intros x Hx; apply deref_app_l, Hx|].
      split; [exact Hl'|]. split; [pose proof p_is_object; lia|].
      split; [intros fuel; apply (@reify_clone h s (h ++ ext) Hmap fuel _ _ Hren)|].
      split; [intros h'' Hsame fuel;
              apply (@reify_untouched h s (h ++ ext) Hmap h'' fuel _ _ Hsame Hren)|].
      split; [split; [exact Hprobe | split; reflexivity]|].
      intros Hoff. unfold exists_already in Hprobe. rewrite Hoff in Hprobe.
      discriminate.
    + eexists None, _, (h ++ ext), l'.
      split; [exact Hadd|]. split; [intros x Hx; apply deref_app_l, Hx|].
      split; [exact Hl'|]. split; [pose proof p_is_object; lia|].
      split; [intros fuel; apply (@reify_clone h s (h ++ ext) Hmap fuel _ _ Hren)|].
      split; [intros h'' Hsame fuel;
              apply (@reify_untouched h s (h ++ ext) Hmap h'' fuel _ _ Hsame Hren)|].
      split; [split; [exact Hprobe | reflexivity]|].
      intros _. reflexivity.
  - assert (Hv : in_range (List.length h) (HRef p) = true).
    { apply Nat.ltb_lt. exact p_is_object. }
    destruct (@cloneDeep_copies h h_well_formed (HRef p) Hv)
      as (v' & ext & s & Hc & Hren & Hmap).
    destruct Hren as [l' [-> Hin]].
    destruct (Hmap _ _ Hin) as (_ & Hl' & o & o' & Ho & Ho' & Hcopy).
    set (h1 := h ++ ext) in *.
    set (merged := fold_left
                     (fun o src => fold_left (fun o kv => put o (fst kv) (snd kv))
                                             (own h1 src) o)
                     (HRef l' :: map HRef payloads) []).
    exists (List.length h1), (h1 ++ [merged]), s, o, o', merged.
    split.
    { unfold Store.compose. cbn [objectify]. rewrite Hc. reflexivity. }
    split.
    { intros x Hx. unfold h1. rewrite <- app_assoc. apply deref_app_l, Hx. }
    split.
    { unfold h1. rewrite !length_app. cbn [List.length]. lia. }
    split.
    { apply deref_middle. }
    split; [exact Ho|]. split; [exact Hcopy|].
    split.
    { intros x y Hxy. apply (Hmap _ _ Hxy). }
    intros k. unfold merged. cbn [fold_left].
    assert (Hown : forall acc,
               fold_left (fun o src => fold_left (fun o kv => put o (fst kv) (snd kv))
                                                 (own h1 src) o)
                         (map HRef payloads) acc
               = fold_left (fun o src => fold_left (fun o kv => put o (fst kv) (snd kv))
                                                   (own h src) o)
                           (map HRef payloads) acc).
    { clear - Hpayloads. induction payloads as [|q r IH]; intros acc; [reflexivity|].
      cbn [forallb] in Hpayloads. apply andb_true_iff in Hpayloads.
      destruct Hpayloads as [Hq Hr]. apply Nat.ltb_lt in Hq.
      cbn [map fold_left]. unfold h1 at 2. rewrite own_app_l by exact Hq.
      apply IH. exact Hr. }
    rewrite Hown, get_assigned by exact h_well_formed.
    destruct (overriding h payloads k); [reflexivity|].
    cbn [own]. rewrite Ho'. rewrite get_fold_put; [destruct (get o' k); reflexivity|].
    rewrite (@copy_of_keys s o o' Hcopy). apply distinct_NoDup.
    apply (@well_formed_object h p o h_well_formed Ho).
Qed.

End CallerPattern.

End StoreFacts.

Lemma add_and_act_leave_the_pattern_witness :
  (exists i' h' l',
      Store.add caller_store empty_instance (Store.HRef 0) (HFun echo)
      = Some (None, i', h')
      /\ (forall x, x < 3 -> Store.deref h' x = Store.deref caller_store x)
      /\ 3 <= l' < List.length h'
      /\ Store.pm i' = [(l', Store.payload_for (HFun echo))]
      /\ Store.pmLocal i' = [(l', Store.payload_for (HFun echo))])
  /\ (exists l h',
        Store.compose caller_store (Store.HRef 0) [2] = Some (Store.HRef l, h')
        /\ (forall x, x < 3 -> Store.deref h' x = Store.deref caller_store x)
        /\ 3 <= l < List.length h').
Proof.
  destruct (@add_and_act_leave_the_pattern caller_store empty_instance 0
              eq_refl ltac:(cbn; lia) (HFun echo) [2] eq_refl)
    as [(thrown & i' & h' & l' & Hadd & Hframe & Hl' & _ & _ & _ & Hstored & Hoff)
        (l & h'' & s & o & o' & merged & Hc & Hframe' & Hl & _)].
  rewrite (Hoff eq_refl) in Hadd, Hstored. destruct Hstored as [_ ->].
  split.
  - eexists. exists h', l'. split; [exact Hadd|]. split; [exact Hframe|].
    split; [exact Hl'|]. split; reflexivity.
  - exists l, h''. repeat split; try assumption; apply Hl.
Defined.

(** The same call computed: the index refers to the clone at 3, whose
    nested object is the clone at 4, and the composed pattern at 5 holds
    the payload's field beside the cloned ones. *)
Example add_and_act_computed :
  option_map (fun r => (Store.pm (snd (fst r)), snd r))
             (Store.add caller_store empty_instance (Store.HRef 0) (HFun echo))
  = Some ([(3, Store.payload_for (HFun echo))],
          caller_store
          ++ [ [(lit "role", Store.HStr (lit "a")); (lit "where", Store.HRef 4)];
               [(lit "x", Store.HNum 1)] ])
  /\ Store.compose caller_store (Store.HRef 0) [2]
     = Some (Store.HRef 5,
             caller_store
             ++ [ [(lit "role", Store.HStr (lit "a")); (lit "where", Store.HRef 4)];
                  [(lit "x", Store.HNum 1)];
                  [(lit "role", Store.HStr (lit "a")); (lit "where", Store.HRef 4);
                   (lit "y", Store.HNum 2)] ]).
Proof. split; reflexivity. Qed.

(* ================================================================== *)
(** * Routing keys *)
(* ================================================================== *)


Section RoutingKey.

Definition str_le (a b : str) : Prop := str_leb a b = true.

Lemma nat_of_ascii_inj (x y : ascii) : nat_of_ascii x = nat_of_ascii y -> x = y.
Proof.
  intros H. rewrite <- (ascii_nat_embedding x), <- (ascii_nat_embedding y), H.
  reflexivity.
Qed.

Lemma str_leb_total (a b : str) : str_leb a b = true \/ str_leb b a = true.
Proof.
  revert b. induction a as [|x a IH]; intros [|y b]; cbn [str_leb]; auto.
  destruct (Nat.ltb_spec (nat_of_ascii x) (nat_of_ascii y)); [auto|].
  destruct (Nat.ltb_spec (nat_of_ascii y) (nat_of_ascii x)); [auto|].
  apply IH.
Qed.

Lemma str_leb_antisym (a b : str) :
  str_leb a b = true -> str_leb b a = true -> a = b.
Proof.
  revert b. induction a as [|x a IH]; intros [|y b]; cbn [str_leb];
    try discriminate; [reflexivity|].
  destruct (Nat.ltb_spec (nat_of_ascii x) (nat_of_ascii y));
    destruct (Nat.ltb_spec (nat_of_ascii y) (nat_of_ascii x));
    try discriminate; try lia.
  intros Hab Hba. f_equal; [apply nat_of_ascii_inj; lia | apply IH; assumption].
Qed.

Lemma str_leb_trans (a b c : str) :
  str_leb a b = true -> str_leb b c = true -> str_leb a c = true.
Proof.
  revert b c. induction a as [|x a IH]; intros [|y b] [|z c]; cbn [str_leb];
    try discriminate; try reflexivity.
  destruct (Nat.ltb_spec (nat_of_ascii x) (nat_of_ascii y));
    destruct (Nat.ltb_spec (nat_of_ascii y) (nat_of_ascii x));
    destruct (Nat.ltb_spec (nat_of_ascii y) (nat_of_ascii z));
    destruct (Nat.ltb_spec (nat_of_ascii z) (nat_of_ascii y));
    destruct (Nat.ltb_spec (nat_of_ascii x) (nat_of_ascii z));
    destruct (Nat.ltb_spec (nat_of_ascii z) (nat_of_ascii x));
    try discriminate; try reflexivity; try lia.
  apply IH.
Qed.

Lemma insert_sorted_perm (k : str) (l : list str) :
  Permutation (insert_sorted k l) (k :: l).
Proof.
  induction l as [|x r IH]; cbn [insert_sorted]; [reflexivity|].
  destruct (str_leb k x); [reflexivity|].
  rewrite IH. apply perm_swap.
Qed.

Lemma sort_perm (l : list str) : Permutation (sort l) l.
Proof.
  induction l as [|k r IH]; cbn [sort]; [reflexivity|].
  rewrite insert_sorted_perm, IH. reflexivity.
Qed.

Lemma insert_sorted_sorted (k : str) (l : list str) :
  StronglySorted str_le l -> StronglySorted str_le (insert_sorted k l).
Proof.
  induction l as [|x r IH]; intros Hs; cbn [insert_sorted].
  - repeat constructor.
  - inversion Hs as [|? ? Hr Hall]; subst.
    destruct (str_leb k x) eqn:Hkx.
    + constructor; [exact Hs|]. constructor; [exact Hkx|].
      rewrite Forall_forall in Hall |- *. intros y Hy.
      apply str_leb_trans with (b := x); [exact Hkx | apply Hall, Hy].
    + constructor; [apply IH, Hr|].
      rewrite Forall_forall in Hall |- *. intros y Hy.
      apply (Permutation_in _ (insert_sorted_perm k r)) in Hy.
      destruct Hy as [<-|Hy]; [|apply Hall, Hy].
      destruct (str_leb_total k x) as [H|H]; [congruence | exact H].
Qed.

Lemma sort_sorted (l : list str) : StronglySorted str_le (sort l).
Proof.
  induction l as [|k r IH]; cbn [sort]; [constructor|].
  apply insert_sorted_sorted, IH.
Qed.

Lemma sorted_perm_eq (l l' : list str) :
  StronglySorted str_le l -> StronglySorted str_le l' -> Permutation l l' -> l = l'.
Proof.
  revert l'. induction l as [|a l IH]; intros l' Hs Hs' Hp.
  - apply Permutation_nil in Hp. congruence.
  - destruct l' as [|b l'].
    + apply Permutation_sym, Permutation_nil in Hp. discriminate.
    + inversion Hs as [|? ? Hl Ha]; subst. inversion Hs' as [|? ? Hl' Hb]; subst.
      assert (a = b) as ->.
      { rewrite Forall_forall in Ha, Hb.
        assert (Hab : In b (a :: l)).
        { apply (Permutation_in _ (Permutation_sym Hp)). left. reflexivity. }
        assert (Hba : In a (b :: l')).
        { apply (Permutation_in _ Hp). left. reflexivity. }
        destruct Hab as [E|Hab]; [congruence|].
        destruct Hba as [E|Hba]; [congruence|].
        apply str_leb_antisym; [apply Ha, Hab | apply Hb, Hba]. }
      f_equal. apply IH; [exact Hl | exact Hl'|].
      apply Permutation_cons_inv with (a := b). exact Hp.
Qed.

Lemma sort_of_permutation (l l' : list str) :
  Permutation l l' -> sort l = sort l'.
Proof.
  intros Hp. apply sorted_perm_eq; try apply sort_sorted.
  rewrite !sort_perm. exact Hp.
Qed.

Lemma In_get (A : Type) (o : list (str * A)) (k : str) (v : A) :
  NoDup (keys o) -> In (k, v) o -> get o k = Some v.
Proof.
  induction o as [|[k0 v0] r IH]; cbn [keys map fst get]; intros Hnd Hin; [destruct Hin|].
  inversion Hnd as [|? ? Hk Hr]; subst.
  destruct Hin as [E|Hin].
  - injection E as -> ->. destruct (str_eq_dec k k); congruence.
  - destruct (str_eq_dec k0 k) as [->|Hne]; [|apply IH; assumption].
    exfalso. apply Hk. apply in_map_iff. exists (k, v). split; [reflexivity | exact Hin].
Qed.

Lemma get_of_permutation (A : Type) (o o' : list (str * A)) (k : str) :
  NoDup (keys o) -> Permutation o o' -> get o k = get o' k.
Proof.
  intros Hnd Hp.
  assert (Hnd' : NoDup (keys o')).
  { apply (Permutation_NoDup (l := keys o)); [|exact Hnd].
    unfold keys. apply Permutation_map, Hp. }
  destruct (get o k) as [v|] eqn:Hg.
  - symmetry. apply In_get; [exact Hnd'|].
    apply (Permutation_in _ Hp). apply get_In, Hg.
  - destruct (get o' k) as [v'|] eqn:Hg'; [|reflexivity].
    apply get_In in Hg'. apply (Permutation_in _ (Permutation_sym Hp)) in Hg'.
    rewrite (@In_get _ _ _ _ Hnd Hg') in Hg. discriminate.
Qed.

(** X1. The routing key of a pattern does not depend on the order in which
    its keys were set: two objects with the same properties give the same
    routing key. *)
Theorem routing_key_order_free (p q : obj) (replaceWild : str) :
  distinct (keys p) = true -> Permutation p q ->
  Routing.routingKeyFromPattern p replaceWild
  = Routing.routingKeyFromPattern q replaceWild.
Proof.
  intros Hd Hp. apply distinct_NoDup in Hd. unfold Routing.routingKeyFromPattern.
  rewrite (sort_of_permutation (l := keys p) (l' := keys q))
    by (unfold keys; apply Permutation_map, Hp).
  apply map_ext. intros k. unfold Routing.routing_item, prop.
  rewrite (get_of_permutation k Hd Hp). reflexivity.
Qed.

Lemma routing_key_order_free_witness :
  Routing.routingKeyFromPattern
    [(lit "role", VStr (lit "math")); (lit "cmd", VRegExp (lit ".*"))] (lit "#")
  = Routing.routingKeyFromPattern
      [(lit "cmd", VRegExp (lit ".*")); (lit "role", VStr (lit "math"))] (lit "#").
Proof.
  apply (@routing_key_order_free
           [(lit "role", VStr (lit "math")); (lit "cmd", VRegExp (lit ".*"))]
           [(lit "cmd", VRegExp (lit ".*")); (lit "role", VStr (lit "math"))]
           (lit "#") eq_refl).
  apply perm_swap.
Defined.

Example routing_key_sample :
  Routing.routingKeyFromPattern
    [(lit "role", VStr (lit "math")); (lit "cmd", VRegExp (lit ".*"))] (lit "*")
  = [lit "cmd.*"; lit "role.math"].
Proof. reflexivity. Qed.

End RoutingKey.

(* ================================================================== *)
(** * Registration of transports and patterns *)
(* ================================================================== *)

Section TransportStorage.

Lemma stored_under_app (s t : Utils.storage) (n : str) :
  Utils.stored_under (s ++ t) n
  = match Utils.stored_under s n with
    | Some r => Some r
    | None => Utils.stored_under t n
    end.
Proof.
  induction s as [|[k r] s IH]; cbn [app Utils.stored_under]; [reflexivity|].
  destruct (str_eq_dec k n); [reflexivity | exact IH].
Qed.

(** X2. A transport registered under a free name is found under that name,
    the other names keep what they had, and the name is taken: registering
    it again fails. *)
Theorem registerTransport_takes_the_name
        (s s' : Utils.storage) (name : str) (m : option fn) (o : obj) :
  Utils.registerTransport s name m o = inr s' ->
  Utils.stored_under s' name = Some {| Utils.request := m; Utils.options := o |}
  /\ (forall n, n <> name -> Utils.stored_under s' n = Utils.stored_under s n)
  /\ (forall m' o', Utils.registerTransport s' name m' o' = inl (TransportExists name)).
Proof.
  unfold Utils.registerTransport. intros H.
  destruct (Utils.stored_under s name) eqn:Hfree; [discriminate|].
  injection H as <-.
  assert (Hnow : Utils.stored_under
                   (s ++ [(name, {| Utils.request := m; Utils.options := o |})]) name
                 = Some {| Utils.request := m; Utils.options := o |}).
  { rewrite stored_under_app, Hfree. cbn [Utils.stored_under].
    destruct (str_eq_dec name name); congruence. }
  split; [exact Hnow|]. split.
  - intros n Hn. rewrite stored_under_app. cbn [Utils.stored_under].
    destruct (str_eq_dec name n); [congruence|].
    destruct (Utils.stored_under s n); reflexivity.
  - intros m' o'. rewrite Hnow. reflexivity.
Qed.

Lemma registerTransport_takes_the_name_witness :
  Utils.stored_under sample_storage (lit "http-client")
  = Some {| Utils.request := Some remote_echo;
            Utils.options := [(lit "timeout", VNum 1000)] |}
  /\ (forall n, n <> lit "http-client" ->
                Utils.stored_under sample_storage n = Utils.stored_under [] n)
  /\ (forall m' o', Utils.registerTransport sample_storage (lit "http-client") m' o'
                    = inl (TransportExists (lit "http-client"))).
Proof.
  apply (@registerTransport_takes_the_name [] sample_storage (lit "http-client")
           (Some remote_echo) [(lit "timeout", VNum 1000)]).
  reflexivity.
Defined.

Lemma stored_under_as_read (rs : Registration.remotes) (n : str) :
  Utils.stored_under (Registration.as_read rs) n
  = option_map (fun r => {| Utils.request := None;
                            Utils.options := Registration.options r |})
               (get rs n).
Proof.
  induction rs as [|[k r] rs IH]; cbn [Registration.as_read map fst snd
                                        Utils.stored_under get]; [reflexivity|].
  destruct (str_eq_dec k n); [reflexivity | exact IH].
Qed.

(** X3. A transport registered by [registerRemoteTransport] is kept under
    its name with its wrapper, but the entry has no [request]: handed the
    same storage, [createPayloadWrapper] refuses a route to that transport
    and leaves the headers as they were. *)
Theorem registerRemoteTransport_entry_has_no_request
        (rs rs' : Registration.remotes) (name : str) (w : fn) (opts headers : obj) :
  Registration.registerRemoteTransport rs name w opts = inr rs' ->
  truthy (prop headers (lit "local")) = false ->
  get rs' name = Some {| Registration.options := opts; Registration.wrapper := w |}
  /\ Utils.createPayloadWrapper (HName name) headers (Registration.as_read rs')
     = (inl (NoRequestMethod name), headers).
Proof.
  unfold Registration.registerRemoteTransport. intros H Hlocal.
  destruct (get rs name) eqn:Hfree; [discriminate|]. injection H as <-.
  split.
  - rewrite get_put. destruct (str_eq_dec name name); congruence.
  - unfold Utils.createPayloadWrapper. rewrite Hlocal, stored_under_as_read.
    destruct (get (put rs name _) name); reflexivity.
Qed.

Lemma registerRemoteTransport_entry_has_no_request_witness :
  get [(lit "amqp", {| Registration.options := [];
                       Registration.wrapper := remote_echo |})] (lit "amqp")
  = Some {| Registration.options := []; Registration.wrapper := remote_echo |}
  /\ Utils.createPayloadWrapper
       (HName (lit "amqp")) []
       (Registration.as_read
          [(lit "amqp", {| Registration.options := [];
                           Registration.wrapper := remote_echo |})])
     = (inl (NoRequestMethod (lit "amqp")), []).
Proof.
  apply (@registerRemoteTransport_entry_has_no_request
           [] _ (lit "amqp") remote_echo [] []); reflexivity.
Defined.

(** X4. [createPayloadWrapper] writes to no header but [timeout], and not
    to that one either when the caller has set it or when the call fails;
    a function is handed back as it came, with the headers untouched. *)
Theorem createPayloadWrapper_writes_timeout_only
        (payload : handler) (headers : obj) (storage : Utils.storage) :
  let result := Utils.createPayloadWrapper payload headers storage in
  (forall k, k <> lit "timeout" -> get (snd result) k = get headers k)
  /\ (truthy (prop headers (lit "timeout")) = true -> snd result = headers)
  /\ (forall e, fst result = inl e -> snd result = headers)
  /\ (forall f, payload = HFun f -> result = (inr (HFun f, []), headers)).
Proof.
  unfold Utils.createPayloadWrapper.
  destruct payload as [f|name]; cbn zeta.
  - repeat split; try reflexivity. intros f' E. injection E as <-. reflexivity.
  - destruct (truthy (prop headers (lit "local"))).
    + repeat split; try reflexivity. intros f E. discriminate.
    + destruct (Utils.stored_under storage name) as [[[req|] opts]|];
        cbn [fst snd].
      * split; [|split; [|split]].
        -- intros k Hk.
           destruct (truthy (prop opts (lit "timeout"))
                     && negb (truthy (prop headers (lit "timeout"))));
             [|reflexivity].
           rewrite get_put. destruct (str_eq_dec (lit "timeout") k); congruence.
        -- intros ->. rewrite andb_false_r. reflexivity.
        -- intros e E. discriminate.
        -- intros f E. discriminate.
      * repeat split; try reflexivity. intros f E. discriminate.
      * repeat split; try reflexivity. intros f E. discriminate.
Qed.

End TransportStorage.

Section DuplicateProbe.

Variable P : Type.

Lemma lookup_In (o : Index.order) (idx : Index.t P) (q : obj) (f : Index.entry P) :
  Index.lookup o idx q = Some f -> In f idx /\ Index.matches (fst f) q = true.
Proof.
  destruct o; cbn [Index.lookup]; intros H.
  - apply find_some in H. exact H.
  - split.
    + destruct (lookup_depth_In _ _ _ H) as [E|Hin]; [discriminate | exact Hin].
    + pose proof (@lookup_depth_best P q idx None ltac:(discriminate)) as Hb.
      rewrite H in Hb. apply Hb.
Qed.

Lemma lookup_some (o : Index.order) (idx : Index.t P) (q : obj) (e : Index.entry P) :
  In e idx -> Index.matches (fst e) q = true -> Index.lookup o idx q <> None.
Proof.
  intros Hin Hm. destruct o; cbn [Index.lookup]; intros Hnone.
  - apply (find_none _ _ Hnone) in Hin. cbn beta in Hin. congruence.
  - pose proof (@lookup_depth_best P q idx None ltac:(discriminate)) as Hb.
    rewrite Hnone in Hb. destruct Hb as [_ Hb]. rewrite (Hb e Hin) in Hm.
    discriminate.
Qed.

Lemma probe_throws_held (o : Index.order) (matcher : Index.t P) (pattern : obj)
      (err : error) :
  Utils.throwIfPatternExists o matcher pattern = Some err ->
  exists e, In e matcher /\ isEqual (VObj (fst e)) (VObj pattern) = true.
Proof.
  unfold Utils.throwIfPatternExists.
  destruct (Index.lookup o matcher pattern) as [f|] eqn:Hl; [|discriminate].
  destruct (isEqual (VObj (fst f)) (VObj pattern)) eqn:Heq; [|discriminate].
  intros _. exists f. split; [apply (lookup_In _ _ _ Hl) | exact Heq].
Qed.

(** X5. Whatever the match order, [throwIfPatternExists] throws only for a
    pattern the matcher holds an equal of, and the error names the pattern
    probed. *)
Theorem throwIfPatternExists_throws_for_held_patterns_only
        (o : Index.order) (matcher : Index.t P) (pattern : obj) (err : error) :
  Utils.throwIfPatternExists o matcher pattern = Some err ->
  err = DuplicatePattern pattern
  /\ exists e, In e matcher /\ isEqual (VObj (fst e)) (VObj pattern) = true.
Proof.
  intros H. split; [|exact (probe_throws_held _ _ _ H)].
  unfold Utils.throwIfPatternExists in H.
  destruct (Index.lookup o matcher pattern) as [f|]; [|discriminate].
  destruct (isEqual (VObj (fst f)) (VObj pattern)); [|discriminate].
  injection H as <-. reflexivity.
Qed.

(** X6. Under depth order, with plain patterns, [throwIfPatternExists]
    throws exactly when the matcher holds an equal pattern. *)
Theorem throwIfPatternExists_under_depth_order
        (matcher : Index.t P) (pattern : obj) :
  plain pattern = true ->
  forallb (fun x => plain (fst x)) matcher = true ->
  (Utils.throwIfPatternExists Index.Depth matcher pattern
   = Some (DuplicatePattern pattern)
   <-> exists e, In e matcher /\ isEqual (VObj (fst e)) (VObj pattern) = true)
  /\ (Utils.throwIfPatternExists Index.Depth matcher pattern = None
      <-> forall e, In e matcher -> isEqual (VObj (fst e)) (VObj pattern) = false).
Proof.
  intros Hp Hidx.
  assert (Hthrows : (exists e, In e matcher
                               /\ isEqual (VObj (fst e)) (VObj pattern) = true) ->
                    Utils.throwIfPatternExists Index.Depth matcher pattern
                    = Some (DuplicatePattern pattern)).
  { intros (e & Hin & Heq). unfold Utils.throwIfPatternExists.
    destruct (probe_finds_equal matcher pattern e Hp Hidx Hin Heq) as (f & -> & ->).
    reflexivity. }
  split; split.
  - intros H. exact (probe_throws_held _ _ _ H).
  - exact Hthrows.
  - intros Hnone e Hin.
    destruct (isEqual (VObj (fst e)) (VObj pattern)) eqn:Heq; [|reflexivity].
    rewrite Hthrows in Hnone by (exists e; split; assumption). discriminate.
  - intros Hall.
    destruct (Utils.throwIfPatternExists Index.Depth matcher pattern) as [err|] eqn:Ht;
      [|reflexivity].
    destruct (probe_throws_held _ _ _ Ht) as (e & Hin & Heq).
    rewrite (Hall e Hin) in Heq. discriminate.
Qed.

End DuplicateProbe.

Lemma throwIfPatternExists_throws_for_held_patterns_only_witness :
  DuplicatePattern (entries pattern_ab) = DuplicatePattern (entries pattern_ab)
  /\ exists e, In e (Bishop.pm (two_routes Index.Depth))
               /\ isEqual (VObj (fst e)) (VObj (entries pattern_ab)) = true.
Proof.
  apply (@throwIfPatternExists_throws_for_held_patterns_only
           payload Index.Depth (Bishop.pm (two_routes Index.Depth))
           (entries pattern_ab) (DuplicatePattern (entries pattern_ab))).
  reflexivity.
Defined.

Lemma throwIfPatternExists_under_depth_order_witness :
  (Utils.throwIfPatternExists Index.Depth (Bishop.pm (two_routes Index.Depth))
                              (entries pattern_ab)
   = Some (DuplicatePattern (entries pattern_ab))
   <-> exists e, In e (Bishop.pm (two_routes Index.Depth))
                 /\ isEqual (VObj (fst e)) (VObj (entries pattern_ab)) = true)
  /\ (Utils.throwIfPatternExists Index.Depth (Bishop.pm (two_routes Index.Depth))
                                 (entries pattern_ab) = None
      <-> forall e, In e (Bishop.pm (two_routes Index.Depth)) ->
                    isEqual (VObj (fst e)) (VObj (entries pattern_ab)) = false).
Proof.
  apply (@throwIfPatternExists_under_depth_order
           payload (Bishop.pm (two_routes Index.Depth)) (entries pattern_ab));
    reflexivity.
Defined.

(* ================================================================== *)
(** * Shapes of parsed and split patterns *)
(* ================================================================== *)

Section PutFacts.

Variable A : Type.

Local Abbreviation putkv :=
  (fun (o : list (str * A)) (kv : str * A) => put o (fst kv) (snd kv)).

Lemma In_put (o : list (str * A)) (k : str) (v : A) (e : str * A) :
  In e (put o k v) -> e = (k, v) \/ In e o.
Proof.
  induction o as [|[k0 v0] r IH]; cbn [put].
  - intros [<-|[]]. left. reflexivity.
  - destruct (str_eq_dec k0 k) as [->|Hne].
    + intros [<-|Hin]; [left; reflexivity | right; right; exact Hin].
    + intros [<-|Hin]; [right; left; reflexivity|].
      destruct (IH Hin) as [E|Hr]; [left; exact E | right; right; exact Hr].
Qed.

Lemma keys_put_known (o : list (str * A)) (k : str) (v : A) :
  In k (keys o) -> keys (put o k v) = keys o.
Proof.
  induction o as [|[k0 v0] r IH]; cbn [put keys map fst]; [intros []|].
  destruct (str_eq_dec k0 k) as [->|Hne]; [reflexivity|].
  intros [E|Hin]; [congruence|]. cbn [map fst]. f_equal. apply IH, Hin.
Qed.

Lemma NoDup_keys_put (o : list (str * A)) (k : str) (v : A) :
  NoDup (keys o) -> NoDup (keys (put o k v)).
Proof.
  intros Hnd. destruct (in_dec str_eq_dec k (keys o)) as [Hin|Hout].
  - rewrite keys_put_known by exact Hin. exact Hnd.
  - rewrite put_fresh by exact Hout. unfold keys. rewrite map_app.
    cbn [map fst]. apply NoDup_app; [exact Hnd | repeat constructor; intros [] |].
    intros x Hx [<-|[]]. exact (Hout Hx).
Qed.

Lemma NoDup_keys_fold_put (l acc : list (str * A)) :
  NoDup (keys acc) -> NoDup (keys (fold_left putkv l acc)).
Proof.
  revert acc. induction l as [|[k v] r IH]; intros acc H; cbn [fold_left]; [exact H|].
  apply IH, NoDup_keys_put, H.
Qed.

Lemma filter_put (p : str -> bool) (o : list (str * A)) (k : str) (v : A) :
  filter (fun kv => p (fst kv)) (put o k v)
  = if p k then put (filter (fun kv => p (fst kv)) o) k v
    else filter (fun kv => p (fst kv)) o.
Proof.
  induction o as [|[k0 v0] r IH]; cbn [put filter fst].
  - destruct (p k); reflexivity.
  - destruct (str_eq_dec k0 k) as [->|Hne]; cbn [filter fst].
    + destruct (p k); cbn [put]; [|reflexivity].
      destruct (str_eq_dec k k); congruence.
    + rewrite IH. destruct (p k0) eqn:H0; destruct (p k) eqn:Hk; cbn [put];
        try reflexivity.
      destruct (str_eq_dec k0 k); [congruence | reflexivity].
Qed.

Lemma filter_fold_put (p : str -> bool) (l acc : list (str * A)) :
  filter (fun kv => p (fst kv)) (fold_left putkv l acc)
  = fold_left putkv (filter (fun kv => p (fst kv)) l)
              (filter (fun kv => p (fst kv)) acc).
Proof.
  revert acc. induction l as [|[k v] r IH]; intros acc; cbn [fold_left filter fst];
    [reflexivity|].
  rewrite IH, filter_put. destruct (p k); reflexivity.
Qed.

Lemma NoDup_keys_filter (p : str * A -> bool) (o : list (str * A)) :
  NoDup (keys o) -> NoDup (keys (filter p o)).
Proof.
  induction o as [|[k v] r IH]; cbn [filter keys map fst]; intros H; [constructor|].
  inversion H as [|? ? Hk Hr]; subst.
  destruct (p (k, v)); [|apply IH, Hr]. cbn [keys map fst]. constructor; [|apply IH, Hr].
  intros Hin. apply Hk. unfold keys in Hin. apply in_map_iff in Hin.
  destruct Hin as [[k' v'] [E Hin]]. apply filter_In in Hin.
  apply in_map_iff. exists (k', v'). split; [exact E | apply Hin].
Qed.

End PutFacts.

Section SigilFacts.

Local Abbreviation putkv :=
  (fun (o : list (str * value)) (kv : str * value) => put o (fst kv) (snd kv)).

Lemma without_sigil_put (o : obj) (k : str) (v : value) :
  all_meta o = true -> is_meta k = true ->
  without_sigil (put o k v) = put (without_sigil o) (substring_1 k) v.
Proof.
  intros Ho Hk. induction o as [|[k0 v0] r IH]; cbn [put without_sigil map fst snd];
    [reflexivity|].
  cbn [all_meta forallb fst] in Ho. apply andb_true_iff in Ho. destruct Ho as [H0 Hr].
  pose proof (is_meta_shape k0 H0) as S0. pose proof (is_meta_shape k Hk) as Sk.
  destruct (str_eq_dec k0 k) as [E|Hne];
    destruct (str_eq_dec (substring_1 k0) (substring_1 k)) as [E'|Hne'];
    cbn [without_sigil map fst snd].
  - reflexivity.
  - subst k0. congruence.
  - exfalso. apply Hne. rewrite S0, Sk, E'. reflexivity.
  - f_equal. apply IH, Hr.
Qed.

Lemma all_meta_put (o : obj) (k : str) (v : value) :
  all_meta o = true -> is_meta k = true -> all_meta (put o k v) = true.
Proof.
  intros Ho Hk. unfold all_meta in *. rewrite forallb_forall in Ho |- *.
  intros e He. destruct (In_put _ _ _ _ He) as [->|Hin]; [exact Hk | apply Ho, Hin].
Qed.

Lemma none_meta_put (o : obj) (k : str) (v : value) :
  none_meta o = true -> is_meta k = false -> none_meta (put o k v) = true.
Proof.
  intros Ho Hk. unfold none_meta in *. rewrite forallb_forall in Ho |- *.
  intros e He. destruct (In_put _ _ _ _ He) as [->|Hin]; [|apply Ho, Hin].
  cbn [fst]. rewrite Hk. reflexivity.
Qed.



(** What the loop of [split] leaves in each of the three objects. *)
Lemma split_fields_parts (l : obj) (message meta raw : obj) :
  fold_left Utils.split_field l (message, meta, raw)
  = (fold_left putkv (filter (fun kv => negb (is_meta (fst kv))) l) message,
     fold_left (fun o kv => put o (substring_1 (fst kv)) (snd kv))
               (filter (fun kv => is_meta (fst kv)) l) meta,
     fold_left putkv l raw).
Proof.
  revert message meta raw. induction l as [|[k v] r IH]; intros message meta raw;
    cbn [fold_left filter fst snd Utils.split_field]; [reflexivity|].
  destruct (is_meta k); cbn [negb fold_left fst snd]; apply IH.
Qed.

Lemma fold_put_without_sigil (l acc : obj) :
  all_meta l = true -> all_meta acc = true ->
  fold_left (fun o kv => put o (substring_1 (fst kv)) (snd kv)) l (without_sigil acc)
  = without_sigil (fold_left putkv l acc).
Proof.
  revert acc. induction l as [|[k v] r IH]; intros acc Hl Hacc; cbn [fold_left fst snd];
    [reflexivity|].
  cbn [all_meta forallb fst] in Hl. apply andb_true_iff in Hl. destruct Hl as [Hk Hr].
  rewrite <- without_sigil_put by assumption.
  apply IH; [exact Hr | apply all_meta_put; assumption].
Qed.

Lemma all_meta_filter (l : obj) :
  all_meta (filter (fun kv => is_meta (fst kv)) l) = true.
Proof.
  unfold all_meta. apply forallb_forall. intros e He. apply filter_In in He. apply He.
Qed.

End SigilFacts.

Section SplitShape.

Local Abbreviation putkv :=
  (fun (o : list (str * value)) (kv : str * value) => put o (fst kv) (snd kv)).


(** X10. The [raw] object [split] returns stands for the whole result:
    splitting it again gives the same [message], [meta] and [raw]. *)
Theorem split_of_raw (args : list value) :
  let '(message, meta, raw) := Utils.split args in
  Utils.split [VObj raw] = (message, meta, raw).
Proof.
  rewrite (split_as_fold args), split_fields_parts.
  set (l := merged args).
  set (raw := fold_left putkv l []).
  assert (Hraw : NoDup (keys raw)) by (apply NoDup_keys_fold_put; constructor).
  rewrite split_as_fold. unfold merged. cbn [flat_map part_entries entries].
  rewrite app_nil_r, split_fields_parts.
  f_equal; [f_equal|].
  - rewrite fold_put_fresh by (apply NoDup_keys_filter; exact Hraw).
    unfold raw. rewrite (filter_fold_put (fun k => negb (is_meta k))). reflexivity.
  - assert (E : filter (fun kv => is_meta (fst kv)) raw
                = fold_left putkv (filter (fun kv => is_meta (fst kv)) l) []).
    { unfold raw. rewrite (filter_fold_put is_meta). reflexivity. }
    pose proof (@fold_put_without_sigil (filter (fun kv => is_meta (fst kv)) raw) []
                  (all_meta_filter raw) eq_refl) as Hl.
    pose proof (@fold_put_without_sigil (filter (fun kv => is_meta (fst kv)) l) []
                  (all_meta_filter l) eq_refl) as Hr.
    cbn [without_sigil map] in Hl, Hr. rewrite Hl, Hr.
    f_equal. rewrite fold_put_fresh by (apply NoDup_keys_filter; exact Hraw).
    exact E.
  - apply fold_put_fresh. exact Hraw.
Qed.

End SplitShape.

Section ParsedShape.

Variable newRegExp : str -> option str.

Local Abbreviation proto := (lit "__proto__").
Local Abbreviation segment := (Engine.segment newRegExp).
Local Abbreviation step := (Engine.step newRegExp).
Local Abbreviation written := (Engine.written newRegExp).

Lemma segment_written (cur k : str) (v : value) :
  segment cur = Some (k, v) -> trim k = k /\ written v.
Proof.
  unfold Engine.segment.
  set (value := match tl (split_on ":" (trim cur)) with
                | [] => toString Utils.regExpAll
                | v :: _ => v
                end).
  destruct (trim value) as [|c r] eqn:Ht.
  - intros [= <- <-]. split; [apply trim_idem|]. left. exists [].
    repeat split. discriminate.
  - destruct (ascii_dec c "/") as [->|Hne].
    + destruct (newRegExp (slice_1_m1 ("/"%char :: r))) as [source|] eqn:Hre;
        [|discriminate].
      intros [= <- <-]. split; [apply trim_idem|]. right.
      exists (slice_1_m1 ("/"%char :: r)), source. split; [exact Hre | reflexivity].
    + intros H.
      assert (Hs : Some (trim (hd [] (split_on ":" (trim cur))), VStr (c :: r))
                   = Some (k, v)).
      { rewrite <- H. destruct c as [[] [] [] [] [] [] [] []]; try reflexivity.
        congruence. }
      injection Hs as <- <-. split; [apply trim_idem|]. left. exists (c :: r).
      split; [reflexivity|]. split; [rewrite <- Ht; apply trim_idem|].
      cbn. congruence.
Qed.

Lemma segment_of_utils (cur : str) :
  segment cur
  = match Utils.segment cur with
    | (k, VRegExp text) =>
        match newRegExp text with
        | Some source => Some (k, VRegExp source)
        | None => None
        end
    | field => Some field
    end.
Proof.
  unfold Engine.segment, Utils.segment.
  set (value := match tl (split_on ":" (trim cur)) with
                | [] => toString Utils.regExpAll
                | v :: _ => v
                end).
  destruct (trim value) as [|c r]; [reflexivity|].
  destruct c as [[] [] [] [] [] [] [] []]; reflexivity.
Qed.

Lemma fold_thrown (l : list str) : fold_left step l None = None.
Proof. induction l as [|cur r IH]; [reflexivity | exact IH]. Qed.

Lemma fold_throws (l : list str) (b : Engine.built) :
  fold_left step l (Some b) = None
  <-> exists cur, In cur l /\ segment cur = None.
Proof.
  revert b. induction l as [|cur r IH]; intros b; cbn [fold_left].
  - split; [discriminate | intros (cur & [] & _)].
  - unfold Engine.step at 2. destruct (segment cur) as [[k v]|] eqn:Hs.
    + rewrite IH. split.
      * intros (c & Hin & Hc). exists c. split; [right; exact Hin | exact Hc].
      * intros (c & [<-|Hin] & Hc); [congruence|]. exists c. split; assumption.
    + rewrite fold_thrown. split; [|reflexivity].
      intros _. exists cur. split; [left; reflexivity | exact Hs].
Qed.

Lemma fold_reprototyped (l : list str) :
  (forall cur, In cur l -> segment cur <> None) ->
  fold_left step l (Some Engine.Reprototyped) = Some Engine.Reprototyped.
Proof.
  induction l as [|cur r IH]; intros Hok; cbn [fold_left]; [reflexivity|].
  unfold Engine.step at 2. destruct (segment cur) as [[k v]|] eqn:Hs.
  - apply IH. intros c Hc. apply Hok. right. exact Hc.
  - exfalso. apply (Hok cur); [left; reflexivity | exact Hs].
Qed.

Lemma fold_plain_reprototyped (l : list str) (acc : obj) :
  fold_left step l (Some (Engine.Plain acc)) = Some Engine.Reprototyped
  <-> (forall cur, In cur l -> segment cur <> None)
      /\ exists cur source,
           In cur l /\ segment cur = Some (proto, VRegExp source).
Proof.
  revert acc. induction l as [|cur r IH]; intros acc; cbn [fold_left].
  - split; [discriminate | intros (_ & c & source & [] & _)].
  - unfold Engine.step at 2. destruct (segment cur) as [[k v]|] eqn:Hs.
    + assert (Hrest : (forall c, In c (cur :: r) -> segment c <> None)
                      <-> (forall c, In c r -> segment c <> None)).
      { split; intros H c Hc.
        - apply H. right. exact Hc.
        - destruct Hc as [<-|Hc]; [congruence | apply H, Hc]. }
      destruct (segment_written _ Hs) as [_ Hv].
      unfold Engine.assign_field, str_eqb.
      destruct (str_eq_dec k proto) as [->|Hk].
      * destruct Hv as [(s & -> & _)|(text & source & _ & ->)].
        -- rewrite IH, Hrest. split.
           ++ intros (Hok & c & source & Hin & Hc). split; [exact Hok|].
              exists c, source. split; [right; exact Hin | exact Hc].
           ++ intros (Hok & c & source & [<-|Hin] & Hc); [congruence|].
              split; [exact Hok|]. exists c, source. split; assumption.
        -- rewrite Hrest. split.
           ++ intros H. split.
              ** intros c Hc Hnone.
                 assert (Hthrown : fold_left step r (Some Engine.Reprototyped) = None)
                   by (apply fold_throws; exists c; split; assumption).
                 congruence.
              ** exists cur, source. split; [left; reflexivity | exact Hs].
           ++ intros (Hok & _). apply fold_reprototyped, Hok.
      * rewrite IH, Hrest. split.
        -- intros (Hok & c & source & Hin & Hc). split; [exact Hok|].
           exists c, source. split; [right; exact Hin | exact Hc].
        -- intros (Hok & c & source & [<-|Hin] & Hc); [congruence|].
           split; [exact Hok|]. exists c, source. split; assumption.
    + rewrite fold_thrown. split; [discriminate|].
      intros (Hok & _). exfalso. apply (Hok cur); [left; reflexivity | exact Hs].
Qed.

Lemma In_keys_put (o : obj) (k k' : str) (v : value) :
  In k' (keys (put o k v)) <-> k' = k \/ In k' (keys o).
Proof.
  induction o as [|[k0 v0] r IH]; cbn [put keys map fst In].
  - split; intros [H|H]; auto.
  - destruct (str_eq_dec k0 k) as [->|Hne]; cbn [keys map fst In].
    + split; [intros [H|H]; auto | intros [H|[H|H]]; auto].
    + fold (keys (put r k v)). fold (keys r). rewrite IH. tauto.
Qed.

Lemma fold_plain (l : list str) (acc o : obj) :
  fold_left step l (Some (Engine.Plain acc)) = Some (Engine.Plain o) ->
  NoDup (keys acc) ->
  NoDup (keys o)
  /\ (forall k, In k (keys o)
                <-> In k (keys acc)
                    \/ (k <> proto
                        /\ exists cur v, In cur l /\ segment cur = Some (k, v)))
  /\ (forall k v, In (k, v) o ->
                  In (k, v) acc
                  \/ exists cur, In cur l /\ segment cur = Some (k, v)).
Proof.
  revert acc. induction l as [|cur r IH]; intros acc; cbn [fold_left].
  - intros [= <-] Hnd. split; [exact Hnd|]. split.
    + intros k. split; [auto | intros [H|(_ & c & v & [] & _)]; exact H].
    + intros k v H. left. exact H.
  - unfold Engine.step at 2. destruct (segment cur) as [[k v]|] eqn:Hs;
      [|rewrite fold_thrown; discriminate].
    destruct (segment_written _ Hs) as [_ Hv].
    unfold Engine.assign_field, str_eqb.
    destruct (str_eq_dec k proto) as [->|Hk].
    + destruct Hv as [(s & -> & _)|(text & source & _ & ->)].
      * intros Hfold Hnd. destruct (IH _ Hfold Hnd) as (Hnd' & Hkeys & Hin).
        split; [exact Hnd'|]. split.
        -- intros k'. rewrite Hkeys. split.
           ++ intros [H|(Hk' & c & w & Hc & Hcw)]; [left; exact H|].
              right. split; [exact Hk'|]. exists c, w. split; [right|]; assumption.
           ++ intros [H|(Hk' & c & w & [<-|Hc] & Hcw)]; [left; exact H | congruence|].
              right. split; [exact Hk'|]. exists c, w. split; assumption.
        -- intros k' w H. destruct (Hin _ _ H) as [Ha|(c & Hc & Hcw)]; [left; exact Ha|].
           right. exists c. split; [right|]; assumption.
      * intros Hfold. exfalso.
        destruct (fold_left step r (Some Engine.Reprototyped)) as [[|]|] eqn:Hr;
          try discriminate.
        assert (Hnone : fold_left step r (Some Engine.Reprototyped) <> None)
          by congruence.
        rewrite fold_reprototyped in Hr; [discriminate|].
        intros c Hc Hcn. apply Hnone, fold_throws. exists c. split; assumption.
    + intros Hfold Hnd.
      destruct (IH _ Hfold (NoDup_keys_put _ _ _ Hnd)) as (Hnd' & Hkeys & Hin).
      split; [exact Hnd'|]. split.
      * intros k'. rewrite Hkeys, In_keys_put. split.
        -- intros [[->|H]|(Hk' & c & w & Hc & Hcw)].
           ++ right. split; [exact Hk|]. exists cur, v. split; [left; reflexivity | exact Hs].
           ++ left. exact H.
           ++ right. split; [exact Hk'|]. exists c, w. split; [right|]; assumption.
        -- intros [H|(Hk' & c & w & [<-|Hc] & Hcw)].
           ++ left. right. exact H.
           ++ left. left. congruence.
           ++ right. split; [exact Hk'|]. exists c, w. split; assumption.
      * intros k' w H. destruct (Hin _ _ H) as [Ha|(c & Hc & Hcw)].
        -- destruct (In_put _ _ _ _ Ha) as [He|Ha'].
           ++ right. exists cur. split; [left; reflexivity|]. rewrite He. exact Hs.
           ++ left. exact Ha'.
        -- right. exists c. split; [right|]; assumption.
Qed.

(** Where the engine takes every text handed to it, as its own source,
    and no piece is keyed [__proto__], the parse is that of
    [Utils.text2obj]. *)
Lemma text2obj_of_accepted (input : str) :
  (forall cur text, In cur (split_on "," input) ->
                    snd (Utils.segment cur) = VRegExp text ->
                    newRegExp text = Some text) ->
  (forall cur, In cur (split_on "," input) -> fst (Utils.segment cur) <> proto) ->
  Engine.text2obj newRegExp input = Some (Engine.Plain (Utils.text2obj input)).
Proof.
  unfold Engine.text2obj, Utils.text2obj.
  generalize (@nil (str * value)). induction (split_on "," input) as [|cur r IH];
    intros acc Hre Hkey; cbn [fold_left]; [reflexivity|].
  unfold Engine.step at 2. rewrite segment_of_utils.
  pose proof (Hre cur) as Hc. pose proof (Hkey cur (or_introl eq_refl)) as Hk.
  destruct (Utils.segment cur) as [k v]. cbn [fst snd] in Hc, Hk.
  assert (Hstep : match v with
                  | VRegExp text =>
                      match newRegExp text with
                      | Some source => Some (k, VRegExp source)
                      | None => None
                      end
                  | _ => Some (k, v)
                  end = Some (k, v)).
  { destruct v; try reflexivity. rewrite (Hc _ (or_introl eq_refl) eq_refl).
    reflexivity. }
  destruct v; rewrite ?Hstep; cbn [Engine.assign_field];
    unfold str_eqb; (destruct (str_eq_dec k proto); [congruence|]);
    (apply IH; [intros c t Hin; apply Hre; right; exact Hin
               |intros c Hin; apply Hkey; right; exact Hin]).
Qed.

(** X8. For every engine and every text: [text2obj] throws exactly when
    [new RegExp] rejects the text of some piece; it otherwise returns an
    object with its prototype replaced exactly when some piece is keyed
    [__proto__] and holds a regular expression; and any other object it
    returns has each key once, its keys are the keys of the pieces other
    than [__proto__], every field is one some piece gives, keys are
    trimmed, and a value is a trimmed string that does not start with a
    slash or an expression the engine built. *)
Theorem text2obj_outcomes (input : str) :
  let pieces := split_on "," input in
  let parsed := Engine.text2obj newRegExp input in
  (parsed = None
   <-> exists cur, In cur pieces /\ Engine.segment newRegExp cur = None)
  /\ (parsed = Some Engine.Reprototyped
      <-> (forall cur, In cur pieces -> Engine.segment newRegExp cur <> None)
          /\ exists cur source,
               In cur pieces
               /\ Engine.segment newRegExp cur
                  = Some (lit "__proto__", VRegExp source))
  /\ (forall o, parsed = Some (Engine.Plain o) ->
        NoDup (keys o)
        /\ (forall k, In k (keys o)
                      <-> k <> lit "__proto__"
                          /\ exists cur v,
                               In cur pieces
                               /\ Engine.segment newRegExp cur = Some (k, v))
        /\ (forall k v, In (k, v) o ->
              trim k = k
              /\ (exists cur, In cur pieces
                              /\ Engine.segment newRegExp cur = Some (k, v))
              /\ ((exists s, v = VStr s /\ trim s = s
                             /\ hd_error s <> Some "/"%char)
                  \/ (exists text source,
                        newRegExp text = Some source /\ v = VRegExp source)))).
Proof.
  intros pieces parsed. unfold parsed, Engine.text2obj. fold pieces.
  split; [apply fold_throws|]. split; [apply fold_plain_reprototyped|].
  intros o Ho. destruct (fold_plain _ _ Ho (NoDup_nil _)) as (Hnd & Hkeys & Hin).
  split; [exact Hnd|]. split.
  - intros k. rewrite Hkeys. cbn [keys map In]. tauto.
  - intros k v H. destruct (Hin _ _ H) as [[]|(cur & Hc & Hs)].
    destruct (segment_written _ Hs) as [Hk Hv].
    split; [exact Hk|]. split; [exists cur; split; assumption | exact Hv].
Qed.

End ParsedShape.

Section MatcherRegistration.

Variable P : Type.

Lemma matches_self (e : obj) : NoDup (keys e) -> Index.matches e e = true.
Proof.
  intros Hnd. unfold Index.matches. apply forallb_forall. intros [k v] Hin.
  cbn [fst snd]. rewrite (@In_get _ _ _ _ Hnd Hin). unfold str_eqb.
  destruct (str_eq_dec (toString v) (toString v)); [|congruence].
  apply orb_true_r.
Qed.

Lemma none_meta_fold_put (l acc : obj) :
  none_meta l = true -> none_meta acc = true ->
  none_meta (fold_left (fun o kv => put o (fst kv) (snd kv)) l acc) = true.
Proof.
  revert acc. induction l as [|[k v] r IH]; intros acc Hl Hacc; cbn [fold_left fst snd];
    [exact Hacc|].
  cbn [none_meta forallb fst] in Hl. apply andb_true_iff in Hl. destruct Hl as [Hk Hr].
  apply IH; [exact Hr|]. apply none_meta_put; [exact Hacc|].
  apply negb_true_iff, Hk.
Qed.

(** X7. [registerInMatcher] indexes the message part of what it is given:
    the pattern it stores has no meta key, the payload is kept with the
    meta fields as its options, and a lookup of that pattern finds an
    entry afterwards - in a matcher that was empty, this one. *)
Theorem registerInMatcher_indexes_the_message
        (o : Index.order) (matcher : Index.t (P * obj)) (v : value) (p : P) :
  let '(message, meta, _) := Utils.split [v] in
  none_meta message = true
  /\ In (message, (p, meta)) (Registration.registerInMatcher matcher (Registration.Whole v) p)
  /\ Index.lookup o (Registration.registerInMatcher matcher (Registration.Whole v) p)
                  message <> None
  /\ Index.lookup o (Registration.registerInMatcher [] (Registration.Whole v) p) message
     = Some (message, (p, meta)).
Proof.
  unfold Registration.registerInMatcher, Registration.pattern_and_options.
  pose proof (split_as_fold [v]) as Hs. rewrite split_fields_parts in Hs.
  destruct (Utils.split [v]) as [[message meta] raw].
  injection Hs as Hmessage _ _.
  assert (Hnd : NoDup (keys message)).
  { rewrite Hmessage. apply NoDup_keys_fold_put. constructor. }
  assert (Hself : Index.matches message message = true) by (apply matches_self, Hnd).
  assert (Hin : forall m : Index.t (P * obj),
             In (message, (p, meta)) (Index.add m message (p, meta))).
  { intros m. unfold Index.add. apply in_or_app. right. left. reflexivity. }
  split; [|split; [|split]].
  - rewrite Hmessage. apply none_meta_fold_put; [|reflexivity].
    unfold none_meta. apply forallb_forall. intros e He.
    apply filter_In in He. apply He.
  - apply Hin.
  - apply lookup_some with (e := (message, (p, meta))); [apply Hin | exact Hself].
  - destruct o; cbn [Index.lookup Index.add app find fold_left fst];
      unfold Index.deeper; cbn [fst]; rewrite Hself; reflexivity.
Qed.

End MatcherRegistration.

Section BeautifyAlt.

(** X11. In the revision that prints every value with [toString],
    [beautify] fails exactly on an object with a field that holds
    [undefined] or [null]. *)
Theorem beautify_alt_fails_on_missing_values (o : obj) :
  UtilsAlt.beautify o = None
  <-> exists k v, In (k, v) o /\ (v = VUndefined \/ v = VNull).
Proof.
  unfold UtilsAlt.beautify.
  assert (H : UtilsAlt.beautify_fields o = None
              <-> exists k v, In (k, v) o /\ (v = VUndefined \/ v = VNull)).
  { induction o as [|[k v] r IH]; cbn [UtilsAlt.beautify_fields].
    - split; [discriminate | intros (k & v & [] & _)].
    - destruct (UtilsAlt.beautify_field (k, v)) as [piece|] eqn:Hp.
      + destruct (UtilsAlt.beautify_fields r) as [pieces|].
        * split; [discriminate|]. intros (k' & v' & [E|Hin] & Hv).
          -- injection E as -> ->. cbn [UtilsAlt.beautify_field] in Hp.
             destruct Hv as [->| ->]; discriminate.
          -- assert (E : Some pieces = None)
               by (apply (proj2 IH); exists k', v'; split; assumption).
             discriminate.
        * split; [|reflexivity]. intros _.
          destruct (proj1 IH eq_refl) as (k' & v' & Hin & Hv).
          exists k', v'. split; [right; exact Hin | exact Hv].
      + split; [|reflexivity]. intros _. exists k, v. split; [left; reflexivity|].
        cbn [UtilsAlt.beautify_field] in Hp.
        destruct v; try discriminate; [left | right]; reflexivity. }
  destruct (UtilsAlt.beautify_fields o); cbn [option_map].
  - split; [discriminate|]. intros E. apply H in E. discriminate.
  - split; [intros _; apply H; reflexivity | reflexivity].
Qed.

End BeautifyAlt.

(* ================================================================== *)
(** * The execution chain *)
(* ================================================================== *)

Section ChainRunner.

Import Chain.

Lemma reduce_app (pre post : list chainItem) (input : value) (h : headers) (n : nat) :
  reduce (pre ++ post) input h n
  = match reduce pre input h n with
    | (Completed v h', calls) =>
        let (s, later) := reduce post v h' (n + List.length pre) in
        (s, calls ++ later)
    | other => other
    end.
Proof.
  revert input h n. induction pre as [|[handler opts] rest IH]; intros input h n.
  - cbn [app reduce List.length]. rewrite Nat.add_0_r.
    destruct (reduce post input h n). reflexivity.
  - cbn [app reduce List.length]. destruct (truthy (break_ h)); [reflexivity|].
    destruct (handler input h) as [[output|e|] h']; try reflexivity.
    rewrite IH. replace (S n + List.length rest) with (n + S (List.length rest)) by lia.
    destruct (reduce rest output h' (S n)) as [[v h''|v h''|e h''|] calls];
      try reflexivity.
    destruct (reduce post v h'' (n + S (List.length rest))). reflexivity.
Qed.

Lemma reduce_calls (chain : list chainItem) (input : value) (h : headers) (n : nat) :
  let (s, calls) := reduce chain input h n in
  map fst calls = seq n (List.length calls)
  /\ List.length calls <= List.length chain
  /\ (forall v h', s = Completed v h' -> List.length calls = List.length chain).
Proof.
  revert input h n. induction chain as [|[handler opts] rest IH]; intros input h n.
  - cbn [reduce map List.length seq]. repeat split; reflexivity || lia.
  - cbn [reduce]. destruct (truthy (break_ h)).
    + cbn [map List.length seq]. split; [reflexivity|]. split; [lia | discriminate].
    + destruct (handler input h) as [[output|e|] h'].
      * specialize (IH output h' (S n)).
        destruct (reduce rest output h' (S n)) as [s calls].
        destruct IH as (Hpos & Hlen & Hall). cbn [map fst List.length seq].
        split; [f_equal; exact Hpos|]. split; [lia|].
        intros v h'' E. f_equal. exact (Hall v h'' E).
      * cbn [map List.length seq fst]. split; [reflexivity|].
        split; [lia | discriminate].
      * cbn [map List.length seq fst]. split; [reflexivity|].
        split; [lia | discriminate].
Qed.

(** X12. Once [headers.break] is set when a handler is due, neither that
    handler nor a later one is called: the chain replies with the input
    that handler would have had, and no listener is notified. *)
Theorem chain_stops_on_break
        (pre : list chainItem) (item : chainItem) (post : list chainItem)
        (pattern : value) (h : headers) (errorHandler : error -> value)
        (v : value) (h' : headers) (calls : list (nat * value)) :
  reduce pre pattern h 0 = (Completed v h', calls) ->
  truthy (break_ h') = true ->
  createChainRunnerPromise (pre ++ item :: post) pattern h errorHandler
  = {| replied := Some {| message := v; headers_of := h' |};
       called := calls;
       notices := [] |}
  /\ List.length calls = List.length pre.
Proof.
  intros Hpre Hbreak. unfold createChainRunnerPromise.
  rewrite reduce_app, Hpre. destruct item as [handler opts].
  cbn [reduce]. rewrite Hbreak, app_nil_r. split; [reflexivity|].
  pose proof (reduce_calls pre pattern h 0) as Hc. rewrite Hpre in Hc.
  destruct Hc as (_ & _ & Hall). exact (Hall v h' eq_refl).
Qed.

(** X13. When a handler fails, the chain replies with what the classifier
    returns for the error in place of a message, later handlers are not
    called, and no listener is notified. *)
Theorem chain_failure_is_classified
        (pre : list chainItem) (item : chainItem) (post : list chainItem)
        (pattern : value) (h : headers) (errorHandler : error -> value)
        (v : value) (h' h'' : headers) (calls : list (nat * value)) (e : error) :
  reduce pre pattern h 0 = (Completed v h', calls) ->
  truthy (break_ h') = false ->
  fst item v h' = (Fails e, h'') ->
  createChainRunnerPromise (pre ++ item :: post) pattern h errorHandler
  = {| replied := Some {| message := errorHandler e; headers_of := h'' |};
       called := calls ++ [(List.length pre, v)];
       notices := [] |}.
Proof.
  intros Hpre Hbreak Hfail. unfold createChainRunnerPromise.
  rewrite reduce_app, Hpre. destruct item as [handler opts]. cbn [fst] in Hfail.
  cbn [reduce]. rewrite Hbreak, Hfail. reflexivity.
Qed.

(** X14. The handlers of a chain are called in order from the first, each
    at most once; listeners are notified only after all of them have been
    called and the reply carries a [notify] header. *)
Theorem chain_calls_in_order
        (chain : list chainItem) (pattern : value) (h : headers)
        (errorHandler : error -> value) :
  let r := createChainRunnerPromise chain pattern h errorHandler in
  map fst (called r) = seq 0 (List.length (called r))
  /\ List.length (called r) <= List.length chain
  /\ (notices r <> [] ->
      List.length (called r) = List.length chain
      /\ exists rep, replied r = Some rep /\ notify (headers_of rep) <> None).
Proof.
  unfold createChainRunnerPromise.
  pose proof (reduce_calls chain pattern h 0) as Hc.
  destruct (reduce chain pattern h 0) as [s calls].
  destruct Hc as (Hpos & Hlen & Hall).
  destruct s as [v h'|v h'|e h'|]; cbn [called notices replied];
    (split; [exact Hpos|]); (split; [exact Hlen|]); try congruence.
  intros Hn. split; [exact (Hall v h' eq_refl)|].
  eexists. split; [reflexivity|]. cbn [headers_of].
  unfold notifyListenersAboutEvent in Hn. destruct (notify h'); congruence.
Qed.

(** X15. Of the names in [headers.notify], ['local'] stands for the
    emitter, which gets one event under the routing key of the matched
    pattern, and is never taken for a transport; every other name has the
    message forwarded to the transport of that name. *)
Theorem notify_keeps_local_for_the_emitter
        (message : value) (h : headers) (names : list str) :
  notify h = Some names ->
  (forall n m, In (Forward n m) (notifyListenersAboutEvent message h)
               <-> m = message /\ In n names /\ n <> lit "local")
  /\ (forall ev m, In (Emit ev m) (notifyListenersAboutEvent message h)
                   <-> In (lit "local") names /\ ev = uniqueEvent h /\ m = message)
  /\ List.length (filter (fun c => match c with Emit _ _ => true | _ => false end)
                         (notifyListenersAboutEvent message h)) <= 1.
Proof.
  intros Hn. unfold notifyListenersAboutEvent. rewrite Hn.
  set (forwards := map (fun transportName => Forward transportName message)
                       (filter (fun transportName =>
                                  negb (str_eqb transportName (lit "local"))) names)).
  assert (Hf : forall n m, In (Forward n m) forwards
                           <-> m = message /\ In n names /\ n <> lit "local").
  { intros n m. unfold forwards. rewrite in_map_iff. split.
    - intros (x & E & Hx). injection E as -> ->. apply filter_In in Hx.
      destruct Hx as [Hin Hx]. split; [reflexivity|]. split; [exact Hin|].
      apply negb_true_iff in Hx. intros ->. unfold str_eqb in Hx.
      destruct (str_eq_dec (lit "local") (lit "local")); congruence.
    - intros (-> & Hin & Hne). exists n. split; [reflexivity|].
      apply filter_In. split; [exact Hin|]. apply negb_true_iff.
      unfold str_eqb. destruct (str_eq_dec n (lit "local")); congruence. }
  assert (Hnone : forall ev m, ~ In (Emit ev m) forwards).
  { intros ev m Hin. unfold forwards in Hin. apply in_map_iff in Hin.
    destruct Hin as (x & E & _). discriminate. }
  assert (Hfilter : filter (fun c => match c with Emit _ _ => true | _ => false end)
                           forwards = []).
  { unfold forwards. clear Hf Hnone forwards.
    induction (filter _ names) as [|x r IH]; [reflexivity|].
    cbn [map filter]. exact IH. }
  destruct (existsb (str_eqb (lit "local")) names) eqn:Hl.
  - assert (Hin : In (lit "local") names).
    { apply existsb_exists in Hl. destruct Hl as (x & Hx & E).
      apply str_eqb_eq in E. subst x. exact Hx. }
    split; [|split].
    + intros n m. rewrite <- Hf. cbn [app In]. split; [intros [E|H]|intros H].
      * discriminate.
      * exact H.
      * right. exact H.
    + intros ev m. cbn [app In]. split.
      * intros [E|H]; [|destruct (Hnone _ _ H)]. injection E as <- <-. auto.
      * intros (_ & -> & ->). left. reflexivity.
    + cbn [app filter]. rewrite Hfilter. cbn [List.length]. lia.
  - assert (Hout : ~ In (lit "local") names).
    { intros Hin. assert (E : existsb (str_eqb (lit "local")) names = true).
      { apply existsb_exists. exists (lit "local"). split; [exact Hin|].
        apply str_eqb_eq. reflexivity. }
      congruence. }
    split; [|split].
    + intros n m. rewrite <- Hf. reflexivity.
    + intros ev m. cbn [app]. split.
      * intros H. destruct (Hnone _ _ H).
      * intros (Hin & _). destruct (Hout Hin).
    + cbn [app]. rewrite Hfilter. cbn [List.length]. lia.
Qed.

End ChainRunner.

Section NotifyHeader.

Import Chain.

(** X28. What [normalizeHeaders] reads out of a [notify] header that is
    not an array. For [true], ['true'] and a regular expression the names
    are ['local'] alone, and the notifier then makes one call, to the
    emitter under the event of the pattern. Any other non-empty text is
    cut at its commas, the pieces are trimmed and the empty ones dropped,
    in the order of the text: a name is listed exactly when it is not
    empty and is some piece trimmed. A falsy header is left as it is.
    Whatever the header, the names read are trimmed and not empty. *)
Theorem normalizeNotify_names (v : value) :
  ((v = VBool true \/ v = VStr (lit "true") \/ exists src, v = VRegExp src) ->
     normalizeNotify (Other v) = inr (Some [lit "local"])
     /\ forall message h,
          notify h = Some [lit "local"] ->
          notifyListenersAboutEvent message h = [Emit (uniqueEvent h) message])
  /\ (forall s, v = VStr s -> s <> [] -> s <> lit "true" ->
        exists names,
          normalizeNotify (Other v) = inr (Some names)
          /\ names = filter (fun item => match item with [] => false | _ => true end)
                            (map trim (split_on "," s))
          /\ forall name,
               In name names
               <-> name <> [] /\ exists piece, In piece (split_on "," s) /\ trim piece = name)
  /\ (truthy v = false -> normalizeNotify (Other v) = inr None)
  /\ (forall names,
        normalizeNotify (Other v) = inr (Some names) ->
        Forall (fun name => trim name = name /\ name <> []) names).
Proof.
  assert (Hfilter : forall l : list str,
             filter (fun item => truthy (VStr item)) l
             = filter (fun item => match item with [] => false | _ => true end) l).
  { intros l. apply filter_ext. intros [|c r]; reflexivity. }
  split; [|split; [|split]].
  - intros Hv. split.
    + destruct Hv as [->|[->|(src & ->)]]; reflexivity.
    + intros message h Hn. unfold notifyListenersAboutEvent. rewrite Hn. reflexivity.
  - intros s -> Hne Htrue. eexists. split; [|split; [reflexivity|]].
    + unfold normalizeNotify. destruct s as [|c r]; [congruence|].
      cbn [truthy negb]. unfold str_eqb.
      destruct (str_eq_dec (c :: r) (lit "true")) as [E|_]; [congruence|].
      rewrite Hfilter. reflexivity.
    + intros name. rewrite filter_In, in_map_iff. split.
      * intros ((piece & <- & Hin) & Hname). split.
        -- intros E. rewrite E in Hname. discriminate.
        -- exists piece. split; [exact Hin | reflexivity].
      * intros (Hname & piece & Hin & <-). split.
        -- exists piece. split; [reflexivity | exact Hin].
        -- destruct (trim piece); [congruence | reflexivity].
  - intros Hv. unfold normalizeNotify. rewrite Hv. reflexivity.
  - intros names. unfold normalizeNotify. destruct (negb (truthy v)); [discriminate|].
    assert (Hlocal : Forall (fun name => trim name = name /\ name <> []) [lit "local"]).
    { constructor; [|constructor]. split; [reflexivity | discriminate]. }
    destruct v as [| |b|n|s|src|fields]; try discriminate;
      try (intros E; injection E as <-; exact Hlocal).
    destruct (str_eqb s (lit "true")); intros E; injection E as <-; [exact Hlocal|].
    apply Forall_forall. intros name Hin. apply filter_In in Hin.
    destruct Hin as [Hin Hne]. apply in_map_iff in Hin. destruct Hin as (piece & <- & _).
    split; [apply trim_idem|]. intros E. rewrite E in Hne. discriminate.
Qed.

End NotifyHeader.

(* ================================================================== *)
(** * Registration followed by dispatch *)
(* ================================================================== *)

Section FreshRoute.

Lemma compose_self (p : obj) :
  distinct (keys p) = true -> Bishop.compose (VObj p) [] = p.
Proof.
  intros Hd. unfold Bishop.compose, assign. rewrite entries_objectify.
  cbn [part_entries entries fold_left].
  apply (fold_put_fresh p []). cbn [app]. apply distinct_NoDup, Hd.
Qed.

Lemma fresh_add (c : Bishop.config) (p : obj) (h : handler) :
  Bishop.add (Bishop.create c) (VObj p) h
  = (None,
     let type := match h with HFun _ => lit "local" | HName name => name end in
     let route := {| type := type; handler_of := h |} in
     {| Bishop.conf := c;
        Bishop.pm := [(p, route)];
        Bishop.pmLocal := if str_eqb type (lit "local") then [(p, route)] else [];
        Bishop.this_timeout := Bishop.timeout c;
        Bishop.this_transport := [] |}).
Proof.
  unfold Bishop.add. rewrite entries_objectify.
  cbn [part_entries entries Bishop.create Bishop.conf Bishop.pm Bishop.pmLocal
       Bishop.this_timeout Bishop.this_transport].
  replace (Index.lookup (Bishop.matchOrder c) [] p) with (@None (Index.entry payload))
    by (destruct (Bishop.matchOrder c); reflexivity).
  rewrite andb_false_r. reflexivity.
Qed.

Lemma lookup_single (P : Type) (o : Index.order) (p : obj) (x : P) :
  NoDup (keys p) -> Index.lookup o [(p, x)] p = Some (p, x).
Proof.
  intros Hnd. pose proof (@matches_self p Hnd) as Hm.
  destruct o; cbn [Index.lookup find fold_left fst]; unfold Index.deeper; cbn [fst];
    rewrite Hm; reflexivity.
Qed.

Lemma local_is_local : str_eqb (lit "local") (lit "local") = true.
Proof. reflexivity. Qed.

Lemma fresh_route_run (debugStorage : obj) (c : Bishop.config) (p : obj) (f : fn) :
  distinct (keys p) = true ->
  let i := snd (Bishop.add (Bishop.create c) (VObj p) (HFun f)) in
  let route := {| type := lit "local"; handler_of := HFun f |} in
  let timeout := Bishop.effective_timeout i p in
  let begun := [(0, Lookup (truthy (prop p (lit "$local"))) p);
                (0, Invoke (lit "local") p)] in
  Bishop.act_run debugStorage i (VObj p) []
  = match Bishop.execute debugStorage i p route (HFun f) with
    | Threw e => {| result := Rejected 0 e; events := begun |}
    | Promised r =>
        {| result := result (if negb (truthy timeout) then r
                             else race timeout p r);
           events := begun ++ events r |}
    end.
Proof.
  intros Hd i route timeout begun. unfold timeout, i.
  rewrite fresh_add. cbn beta iota zeta. cbn [fst snd].
  rewrite local_is_local. cbn beta iota. fold route.
  set (i0 := {| Bishop.conf := c; Bishop.pm := [(p, route)];
                Bishop.pmLocal := [(p, route)];
                Bishop.this_timeout := Bishop.timeout c;
                Bishop.this_transport := [] |}).
  assert (Hfound : Index.lookup (Bishop.matchOrder (Bishop.conf i0))
                     (if truthy (prop (Bishop.compose (VObj p) []) (lit "$local"))
                      then Bishop.pmLocal i0 else Bishop.pm i0)
                     (Bishop.compose (VObj p) []) = Some (p, route)).
  { rewrite (compose_self p Hd). cbn [i0 Bishop.pm Bishop.pmLocal].
    destruct (truthy (prop p (lit "$local")));
      apply lookup_single, distinct_NoDup, Hd. }
  assert (Hsel : Bishop.select_method i0 (snd (p, route)) = Some (HFun f))
    by reflexivity.
  destruct (Bishop.execute debugStorage i0 p route (HFun f)) as [e|r] eqn:He.
  - rewrite (@act_run_threw debugStorage i0 (VObj p) [] (p, route) (HFun f)
               eq_refl Hfound Hsel e)
      by (rewrite (compose_self p Hd); exact He).
    rewrite (compose_self p Hd). reflexivity.
  - rewrite (@act_run_promised debugStorage i0 (VObj p) [] (p, route) (HFun f)
               eq_refl Hfound Hsel r)
      by (rewrite (compose_self p Hd); exact He).
    rewrite (compose_self p Hd). reflexivity.
Qed.

(** X16. On a new instance, a function added under a pattern is what [act]
    calls for that pattern, with the pattern as its input: the call is
    recorded, and the result and the effects are those of the executor on
    that function, raced against the timer when the timeout is truthy. *)
Theorem add_then_act_calls_the_handler
        (debugStorage : obj) (c : Bishop.config) (p : obj) (f : fn) :
  distinct (keys p) = true ->
  let added := Bishop.add (Bishop.create c) (VObj p) (HFun f) in
  let i := snd added in
  let route := {| type := lit "local"; handler_of := HFun f |} in
  let timeout := Bishop.effective_timeout i p in
  let begun := [(0, Lookup (truthy (prop p (lit "$local"))) p);
                (0, Invoke (lit "local") p)] in
  fst added = None
  /\ Bishop.act_run debugStorage i (VObj p) []
     = match Bishop.execute debugStorage i p route (HFun f) with
       | Threw e => {| result := Rejected 0 e; events := begun |}
       | Promised r =>
           {| result := result (if negb (truthy timeout) then r
                                else race timeout p r);
              events := begun ++ events r |}
       end.
Proof.
  intros Hd added i route timeout begun. split.
  - unfold added. rewrite fresh_add. reflexivity.
  - exact (@fresh_route_run debugStorage c p f Hd).
Qed.

(** X17. A pattern added under the name of a transport that was never
    loaded is accepted, and every call that reaches it is rejected with
    the error that the transport does not exist; nothing is invoked. *)
Theorem route_to_unloaded_transport
        (debugStorage : obj) (c : Bishop.config) (p : obj) (name : str) :
  distinct (keys p) = true ->
  name <> lit "local" ->
  truthy (prop p (lit "$local")) = false ->
  let added := Bishop.add (Bishop.create c) (VObj p) (HName name) in
  fst added = None
  /\ Bishop.act_run debugStorage (snd added) (VObj p) []
     = {| result := Rejected 0 (TransportNotExists name);
          events := [(0, Lookup false p)] |}.
Proof.
  intros Hd Hname Hlocal added. unfold added. rewrite fresh_add.
  cbn beta iota zeta. cbn [fst snd]. split; [reflexivity|].
  assert (Hne : str_eqb name (lit "local") = false).
  { unfold str_eqb. destruct (str_eq_dec name (lit "local")); congruence. }
  rewrite Hne. unfold Bishop.act_run. cbn [truthy negb].
  rewrite (compose_self p Hd), Hlocal.
  cbn [Bishop.conf Bishop.pm Bishop.matchOrder].
  rewrite lookup_single by (apply distinct_NoDup, Hd).
  cbn [snd]. unfold Bishop.select_method. cbn [type Bishop.this_transport registered].
  rewrite Hne. reflexivity.
Qed.

(** X18. A pattern added with the text ['local'] in place of a function is
    filed as a local route whose handler cannot be called. With
    ['TypeError'] among the names of [terminateOn], as by default, a call
    to it ends the process; with [$nowait] the call is rejected with the
    type error instead and the classifier is not consulted. *)
Theorem route_to_the_text_local
        (debugStorage : obj) (c : Bishop.config) (p : obj) (names : list str) :
  distinct (keys p) = true ->
  Bishop.terminateOn_ c = Names names ->
  In (lit "TypeError") names ->
  let added := Bishop.add (Bishop.create c) (VObj p) (HName (lit "local")) in
  let r := Bishop.act_run debugStorage (snd added) (VObj p) [] in
  let crash := TypeError (lit "method is not a function") in
  fst added = None
  /\ (truthy (prop p (lit "$nowait")) = false ->
      result r = Exited 0 /\ In (0, Exit) (events r))
  /\ (truthy (prop p (lit "$nowait")) = true ->
      result r = Rejected 0 crash
      /\ forall t e, ~ In (t, Classify e) (events r)).
Proof.
  intros Hd Hterm Hlisted added r crash. unfold r, added.
  rewrite fresh_add. cbn beta iota zeta. cbn [fst snd]. split; [reflexivity|].
  rewrite local_is_local. cbn beta iota.
  set (route := {| type := lit "local"; handler_of := HName (lit "local") |}).
  set (i0 := {| Bishop.conf := c; Bishop.pm := [(p, route)];
                Bishop.pmLocal := [(p, route)];
                Bishop.this_timeout := Bishop.timeout c;
                Bishop.this_transport := [] |}).
  assert (Hfound : Index.lookup (Bishop.matchOrder (Bishop.conf i0))
                     (if truthy (prop (Bishop.compose (VObj p) []) (lit "$local"))
                      then Bishop.pmLocal i0 else Bishop.pm i0)
                     (Bishop.compose (VObj p) []) = Some (p, route)).
  { rewrite (compose_self p Hd). cbn [i0 Bishop.pm Bishop.pmLocal].
    destruct (truthy (prop p (lit "$local")));
      apply lookup_single, distinct_NoDup, Hd. }
  assert (Hsel : Bishop.select_method i0 (snd (p, route)) = Some (HName (lit "local")))
    by reflexivity.
  assert (Hfatal : errorHandler (Bishop.terminateOn_ c) crash = Fatal).
  { rewrite Hterm. cbn [errorHandler error_name crash].
    replace (existsb (str_eqb (lit "TypeError")) names) with true; [reflexivity|].
    symmetry. apply existsb_exists. exists (lit "TypeError").
    split; [exact Hlisted | reflexivity]. }
  split.
  - intros Hwait.
    assert (He : Bishop.execute debugStorage i0 (Bishop.compose (VObj p) []) (snd (p, route))
                                (HName (lit "local"))
                 = Promised {| result := Exited 0;
                               events := [(0, Classify crash); (0, LogError crash);
                                          (0, Exit)] |}).
    { rewrite (compose_self p Hd). unfold Bishop.execute. rewrite Hwait, andb_false_r.
      unfold Bishop.executor_await. cbn [call]. unfold Bishop.awaited_catch.
      cbn [i0 Bishop.conf]. fold crash. rewrite Hfatal. reflexivity. }
    rewrite (@act_run_promised debugStorage i0 (VObj p) [] (p, route)
               (HName (lit "local")) eq_refl Hfound Hsel _ He).
    cbn [result events]. split.
    + destruct (truthy (Bishop.effective_timeout i0 (Bishop.compose (VObj p) [])));
        cbn [negb]; [|reflexivity].
      rewrite race_settled_at_once; reflexivity.
    + apply in_or_app. right. right. right. left. reflexivity.
  - intros Hwait.
    assert (He : Bishop.execute debugStorage i0 (Bishop.compose (VObj p) []) (snd (p, route))
                                (HName (lit "local"))
                 = Threw crash).
    { rewrite (compose_self p Hd). unfold Bishop.execute. cbn [snd route type].
      rewrite local_is_local, Hwait. reflexivity. }
    rewrite (@act_run_threw debugStorage i0 (VObj p) [] (p, route)
               (HName (lit "local")) eq_refl Hfound Hsel _ He).
    cbn [result events]. split; [reflexivity|].
    intros t e [H|[H|[]]]; discriminate.
Qed.

End FreshRoute.

Section LocalIndex.

Lemma add_keeps_the_local_index (i : Bishop.instance) (_pattern : value) (h : handler) :
  Bishop.pmLocal i = filter local_type (Bishop.pm i) ->
  Bishop.pmLocal (snd (Bishop.add i _pattern h))
  = filter local_type (Bishop.pm (snd (Bishop.add i _pattern h))).
Proof.
  intros Hinv. unfold Bishop.add. cbn zeta.
  destruct (_ && _); cbn [snd Bishop.pm Bishop.pmLocal]; [exact Hinv|].
  unfold Index.add. rewrite filter_app. cbn [filter]. unfold local_type at 2.
  cbn [snd type].
  destruct (str_eqb _ (lit "local")); [rewrite Hinv; reflexivity|].
  rewrite app_nil_r. exact Hinv.
Qed.

(** X19. Whatever is added to an instance, and whether or not an [add] is
    refused, the local index holds exactly the entries of the full index
    that are of the local type, in the same order. *)
Theorem local_index_is_the_local_part
        (c : Bishop.config) (l : list (value * handler)) :
  Bishop.pmLocal (adds (Bishop.create c) l)
  = filter local_type (Bishop.pm (adds (Bishop.create c) l)).
Proof.
  unfold adds.
  assert (H : forall i, Bishop.pmLocal i = filter local_type (Bishop.pm i) ->
                        Bishop.pmLocal (fold_left (fun i ph => snd (Bishop.add i (fst ph) (snd ph))) l i)
                        = filter local_type
                            (Bishop.pm (fold_left (fun i ph => snd (Bishop.add i (fst ph) (snd ph))) l i))).
  { induction l as [|[p h] r IH]; intros i Hi; cbn [fold_left fst snd]; [exact Hi|].
    apply IH, add_keeps_the_local_index, Hi. }
  apply H. reflexivity.
Qed.

End LocalIndex.

Section ActEffects.

Variable debugStorage : obj.

Lemma post_operations_warn_only (slow : value) (p : obj) (t : nat) (x : nat * event) :
  In x (Bishop.doPostOperations slow p t) -> x = (t, LogWarn t p).
Proof.
  unfold Bishop.doPostOperations.
  destruct (truthy slow && exceeds t slow); [|intros []].
  intros [<-|[]]. reflexivity.
Qed.

Lemma execute_effects (i : Bishop.instance) (pattern : obj) (p : payload)
      (method : handler) (r : run) :
  Bishop.execute debugStorage i pattern p method = Promised r ->
  forall x, In x (events r) -> executor_effect (snd x) = true.
Proof.
  unfold Bishop.execute.
  destruct (_ && _).
  - unfold Bishop.executor_nowait.
    intros E.
    destruct (call method pattern) as [e|t [v|err]|]; [discriminate| | |];
      injection E as <-; cbn [events]; intros x Hx;
        apply in_app_or in Hx; destruct Hx as [Hx|Hx];
          try (rewrite (post_operations_warn_only _ _ _ _ Hx); reflexivity);
          try (destruct Hx; fail).
    unfold Bishop.detached_catch in Hx. destruct Hx as [<-|Hx]; [reflexivity|].
    destruct (errorHandler _ err) as [|[]]; cbn [In] in Hx;
      intuition (subst; reflexivity).
  - unfold Bishop.executor_await.
    destruct (call method pattern) as [e|t [v|err]|];
      intros E; injection E as <-; intros x Hx.
    + unfold Bishop.awaited_catch in Hx.
      destruct (errorHandler _ e) as [|[]]; cbn [events In] in Hx.
      * intuition (subst; reflexivity).
      * destruct Hx as [<-|Hx]; [reflexivity|].
        rewrite (post_operations_warn_only _ _ _ _ Hx). reflexivity.
      * intuition (subst; reflexivity).
    + cbn [events] in Hx. rewrite (post_operations_warn_only _ _ _ _ Hx). reflexivity.
    + unfold Bishop.awaited_catch in Hx.
      destruct (errorHandler _ err) as [|[]]; cbn [events In] in Hx.
      * intuition (subst; reflexivity).
      * destruct Hx as [<-|Hx]; [reflexivity|].
        rewrite (post_operations_warn_only _ _ _ _ Hx). reflexivity.
      * intuition (subst; reflexivity).
    + destruct Hx.
Qed.

(** What [act] invokes is what the lookup gave. *)
Lemma act_run_invokes (i : Bishop.instance) (_pattern : value) (payloads : list obj)
      (t : nat) (ty : str) (q : obj) :
  In (t, Invoke ty q) (events (Bishop.act_run debugStorage i _pattern payloads)) ->
  let pattern := Bishop.compose _pattern payloads in
  exists m,
    Index.lookup (Bishop.matchOrder (Bishop.conf i))
                 (if truthy (prop pattern (lit "$local"))
                  then Bishop.pmLocal i else Bishop.pm i) pattern = Some m
    /\ ty = type (snd m) /\ q = pattern /\ t = 0
    /\ Bishop.select_method i (snd m) <> None.
Proof.
  unfold Bishop.act_run. destruct (negb (truthy _pattern)); [intros []|].
  cbn zeta.
  destruct (Index.lookup _ _ _) as [m|] eqn:Hl.
  - destruct (Bishop.select_method i (snd m)) as [method|] eqn:Hs.
    + intros Hin. exists m. split; [reflexivity|].
      assert (Hfirst : In (t, Invoke ty q)
                          [(0, Lookup (truthy (prop (Bishop.compose _pattern payloads)
                                                    (lit "$local")))
                                      (Bishop.compose _pattern payloads));
                           (0, Invoke (type (snd m)) (Bishop.compose _pattern payloads))]).
      { destruct (Bishop.execute debugStorage i _ (snd m) method) as [e|r] eqn:He.
        - exact Hin.
        - cbn [events] in Hin. apply in_app_or in Hin. destruct Hin as [Hin|Hin];
            [exact Hin|].
          assert (Hr : In (t, Invoke ty q) (events r)).
          { destruct (negb _); [exact Hin|]. rewrite race_events in Hin. exact Hin. }
          pose proof (execute_effects _ _ _ _ He _ Hr) as Hx. discriminate. }
      destruct Hfirst as [E|[E|[]]]; [discriminate|].
      injection E as <- <- <-. repeat split; try reflexivity.
      rewrite Hs. discriminate.
    + cbn [events Bishop.rejected_now]. intros [E|[]]. discriminate.
  - cbn [events Bishop.rejected_now]. intros [E|[]]. discriminate.
Qed.

(** X20. On an instance whose local index is the local part of the full
    index, a call with [$local] invokes the method of no transport: what
    it invokes, if anything, is a local route. *)
Theorem local_call_stays_local
        (i : Bishop.instance) (_pattern : value) (payloads : list obj) :
  Bishop.pmLocal i = filter local_type (Bishop.pm i) ->
  truthy (prop (Bishop.compose _pattern payloads) (lit "$local")) = true ->
  forall t ty q,
    In (t, Invoke ty q) (events (Bishop.act_run debugStorage i _pattern payloads)) ->
    ty = lit "local".
Proof.
  intros Hinv Hlocal t ty q Hin.
  destruct (act_run_invokes _ _ _ _ _ _ Hin) as (m & Hl & -> & _).
  rewrite Hlocal in Hl. apply lookup_In in Hl. destruct Hl as [Hm _].
  rewrite Hinv in Hm. apply filter_In in Hm. destruct Hm as [_ Hm].
  unfold local_type in Hm. apply str_eqb_eq in Hm. exact Hm.
Qed.

(** X21. With a function of the caller's own for [terminateOn], [act] never
    ends the process: no exit is among its effects and its promise is not
    cut short by one. *)
Theorem custom_classifier_never_exits
        (i : Bishop.instance) (_pattern : value) (payloads : list obj)
        (f : error -> value) :
  Bishop.terminateOn_ (Bishop.conf i) = Custom f ->
  let r := Bishop.act_run debugStorage i _pattern payloads in
  (forall t, ~ In (t, Exit) (events r)) /\ (forall t, result r <> Exited t).
Proof.
  intros Hc r.
  assert (Hexec : forall pattern p method r0,
             Bishop.execute debugStorage i pattern p method = Promised r0 ->
             (forall t, ~ In (t, Exit) (events r0)) /\ (forall t, result r0 <> Exited t)).
  { intros pattern p method r0. unfold Bishop.execute.
    destruct (_ && _).
    - unfold Bishop.executor_nowait.
      intros E.
      destruct (call method pattern) as [e|t [v|err]|]; [discriminate| | |];
        injection E as <-; cbn [events result];
          (split; [|discriminate]); intros t' Hx;
            apply in_app_or in Hx; destruct Hx as [Hx|Hx];
              try (apply post_operations_warn_only in Hx; discriminate);
              try (destruct Hx; fail).
      unfold Bishop.detached_catch in Hx. rewrite Hc in Hx. cbn [errorHandler] in Hx.
      destruct Hx as [E|Hx]; [discriminate|].
      destruct (truthy (f err)); cbn [In] in Hx; intuition discriminate.
    - unfold Bishop.executor_await, Bishop.awaited_catch. rewrite Hc.
      cbn [errorHandler].
      destruct (call method pattern) as [e|t [v|err]|];
        intros E; injection E as <-.
      + destruct (truthy (f e)); cbn [events result]; (split; [|discriminate]);
          intros t' [E|Hx]; try discriminate; try (destruct Hx; fail).
        apply post_operations_warn_only in Hx. discriminate.
      + cbn [events result]. split; [|discriminate]. intros t' Hx.
        apply post_operations_warn_only in Hx. discriminate.
      + destruct (truthy (f err)); cbn [events result]; (split; [|discriminate]);
          intros t' [E|Hx]; try discriminate; try (destruct Hx; fail).
        apply post_operations_warn_only in Hx. discriminate.
      + cbn [events result]. split; [intros t' [] | discriminate]. }
  unfold r, Bishop.act_run. destruct (negb (truthy _pattern)).
  { cbn [Bishop.rejected_now events result]. split; [intros t [] | discriminate]. }
  cbn zeta. destruct (Index.lookup _ _ _) as [m|].
  2:{ cbn [Bishop.rejected_now events result]. split; [|discriminate].
      intros t [E|[]]. discriminate. }
  destruct (Bishop.select_method i (snd m)) as [method|].
  2:{ cbn [Bishop.rejected_now events result]. split; [|discriminate].
      intros t [E|[]]. discriminate. }
  destruct (Bishop.execute debugStorage i _ (snd m) method) as [e|r0] eqn:He.
  { cbn [Bishop.rejected_now events result]. split; [|discriminate].
    intros t Hx. apply in_app_or in Hx. destruct Hx as [[E|[]]|[E|[]]]; discriminate. }
  destruct (Hexec _ _ _ _ He) as [Hev Hres]. cbn [events result]. split.
  - intros t Hx. apply in_app_or in Hx. destruct Hx as [Hx|Hx].
    + apply in_app_or in Hx. destruct Hx as [[E|[]]|[E|[]]]; discriminate.
    + destruct (negb _); [exact (Hev t Hx)|]. rewrite race_events in Hx.
      exact (Hev t Hx).
  - intros t. destruct (negb _); [apply Hres|].
    unfold race. destruct (settled_at (result r0)) as [t0|]; [|discriminate].
    destruct (Nat.ltb t0 _); [apply Hres | discriminate].
Qed.

End ActEffects.

(* ================================================================== *)
(** * Plugins *)
(* ================================================================== *)

Section PluginHost.

Lemma registered_get (r : registry) (n : str) : registered r n = get r n.
Proof.
  induction r as [|[k t] r IH]; cbn [registered get]; [reflexivity|].
  destruct (str_eq_dec k n); [reflexivity | exact IH].
Qed.

Lemma use_transport (h h1 : Host.host) (p : Host.plugin) (d : Host.data) :
  p h = (Host.Gives (Some d), h1) ->
  Host.data_type d = VStr (lit "transport") ->
  truthy (Host.name d) = true ->
  Host.use h (Some p)
  = (inr (Some d), Host.install h1 (toString (Host.name d)) (Host.as_transport d)).
Proof.
  intros Hp Ht Hn. unfold Host.use. rewrite Hp, Ht, Hn. reflexivity.
Qed.

(** X22. A plugin that returns a transport with a name has it installed
    under that name, in place of whatever was loaded under it; the other
    transports, the patterns and the routes stay as the plugin left
    them. *)
Theorem use_installs_the_transport
        (h h1 : Host.host) (p : Host.plugin) (d : Host.data) :
  p h = (Host.Gives (Some d), h1) ->
  Host.data_type d = VStr (lit "transport") ->
  truthy (Host.name d) = true ->
  let key := toString (Host.name d) in
  let used := Host.use h (Some p) in
  let h2 := snd used in
  fst used = inr (Some d)
  /\ registered (Bishop.this_transport (Host.inst h2)) key = Some (Host.as_transport d)
  /\ (forall n, n <> key ->
        registered (Bishop.this_transport (Host.inst h2)) n
        = registered (Bishop.this_transport (Host.inst h1)) n)
  /\ Bishop.pm (Host.inst h2) = Bishop.pm (Host.inst h1)
  /\ Bishop.pmLocal (Host.inst h2) = Bishop.pmLocal (Host.inst h1)
  /\ Host.routes h2 = Host.routes h1.
Proof.
  intros Hp Ht Hn key used h2. unfold h2, used.
  rewrite (use_transport h p Hp Ht Hn). cbn [fst snd].
  split; [reflexivity|]. unfold Host.install.
  cbn [Host.inst Host.routes Bishop.this_transport Bishop.pm Bishop.pmLocal].
  split; [|split; [|repeat split]].
  - rewrite registered_get, get_put. fold key.
    destruct (str_eq_dec key key); congruence.
  - intros n Hne. rewrite !registered_get, get_put. fold key.
    destruct (str_eq_dec key n) as [E|_]; [|reflexivity].
    exfalso. apply Hne. symmetry. exact E.
Qed.

(** X23. Once a transport with a [send] method is loaded under a name
    other than ['local'], a pattern added under that name is served by
    it: [act] invokes [send] with the pattern and awaits it. It is so
    whether the transport is loaded before the pattern is added or
    after. *)
Theorem loaded_transport_serves_its_routes
        (debugStorage : obj) (c : Bishop.config) (d : Host.data) (p : obj)
        (n : str) (s : fn) :
  Host.data_type d = VStr (lit "transport") ->
  Host.name d = VStr n -> n <> [] -> n <> lit "local" ->
  send (Host.as_transport d) = Some s ->
  distinct (keys p) = true ->
  truthy (prop p (lit "$local")) = false ->
  let plugin : Host.plugin := fun h => (Host.Gives (Some d), h) in
  let loaded_first :=
    snd (Host.add (snd (Host.use (Host.create c) (Some plugin))) (VObj p) (HName n)) in
  let added_first :=
    snd (Host.use (snd (Host.add (Host.create c) (VObj p) (HName n))) (Some plugin)) in
  let slow := js_or (Bishop.slowPatternTimeout c) (prop p (lit "$slow")) in
  let timeout := js_or (prop p (lit "$timeout")) (Bishop.timeout c) in
  added_first = loaded_first
  /\ exists r,
       Bishop.executor_await debugStorage c slow (HFun s) p = Promised r
       /\ Bishop.act_run debugStorage (Host.inst loaded_first) (VObj p) []
          = {| result := result (if negb (truthy timeout) then r
                                 else race timeout p r);
               events := [(0, Lookup false p); (0, Invoke n p)] ++ events r |}.
Proof.
  intros Ht Hname Hn Hnl Hsend Hd Hlocal plugin loaded_first added_first slow timeout.
  assert (Htruthy : truthy (Host.name d) = true).
  { rewrite Hname. destruct n; [congruence | reflexivity]. }
  assert (Hne : str_eqb n (lit "local") = false).
  { unfold str_eqb. destruct (str_eq_dec n (lit "local")); congruence. }
  set (route := {| type := n; handler_of := HName n |}).
  set (i0 := {| Bishop.conf := c;
                Bishop.pm := [(p, route)];
                Bishop.pmLocal := [];
                Bishop.this_timeout := Bishop.timeout c;
                Bishop.this_transport := [(n, Host.as_transport d)] |}).
  assert (Hloaded : loaded_first = {| Host.inst := i0; Host.routes := [] |}).
  { unfold loaded_first.
    rewrite (@use_transport (Host.create c) (Host.create c) plugin d eq_refl Ht Htruthy).
    cbn [snd]. rewrite Hname. cbn [toString].
    unfold Host.add, Host.install, Host.create, Bishop.create, Bishop.add.
    cbn [Host.inst Host.routes Bishop.conf Bishop.pm Bishop.pmLocal
         Bishop.this_timeout Bishop.this_transport put].
    rewrite entries_objectify. cbn [part_entries entries].
    replace (Index.lookup (Bishop.matchOrder c) [] p) with (@None (Index.entry payload))
      by (destruct (Bishop.matchOrder c); reflexivity).
    rewrite andb_false_r, Hne. reflexivity. }
  assert (Hadded : added_first = {| Host.inst := i0; Host.routes := [] |}).
  { unfold added_first, Host.add, Host.create. cbn [Host.inst Host.routes].
    rewrite fresh_add. cbn beta iota zeta. cbn [snd]. rewrite Hne.
    match goal with
    | |- snd (Host.use ?h0 _) = _ =>
        rewrite (@use_transport h0 h0 plugin d eq_refl Ht Htruthy)
    end.
    cbn [snd]. rewrite Hname. reflexivity. }
  split; [rewrite Hadded, Hloaded; reflexivity|].
  rewrite Hloaded. cbn [Host.inst].
  assert (Hcompose : Bishop.compose (VObj p) [] = p) by (apply compose_self, Hd).
  assert (Hfound : Index.lookup (Bishop.matchOrder (Bishop.conf i0))
                     (if truthy (prop (Bishop.compose (VObj p) []) (lit "$local"))
                      then Bishop.pmLocal i0 else Bishop.pm i0)
                     (Bishop.compose (VObj p) []) = Some (p, route)).
  { rewrite Hcompose, Hlocal. cbn [i0 Bishop.pm].
    apply lookup_single, distinct_NoDup, Hd. }
  assert (Hsel : Bishop.select_method i0 (snd (p, route)) = Some (HFun s)).
  { unfold Bishop.select_method. cbn [snd route type i0 Bishop.this_transport registered].
    rewrite Hne. destruct (str_eq_dec n n); [|congruence].
    rewrite Hsend. reflexivity. }
  assert (Hexec : exists r, Bishop.executor_await debugStorage c slow (HFun s) p = Promised r).
  { unfold Bishop.executor_await. destruct (call (HFun s) p) as [e|t [v|e]|];
      eexists; reflexivity. }
  destruct Hexec as [r Hr]. exists r. split; [exact Hr|].
  assert (He : Bishop.execute debugStorage i0 (Bishop.compose (VObj p) [])
                              (snd (p, route)) (HFun s) = Promised r).
  { rewrite Hcompose. unfold Bishop.execute. cbn [snd route type]. rewrite Hne.
    cbn [andb]. exact Hr. }
  rewrite (@act_run_promised debugStorage i0 (VObj p) [] (p, route) (HFun s)
             eq_refl Hfound Hsel r He).
  rewrite Hcompose, Hlocal. reflexivity.
Qed.

Lemma get_fold_put_overlay (l acc : obj) (k : str) :
  get (fold_left (fun o kv => put o (fst kv) (snd kv)) l acc) k
  = overlay l k (get acc k).
Proof.
  revert acc. induction l as [|[k0 v0] r IH]; intros acc; cbn [fold_left fst snd].
  - unfold overlay. reflexivity.
  - rewrite IH. apply overlay_cons.
Qed.

(** X24. A plugin that returns routes under a name has them merged into
    the routes kept under that name: a route it names takes its handler,
    the others stay; the routes under other names, the transports and the
    patterns stay as the plugin left them. *)
Theorem use_merges_the_routes
        (h h1 : Host.host) (p : Host.plugin) (d : Host.data) (r : obj) :
  p h = (Host.Gives (Some d), h1) ->
  Host.is_string (Host.data_type d) (lit "transport") = false ->
  Host.data_routes d = Some r ->
  truthy (Host.name d) = true ->
  let key := toString (Host.name d) in
  let used := Host.use h (Some p) in
  let known := match get (Host.routes h1) key with Some o => o | None => [] end in
  fst used = inr (Some d)
  /\ Host.inst (snd used) = Host.inst h1
  /\ (exists merged, get (Host.routes (snd used)) key = Some merged
                     /\ forall k, get merged k = overlay r k (get known k))
  /\ (forall n, n <> key -> get (Host.routes (snd used)) n = get (Host.routes h1) n).
Proof.
  intros Hp Ht Hr Hn key used known. unfold used, Host.use.
  rewrite Hp, Ht, Hr, Hn. cbn [fst snd]. unfold Host.merge_routes.
  cbn [Host.inst Host.routes]. fold key. fold known.
  split; [reflexivity|]. split; [reflexivity|]. split.
  - exists (assign known [r]). split.
    + rewrite get_put. destruct (str_eq_dec key key); congruence.
    + intros k. unfold assign. cbn [fold_left]. apply get_fold_put_overlay.
  - intros n Hne. rewrite get_put.
    destruct (str_eq_dec key n) as [E|_]; [|reflexivity].
    exfalso. apply Hne. symmetry. exact E.
Qed.

(** X25. [use] by itself changes neither the configuration nor the
    patterns of the instance, and it changes nothing at all when it fails
    or when the plugin returns nothing: the instance is then as the plugin
    left it. *)
Theorem use_changes_transports_and_routes_only
        (h : Host.host) (required : option Host.plugin) :
  let left := match required with
              | Some p => snd (p h)
              | None => h
              end in
  let used := Host.use h required in
  Bishop.conf (Host.inst (snd used)) = Bishop.conf (Host.inst left)
  /\ Bishop.pm (Host.inst (snd used)) = Bishop.pm (Host.inst left)
  /\ Bishop.pmLocal (Host.inst (snd used)) = Bishop.pmLocal (Host.inst left)
  /\ Bishop.this_timeout (Host.inst (snd used)) = Bishop.this_timeout (Host.inst left)
  /\ match fst used with
     | inr (Some _) => True
     | _ => snd used = left
     end.
Proof.
  unfold Host.use. destruct required as [p|]; cbn zeta; [|repeat split].
  destruct (p h) as [[[d|]|e] h1]; cbn [snd]; [|repeat split|repeat split].
  destruct (Host.is_string (Host.data_type d) (lit "transport")).
  - destruct (truthy (Host.name d)); cbn [fst snd]; repeat split.
  - destruct (Host.data_routes d) as [r|]; [|repeat split].
    destruct (truthy (Host.name d)); cbn [fst snd]; repeat split.
Qed.

End PluginHost.

(* ================================================================== *)
(** * The two revisions of the dispatcher side by side *)
(* ================================================================== *)

Section Revisions.

Variable debugStorage : obj.
Variable c : Bishop.config.
Variable c' : BishopAlt.config.
Variable p : obj.
Variable f : fn.

Hypothesis distinct_keys : distinct (keys p) = true.
Hypothesis awaited : truthy (prop p (lit "$nowait")) = false.

Let route : payload := {| type := lit "local"; handler_of := HFun f |}.
Let i : Bishop.instance := snd (Bishop.add (Bishop.create c) (VObj p) (HFun f)).
Let i' : BishopAlt.instance := BishopAlt.add (alt_instance c') (VObj p) (HFun f).
Let begun : timeline :=
  [(0, Lookup (truthy (prop p (lit "$local"))) p); (0, Invoke (lit "local") p)].

Lemma compose_alt_self : BishopAlt.compose (VObj p) [] = p.
Proof.
  unfold BishopAlt.compose, assign. rewrite entries_objectify.
  cbn [part_entries entries fold_left].
  apply (fold_put_fresh p []). cbn [app]. apply distinct_NoDup, distinct_keys.
Qed.

Lemma act_run_awaited :
  exists r,
    Bishop.executor_await debugStorage c
      (js_or (Bishop.slowPatternTimeout c) (prop p (lit "$slow"))) (HFun f) p
    = Promised r
    /\ Bishop.act_run debugStorage i (VObj p) []
       = {| result := result (if negb (truthy (Bishop.effective_timeout i p)) then r
                              else race (Bishop.effective_timeout i p) p r);
            events := begun ++ events r |}.
Proof.
  pose proof (@fresh_route_run debugStorage c p f distinct_keys) as Hrun.
  cbn zeta in Hrun. fold i in Hrun. fold route in Hrun. fold begun in Hrun.
  assert (He : Bishop.execute debugStorage i p route (HFun f)
               = Bishop.executor_await debugStorage c
                   (js_or (Bishop.slowPatternTimeout c) (prop p (lit "$slow")))
                   (HFun f) p).
  { unfold Bishop.execute. rewrite awaited, andb_false_r. unfold i.
    rewrite fresh_add. reflexivity. }
  rewrite He in Hrun.
  destruct (Bishop.executor_await debugStorage c _ (HFun f) p) as [e|r] eqn:Hr.
  - exfalso. unfold Bishop.executor_await in Hr.
    destruct (call (HFun f) p) as [e0|t [v|e0]|]; discriminate.
  - exists r. split; [reflexivity | exact Hrun].
Qed.

Lemma act_alt_run_awaited :
  BishopAlt.act_run i' (VObj p) []
  = match BishopAlt.executor_await c' (HFun f) p with
    | Threw e => {| result := Rejected 0 e; events := begun |}
    | Promised r =>
        {| result := result (if negb (truthy (BishopAlt.effective_timeout i' p)) then r
                             else race (BishopAlt.effective_timeout i' p) p r);
           events := begun ++ events r |}
    end.
Proof.
  unfold BishopAlt.act_run. cbn [truthy negb]. rewrite compose_alt_self.
  unfold i', BishopAlt.add, alt_instance. rewrite entries_objectify.
  cbn [part_entries entries BishopAlt.conf BishopAlt.pm BishopAlt.pmLocal
       BishopAlt.this_timeout BishopAlt.this_transport].
  rewrite local_is_local. unfold Index.add. cbn [app].
  fold route.
  replace (Index.lookup (BishopAlt.matchOrder c')
             (if truthy (prop p (lit "$local")) then [(p, route)] else [(p, route)]) p)
    with (Some (p, route))
    by (symmetry; destruct (truthy (prop p (lit "$local")));
        apply lookup_single, distinct_NoDup, distinct_keys).
  cbn [snd]. unfold BishopAlt.select_method. cbn [type route handler_of].
  rewrite local_is_local. unfold BishopAlt.execute. cbn [type BishopAlt.conf].
  rewrite awaited, andb_false_r.
  destruct (BishopAlt.executor_await c' (HFun f) p) as [e|r]; [reflexivity|].
  f_equal. destruct (negb _); [reflexivity|]. rewrite race_events. reflexivity.
Qed.

(** X26. An error whose name [terminateOn] lists ends the process in the
    one revision and not in the other: where the handler's promise is
    rejected with such an error, the first logs the error and exits at that
    moment, while in the second the classifier fails on reading the logger,
    nothing is logged, the process goes on, and a call whose timer has not
    expired is rejected with the classifier's type error. *)
Theorem listed_error_in_both_revisions
        (names : list str) (t : nat) (err : error) :
  Bishop.terminateOn_ c = Names names ->
  BishopAlt.terminateOn_ c' = Names names ->
  In (error_name err) names ->
  f p = Settles t (Rejects err) ->
  let r := Bishop.act_run debugStorage i (VObj p) [] in
  let r' := BishopAlt.act_run i' (VObj p) [] in
  let crash := TypeError (lit "Cannot read property 'fatal' of undefined") in
  events r = begun ++ [(t, Classify err); (t, LogError err); (t, Exit)]
  /\ events r' = begun ++ [(t, Classify err)]
  /\ (truthy (BishopAlt.effective_timeout i' p) = false
      \/ t < timer_delay (BishopAlt.effective_timeout i' p) ->
      result r' = Rejected t crash).
Proof.
  intros Hc Hc' Hlisted Hf r r' crash.
  assert (Hex : existsb (str_eqb (error_name err)) names = true).
  { apply existsb_exists. exists (error_name err). split; [exact Hlisted|].
    apply str_eqb_eq. reflexivity. }
  split; [|split].
  - destruct act_run_awaited as (r0 & Hr0 & Hrun). unfold r. rewrite Hrun.
    cbn [events]. f_equal.
    unfold Bishop.executor_await in Hr0. cbn [call] in Hr0. rewrite Hf in Hr0.
    unfold Bishop.awaited_catch in Hr0. rewrite Hc in Hr0.
    cbn [errorHandler] in Hr0. rewrite Hex in Hr0.
    injection Hr0 as <-. reflexivity.
  - unfold r'. rewrite act_alt_run_awaited.
    unfold BishopAlt.executor_await. cbn [call]. rewrite Hf. reflexivity.
  - intros Htimer. unfold r'. rewrite act_alt_run_awaited.
    unfold BishopAlt.executor_await. cbn [call]. rewrite Hf, Hc'.
    cbn [BishopAlt.errorHandler]. rewrite Hex. cbn [result].
    destruct (truthy (BishopAlt.effective_timeout i' p)) eqn:Ht; cbn [negb];
      [|reflexivity].
    destruct Htimer as [Hfalse|Hlt]; [discriminate|].
    unfold race. cbn [result settled_at].
    destruct (Nat.ltb_spec t (timer_delay (BishopAlt.effective_timeout i' p)));
      [reflexivity | lia].
Qed.

(** X27. A handler that throws before it returns is treated differently
    by the two revisions: the first hands the error to the classifier, as
    it does a rejection; the second rejects the call with the error at
    once and the classifier is not consulted. *)
Theorem synchronous_throw_in_both_revisions (e : error) :
  f p = Throws e ->
  In (0, Classify e) (events (Bishop.act_run debugStorage i (VObj p) []))
  /\ BishopAlt.act_run i' (VObj p) []
     = {| result := Rejected 0 e; events := begun |}.
Proof.
  intros Hf. split.
  - destruct act_run_awaited as (r0 & Hr0 & Hrun). rewrite Hrun. cbn [events].
    apply in_or_app. right.
    unfold Bishop.executor_await in Hr0. cbn [call] in Hr0. rewrite Hf in Hr0.
    injection Hr0 as <-. unfold Bishop.awaited_catch.
    destruct (errorHandler (Bishop.terminateOn_ c) e) as [|[]]; left; reflexivity.
  - rewrite act_alt_run_awaited. unfold BishopAlt.executor_await. cbn [call].
    rewrite Hf. reflexivity.
Qed.

(** X29. The timer does not stop the handler. Where its promise is
    rejected later than the timer expires, with an error whose name
    [terminateOn] lists, the caller has been given the timeout error when
    the timer expired, and the process is ended all the same when the
    handler fails. *)
Theorem late_failure_ends_the_process
        (names : list str) (t : nat) (err : error) :
  Bishop.terminateOn_ c = Names names ->
  In (error_name err) names ->
  f p = Settles t (Rejects err) ->
  truthy (Bishop.effective_timeout i p) = true ->
  timer_delay (Bishop.effective_timeout i p) < t ->
  let r := Bishop.act_run debugStorage i (VObj p) [] in
  result r = Rejected (timer_delay (Bishop.effective_timeout i p))
                      (PatternTimeout (Bishop.effective_timeout i p) p)
  /\ In (t, Exit) (events r).
Proof.
  intros Hc Hlisted Hf Htruthy Hlate r.
  assert (Hex : existsb (str_eqb (error_name err)) names = true).
  { apply existsb_exists. exists (error_name err). split; [exact Hlisted|].
    apply str_eqb_eq. reflexivity. }
  destruct act_run_awaited as (r0 & Hr0 & Hrun). unfold r. rewrite Hrun.
  unfold Bishop.executor_await in Hr0. cbn [call] in Hr0. rewrite Hf in Hr0.
  unfold Bishop.awaited_catch in Hr0. rewrite Hc in Hr0.
  cbn [errorHandler] in Hr0. rewrite Hex in Hr0. injection Hr0 as <-.
  cbn [result events]. rewrite Htruthy. cbn [negb]. split.
  - apply race_late. cbn [result settled_at]. intros t' E. injection E as <-.
    exact Hlate.
  - apply in_or_app. right. right. right. left. reflexivity.
Qed.

End Revisions.

(* ================================================================== *)
(** * The theorems at sample inputs *)
(* ================================================================== *)

Lemma chain_stops_on_break_witness :
  Chain.createChainRunnerPromise ([cached] ++ pass_on :: [pass_on]) role_a notifying hand_on
  = {| Chain.replied :=
         Some {| Chain.message := VStr (lit "cached");
                 Chain.headers_of := {| Chain.break_ := VBool true;
                                        Chain.notify := Some [lit "local"; lit "amqp"];
                                        Chain.pattern := [(lit "role", VStr (lit "a"))] |} |};
       Chain.called := [(0, role_a)];
       Chain.notices := [] |}
  /\ List.length [(0, role_a)] = List.length [cached].
Proof.
  apply (@chain_stops_on_break [cached] pass_on [pass_on] role_a notifying hand_on
           (VStr (lit "cached"))
           {| Chain.break_ := VBool true;
              Chain.notify := Some [lit "local"; lit "amqp"];
              Chain.pattern := [(lit "role", VStr (lit "a"))] |}
           [(0, role_a)]); reflexivity.
Defined.

Lemma chain_failure_is_classified_witness :
  Chain.createChainRunnerPromise ([pass_on] ++ failing :: [pass_on]) role_a notifying hand_on
  = {| Chain.replied := Some {| Chain.message := VBool false;
                                Chain.headers_of := notifying |};
       Chain.called := [(0, role_a)] ++ [(List.length [pass_on], role_a)];
       Chain.notices := [] |}.
Proof.
  apply (@chain_failure_is_classified [pass_on] failing [pass_on] role_a notifying
           hand_on role_a notifying notifying [(0, role_a)] boom); reflexivity.
Defined.

Lemma notify_keeps_local_for_the_emitter_witness :
  (forall n m, In (Chain.Forward n m) (Chain.notifyListenersAboutEvent role_a notifying)
               <-> m = role_a /\ In n [lit "local"; lit "amqp"] /\ n <> lit "local")
  /\ (forall ev m, In (Chain.Emit ev m) (Chain.notifyListenersAboutEvent role_a notifying)
                   <-> In (lit "local") [lit "local"; lit "amqp"]
                       /\ ev = Chain.uniqueEvent notifying /\ m = role_a)
  /\ List.length (filter (fun c => match c with Chain.Emit _ _ => true | _ => false end)
                         (Chain.notifyListenersAboutEvent role_a notifying)) <= 1.
Proof.
  apply (@notify_keeps_local_for_the_emitter role_a notifying [lit "local"; lit "amqp"]).
  reflexivity.
Defined.

Lemma add_then_act_calls_the_handler_witness :
  fst (Bishop.add (Bishop.create Bishop.defaultConfig) role_a (HFun slow200)) = None
  /\ Bishop.act_run [] sample_instance role_a []
     = {| result := Resolved 200 (VNum 5);
          events := [(0, Lookup false (entries role_a));
                     (0, Invoke (lit "local") (entries role_a))] |}.
Proof.
  apply (@add_then_act_calls_the_handler [] Bishop.defaultConfig (entries role_a) slow200).
  reflexivity.
Defined.

Lemma route_to_unloaded_transport_witness :
  fst (Bishop.add (Bishop.create Bishop.defaultConfig) role_a (HName (lit "amqp"))) = None
  /\ Bishop.act_run [] (snd (Bishop.add (Bishop.create Bishop.defaultConfig) role_a
                                         (HName (lit "amqp"))))
                    role_a []
     = {| result := Rejected 0 (TransportNotExists (lit "amqp"));
          events := [(0, Lookup false (entries role_a))] |}.
Proof.
  apply (@route_to_unloaded_transport [] Bishop.defaultConfig (entries role_a) (lit "amqp"));
    [reflexivity | discriminate | reflexivity].
Defined.

Lemma route_to_the_text_local_witness :
  let added := Bishop.add (Bishop.create Bishop.defaultConfig) role_a
                          (HName (lit "local")) in
  let r := Bishop.act_run [] (snd added) role_a [] in
  fst added = None /\ result r = Exited 0 /\ In (0, Exit) (events r).
Proof.
  destruct (@route_to_the_text_local [] Bishop.defaultConfig (entries role_a)
              [lit "ReferenceError"; lit "RangeError"; lit "SyntaxError"; lit "TypeError"]
              eq_refl eq_refl ltac:(simpl; tauto)) as (Hadd & Hexit & _).
  split; [exact Hadd | exact (Hexit eq_refl)].
Defined.

Lemma local_call_stays_local_witness :
  Bishop.pm mixed_instance
  = [(entries role_a, {| type := lit "amqp"; handler_of := HName (lit "amqp") |});
     (entries role_a, {| type := lit "local"; handler_of := HFun echo |})]
  /\ forall t ty q,
       In (t, Invoke ty q) (events (Bishop.act_run [] mixed_instance local_call [])) ->
       ty = lit "local".
Proof.
  split; [reflexivity|].
  apply (@local_call_stays_local [] mixed_instance local_call []); reflexivity.
Defined.

Lemma custom_classifier_never_exits_witness :
  let r := Bishop.act_run [] (failing_instance muting_config) role_n [] in
  (forall t, ~ In (t, Exit) (events r)) /\ (forall t, result r <> Exited t).
Proof.
  apply (@custom_classifier_never_exits [] (failing_instance muting_config) role_n []
           (fun _ => VBool true)).
  reflexivity.
Defined.

Lemma use_installs_the_transport_witness :
  let used := Host.use (Host.create Bishop.defaultConfig) (Some amqp_plugin) in
  fst used = inr (Some amqp_data)
  /\ registered (Bishop.this_transport (Host.inst (snd used))) (lit "amqp")
     = Some (Host.as_transport amqp_data).
Proof.
  destruct (@use_installs_the_transport
              (Host.create Bishop.defaultConfig) (Host.create Bishop.defaultConfig)
              amqp_plugin amqp_data eq_refl eq_refl eq_refl) as (Hres & Hreg & _).
  split; [exact Hres | exact Hreg].
Defined.

Lemma loaded_transport_serves_its_routes_witness :
  let loaded :=
    snd (Host.add (snd (Host.use (Host.create Bishop.defaultConfig) (Some amqp_plugin)))
                  role_a (HName (lit "amqp"))) in
  exists r,
    Bishop.executor_await [] Bishop.defaultConfig VNull (HFun remote_echo) (entries role_a)
    = Promised r
    /\ Bishop.act_run [] (Host.inst loaded) role_a []
       = {| result := result (race (VNum 500) (entries role_a) r);
            events := [(0, Lookup false (entries role_a));
                       (0, Invoke (lit "amqp") (entries role_a))] ++ events r |}.
Proof.
  destruct (@loaded_transport_serves_its_routes [] Bishop.defaultConfig amqp_data
              (entries role_a) (lit "amqp") remote_echo
              eq_refl eq_refl ltac:(discriminate) ltac:(discriminate)
              eq_refl eq_refl eq_refl) as (_ & r & Hr & Hrun).
  exists r. split; [exact Hr | exact Hrun].
Defined.

Lemma use_merges_the_routes_witness :
  let used := Host.use (Host.create Bishop.defaultConfig) (Some users_plugin) in
  fst used = inr (Some users_data)
  /\ Host.inst (snd used) = Host.inst (Host.create Bishop.defaultConfig)
  /\ get (Host.routes (snd used)) (lit "users")
     = Some [(lit "create", VStr (lit "role:users, cmd:create"))].
Proof.
  destruct (@use_merges_the_routes
              (Host.create Bishop.defaultConfig) (Host.create Bishop.defaultConfig)
              users_plugin users_data
              [(lit "create", VStr (lit "role:users, cmd:create"))]
              eq_refl eq_refl eq_refl eq_refl) as (Hres & Hinst & _ & _).
  split; [exact Hres|]. split; [exact Hinst | reflexivity].
Defined.

Lemma listed_error_in_both_revisions_witness :
  let begun := [(0, Lookup false (entries role_a));
                (0, Invoke (lit "local") (entries role_a))] in
  let i := snd (Bishop.add (Bishop.create Bishop.defaultConfig) role_a (HFun mistyped5)) in
  let i' := BishopAlt.add (alt_instance BishopAlt.defaultConfig) role_a (HFun mistyped5) in
  events (Bishop.act_run [] i role_a [])
  = begun ++ [(5, Classify type_error); (5, LogError type_error); (5, Exit)]
  /\ events (BishopAlt.act_run i' role_a []) = begun ++ [(5, Classify type_error)]
  /\ result (BishopAlt.act_run i' role_a [])
     = Rejected 5 (TypeError (lit "Cannot read property 'fatal' of undefined")).
Proof.
  destruct (@listed_error_in_both_revisions [] Bishop.defaultConfig BishopAlt.defaultConfig
              (entries role_a) mistyped5 eq_refl eq_refl
              [lit "ReferenceError"; lit "RangeError"; lit "SyntaxError"; lit "TypeError"]
              5 type_error eq_refl eq_refl ltac:(simpl; tauto) eq_refl)
    as (Hev & Hev' & Hres).
  split; [exact Hev|]. split; [exact Hev'|].
  apply Hres. right. vm_compute. lia.
Defined.

Lemma synchronous_throw_in_both_revisions_witness :
  In (0, Classify boom)
     (events (Bishop.act_run []
                (snd (Bishop.add (Bishop.create Bishop.defaultConfig) role_a (HFun throwing)))
                role_a []))
  /\ BishopAlt.act_run (BishopAlt.add (alt_instance BishopAlt.defaultConfig) role_a
                                      (HFun throwing))
                       role_a []
     = {| result := Rejected 0 boom;
          events := [(0, Lookup false (entries role_a));
                     (0, Invoke (lit "local") (entries role_a))] |}.
Proof.
  apply (@synchronous_throw_in_both_revisions [] Bishop.defaultConfig
           BishopAlt.defaultConfig (entries role_a) throwing eq_refl eq_refl boom).
  reflexivity.
Defined.

Lemma normalizeNotify_names_witness :
  Chain.normalizeNotify (Chain.Other (VStr (lit " local, amqp ,")))
  = inr (Some [lit "local"; lit "amqp"])
  /\ Chain.normalizeNotify (Chain.Other (VBool true)) = inr (Some [lit "local"])
  /\ Chain.normalizeNotify (Chain.Other (VStr [])) = inr None.
Proof.
  destruct (@normalizeNotify_names (VStr (lit " local, amqp ,")))
    as (_ & Htext & _).
  destruct (Htext _ eq_refl ltac:(discriminate) ltac:(discriminate))
    as (names & Hnames & Hlist & _).
  destruct (@normalizeNotify_names (VBool true)) as (Hlocal & _).
  destruct (Hlocal (or_introl eq_refl)) as (Htrue & _).
  destruct (@normalizeNotify_names (VStr [])) as (_ & _ & Hfalsy & _).
  split; [|split; [exact Htrue | exact (Hfalsy eq_refl)]].
  rewrite Hnames, Hlist. reflexivity.
Defined.

Lemma late_failure_ends_the_process_witness :
  let r := Bishop.act_run []
             (snd (Bishop.add (Bishop.create Bishop.defaultConfig) role_a (HFun mistyped600)))
             role_a [] in
  result r = Rejected 500 (PatternTimeout (VNum 500) (entries role_a))
  /\ In (600, Exit) (events r).
Proof.
  apply (@late_failure_ends_the_process [] Bishop.defaultConfig (entries role_a) mistyped600
           eq_refl eq_refl
           [lit "ReferenceError"; lit "RangeError"; lit "SyntaxError"; lit "TypeError"]
           600 type_error eq_refl ltac:(simpl; tauto) eq_refl eq_refl).
  vm_compute. lia.
Defined.
